(** * build_toefl_vocab: the tiering pipeline of the TOEFL lexicon builder

    A shallow embedding of [build_toefl_vocab.py].  Python [str] values are
    sequences of Unicode code points, Python [int] is [Z], [dict] and [set]
    are stdpp's [gmap] and [gset]. *)

From Stdlib Require Import ZArith Lia String Ascii.
From Stdlib Require Import Floats.SpecFloat.
From stdpp Require Import base decidable option list sorting gmap fin_maps fin_sets.

Local Open Scope Z_scope.

(** ** Text *)

(** A Python [str]: the list of its code points.  [len] is [length], [==] is
    equality of lists, and the truth value of a [str] is its non-emptiness. *)
Abbreviation pystr := (list N).

(** The code points of an ASCII literal. *)
Definition py (lit : string) : pystr :=
  N_of_ascii <$> list_ascii_of_string lit.

Definition truthy (t : pystr) : bool :=
  match t with [] => false | _ :: _ => true end.

(** [a or b] on two [str] values. *)
Definition str_or (a b : pystr) : pystr := if truthy a then a else b.

(** ** Records of the two dictionary sources *)

Record KajWord := mkKajWord {
  kaj_meaning : pystr;
  kaj_pos : pystr
}.

Record ECDictWord := mkECDictWord {
  phonetic : pystr;
  pos : pystr;
  coca_rank : option Z;
  tags : gset pystr;
  meaning : pystr
}.

(** ** Exceptions *)

Inductive exn :=
  | ValueError | OverflowError | ZeroDivisionError | KeyError
  | FileNotFoundError | RuntimeError | AttributeError.

(** The outcome of a call that may raise. *)
Inductive result (A : Type) :=
  | Ok (a : A)
  | Raise (e : exn).
Arguments Ok {A} a.
Arguments Raise {A} e.

#[global] Instance result_ret : MRet result := @Ok.
#[global] Instance result_bind : MBind result := λ A B f r,
  match r with
  | Ok a => f a
  | Raise e => Raise e
  end.

#[global] Instance result_fmap : FMap result := λ A B f r,
  match r with
  | Ok a => Ok (f a)
  | Raise e => Raise e
  end.

(** ** Whitespace *)

(** The code points [str.strip] removes and [\s] matches. *)
Definition is_space (c : N) : bool :=
  ((9 <=? c) && (c <=? 13) || (28 <=? c) && (c <=? 32) || (c =? 133)
   || (c =? 160) || (c =? 5760) || (8192 <=? c) && (c <=? 8202)
   || (c =? 8232) || (c =? 8233) || (c =? 8239) || (c =? 8287)
   || (c =? 12288))%N.

Fixpoint lstrip (t : pystr) : pystr :=
  match t with
  | c :: t' => if is_space c then lstrip t' else t
  | [] => []
  end.

Definition strip (t : pystr) : pystr :=
  reverse (lstrip (reverse (lstrip t))).

(** ** Binary64 values of the interpreter

    A Python [float] is an IEEE 754 binary64 value, written as a
    [spec_float] in canonical form. *)

(** The integer nearest to [p / q], ties to even, for [0 ≤ p] and [0 < q]. *)
Definition round_half_even (p q : Z) : Z :=
  let f := p / q in
  match 2 * (p mod q) ?= q with
  | Lt => f
  | Eq => if Z.even f then f else f + 1
  | Gt => f + 1
  end.

(** [⌊log2 (p / q)⌋], for [0 < p] and [0 < q]. *)
Definition log2_ratio (p q : Z) : Z :=
  let l := Z.log2 p - Z.log2 q in
  if (if 0 <=? l then q * 2 ^ l <=? p else q <=? p * 2 ^ (- l))
  then l else l - 1.

(** The integer nearest to [p / (q * 2 ^ k)]. *)
Definition scaled_round (p q k : Z) : Z :=
  if 0 <=? k then round_half_even p (q * 2 ^ k)
  else round_half_even (p * 2 ^ (- k)) q.

(** The binary64 value nearest to [± p / q], ties to even, for [0 < p] and
    [0 < q]; an infinity when that value is beyond the largest finite one. *)
Definition binary64_of_ratio (neg : bool) (p q : Z) : spec_float :=
  let k := Z.max (log2_ratio p q - 52) (-1074) in
  let n := scaled_round p q k in
  let '(n, k) := if n =? 2 ^ 53 then (2 ^ 52, k + 1) else (n, k) in
  match n with
  | Zpos m => if k <=? 971 then S754_finite neg m k else S754_infinity neg
  | _ => S754_zero neg
  end.

(** [a / b] on two [int]: the correctly rounded quotient. *)
Definition py_truediv (a b : Z) : result spec_float :=
  if b =? 0 then Raise ZeroDivisionError
  else
    let neg := xorb (a <? 0) (b <? 0) in
    if a =? 0 then Ok (S754_zero neg)
    else match binary64_of_ratio neg (Z.abs a) (Z.abs b) with
         | S754_infinity _ => Raise OverflowError
         | x => Ok x
         end.

(** [int(x)] on a [float]: truncation toward zero. *)
Definition py_int_of_float (x : spec_float) : result Z :=
  match x with
  | S754_zero _ => Ok 0
  | S754_finite s m e =>
      let v := if 0 <=? e then Zpos m * 2 ^ e else Zpos m / 2 ^ (- e) in
      Ok (if s then - v else v)
  | S754_infinity _ => Raise OverflowError
  | S754_nan => Raise ValueError
  end.

(** *** [float(s)] on ASCII text

    The grammar of the builtin: an optional sign, then [inf], [infinity] or
    [nan] in any case, or a decimal number with an optional exponent, where
    single underscores may separate digits.  The builtin also accepts the
    decimal digits of other scripts; this instance reads ASCII digits only. *)

Definition digit_of (c : N) : option Z :=
  if ((48 <=? c) && (c <=? 57))%N then Some (Z.of_N c - 48) else None.

(** [(["_"] digit)*] *)
Fixpoint digitpart_tail (t : pystr) : list Z * pystr :=
  match t with
  | c :: t' =>
      match digit_of c with
      | Some d => let '(ds, r) := digitpart_tail t' in (d :: ds, r)
      | None =>
          if (c =? 95)%N then
            match t' with
            | c' :: t'' =>
                match digit_of c' with
                | Some d => let '(ds, r) := digitpart_tail t'' in (d :: ds, r)
                | None => ([], t)
                end
            | [] => ([], t)
            end
          else ([], t)
      end
  | [] => ([], [])
  end.

(** [digit (["_"] digit)*], or no digit at all. *)
Definition digitpart (t : pystr) : list Z * pystr :=
  match t with
  | c :: t' =>
      match digit_of c with
      | Some d => let '(ds, r) := digitpart_tail t' in (d :: ds, r)
      | None => ([], t)
      end
  | [] => ([], [])
  end.

Definition int_of_digits (ds : list Z) : Z :=
  foldl (λ acc d, 10 * acc + d) 0 ds.

Definition read_sign (t : pystr) : bool * pystr :=
  match t with
  | c :: t' => if (c =? 45)%N then (true, t')
               else if (c =? 43)%N then (false, t') else (false, t)
  | [] => (false, [])
  end.

Definition ascii_lower (c : N) : N :=
  if ((65 <=? c) && (c <=? 90))%N then (c + 32)%N else c.

(** The value [± m * 10 ^ e] as a binary64. *)
Definition binary64_of_decimal (neg : bool) (m e : Z) : spec_float :=
  if m =? 0 then S754_zero neg
  else if 0 <=? e then binary64_of_ratio neg (m * 10 ^ e) 1
  else binary64_of_ratio neg m (10 ^ (- e)).

(** The exponent part, if any; [None] when text is left over. *)
Definition read_exponent (t : pystr) : option Z :=
  match t with
  | [] => Some 0
  | c :: t' =>
      if ((c =? 101) || (c =? 69))%N then
        let '(eneg, t'') := read_sign t' in
        match digitpart t'' with
        | ((_ :: _) as ds, []) =>
            Some (if eneg then - int_of_digits ds else int_of_digits ds)
        | _ => None
        end
      else None
  end.

Definition float_ascii (text : pystr) : result spec_float :=
  let '(neg, t) := read_sign (strip text) in
  let low := ascii_lower <$> t in
  if bool_decide (low = py "inf") || bool_decide (low = py "infinity")
  then Ok (S754_infinity neg)
  else if bool_decide (low = py "nan") then Ok S754_nan
  else
    let '(ip, r1) := digitpart t in
    let '(fp, r2) :=
      match r1 with
      | c :: r => if (c =? 46)%N then digitpart r else ([], r1)
      | [] => ([], [])
      end in
    if match ip, fp with
       | [], [] => true
       | _, _ => false
       end
    then Raise ValueError
    else
      match read_exponent r2 with
      | Some e =>
          Ok (binary64_of_decimal neg (int_of_digits (ip ++ fp))
                (e - Z.of_nat (length fp)))
      | None => Raise ValueError
      end.

(** ** Step 2: loading and normalising *)

Section parse_coca_rank.
(** The builtin [float] on a [str]. *)
Context (py_float : pystr → result spec_float).

Definition parse_coca_rank (value : option pystr) : result (option Z) :=
  match value with
  | None => Ok None
  | Some v =>
      let s := strip v in
      if negb (truthy s) then Ok None
      else
        match (x ← py_float s; py_int_of_float x) with
        | Raise ValueError => Ok None
        | Raise e => Raise e
        | Ok n => Ok (if 0 <? n then Some n else None)
        end
  end.

End parse_coca_rank.

(** *** The headword dictionary *)

Definition merge_kaj_word (old new : KajWord) : KajWord :=
  let meaning :=
    if (length (kaj_meaning new) <=? length (kaj_meaning old))%nat
    then kaj_meaning old else kaj_meaning new in
  let pos := str_or (kaj_pos old) (kaj_pos new) in
  {| kaj_meaning := meaning; kaj_pos := pos |}.

Section load_kajweb_toefl.
(** The decoded JSON objects, and [parse_kaj_entry] on them: a pair, [None]
    for an object without a valid headword, or the exception it raises, as
    on an object whose [content] is not a [dict]. *)
Context {Obj : Type}
        (parse_kaj_entry : Obj → result (option (pystr * KajWord))).

(** One turn of the loading loop. *)
Definition kaj_step (kaj_map : gmap pystr KajWord) (obj : Obj)
    : result (gmap pystr KajWord) :=
  parsed ← parse_kaj_entry obj;
  match parsed with
  | None => Ok kaj_map
  | Some (w, info) =>
      match kaj_map !! w with
      | Some old => Ok (<[w := merge_kaj_word old info]> kaj_map)
      | None => Ok (<[w := info]> kaj_map)
      end
  end.

Fixpoint load_kajweb_from (kaj_map : gmap pystr KajWord) (objs : list Obj)
    : result (gmap pystr KajWord) :=
  match objs with
  | [] => Ok kaj_map
  | obj :: objs' =>
      m ← kaj_step kaj_map obj; load_kajweb_from m objs'
  end.

(** The loader, on the objects of the candidate files in reading order. *)
Definition load_kajweb_toefl (objs : list Obj)
    : result (gmap pystr KajWord) :=
  load_kajweb_from ∅ objs.

End load_kajweb_toefl.

(** *** The frequency dictionary *)

(** A row of the CSV: the [word] cell, and the cells of the optional
    columns. *)
Record EcdictRow := mkEcdictRow {
  row_word : pystr;
  row_phonetic : option pystr;
  row_translation : option pystr;
  row_pos : option pystr;
  row_tag : option pystr;
  row_frq : option pystr
}.

(** [str(row.get(column, ""))] *)
Definition cell (c : option pystr) : pystr := default [] c.

(** The merge of a repeated word: lines 395 to 404 of the loader, which
    update the stored record in place. *)
Definition merge_ecdict_word (old info : ECDictWord) : ECDictWord :=
  {| phonetic :=
       if negb (truthy (phonetic old)) && truthy (phonetic info)
       then phonetic info else phonetic old;
     pos :=
       if negb (truthy (pos old)) && truthy (pos info)
       then pos info else pos old;
     coca_rank :=
       match coca_rank old, coca_rank info with
       | None, Some r => Some r
       | _, _ => coca_rank old
       end;
     tags := tags old ∪ tags info;
     meaning :=
       if negb (truthy (meaning old)) && truthy (meaning info)
       then meaning info else meaning old |}.

Section load_ecdict.
(** The builtin [float], and the text normalisers of the loader, which
    are regular-expression clean-ups of single cells. *)
Context (py_float : pystr → result spec_float)
        (normalize_word : pystr → pystr) (WORD_RE : pystr → bool)
        (normalize_phonetic normalize_pos clean_ecdict_translation
           : pystr → pystr)
        (parse_ecdict_tags : pystr → gset pystr).

Definition row_info (row : EcdictRow) : result ECDictWord :=
  rank ← parse_coca_rank py_float (row_frq row);
  Ok {| phonetic := normalize_phonetic (cell (row_phonetic row));
        pos := normalize_pos (cell (row_pos row));
        coca_rank := rank;
        tags := parse_ecdict_tags (cell (row_tag row));
        meaning := clean_ecdict_translation (cell (row_translation row)) |}.

(** One turn of the loading loop. *)
Definition ecdict_step (ecdict_map : gmap pystr ECDictWord) (row : EcdictRow)
    : result (gmap pystr ECDictWord) :=
  let word := normalize_word (row_word row) in
  if negb (WORD_RE word) then Ok ecdict_map
  else
    info ← row_info row;
    match ecdict_map !! word with
    | None => Ok (<[word := info]> ecdict_map)
    | Some old => Ok (<[word := merge_ecdict_word old info]> ecdict_map)
    end.

Fixpoint load_ecdict_from (ecdict_map : gmap pystr ECDictWord)
    (rows : list EcdictRow) : result (gmap pystr ECDictWord) :=
  match rows with
  | [] => Ok ecdict_map
  | row :: rows' =>
      m ← ecdict_step ecdict_map row; load_ecdict_from m rows'
  end.

Definition load_ecdict (rows : list EcdictRow)
    : result (gmap pystr ECDictWord) :=
  load_ecdict_from ∅ rows.

End load_ecdict.

(** ** Step 3/4: the layers *)

Definition rank_of (word : pystr) (ecdict : gmap pystr ECDictWord) : option Z :=
  match ecdict !! word with
  | Some info => coca_rank info
  | None => None
  end.

(** [a < b] on two [str]: lexicographic on code points. *)
Fixpoint str_ltb (a b : pystr) : bool :=
  match a, b with
  | _, [] => false
  | [], _ :: _ => true
  | x :: a', y :: b' => (x <? y)%N || (x =? y)%N && str_ltb a' b'
  end.

(** The sort key of a word. *)
Definition key (ecdict : gmap pystr ECDictWord) (w : pystr) : Z * Z * pystr :=
  match rank_of w ecdict with
  | None => (1, 10 ^ 9, w)
  | Some rank => (0, rank, w)
  end.

(** [k1 < k2] on two key tuples. *)
Definition key_ltb (k1 k2 : Z * Z * pystr) : bool :=
  let '(a1, b1, c1) := k1 in
  let '(a2, b2, c2) := k2 in
  (a1 <? a2) || (a1 =? a2) && ((b1 <? b2) || (b1 =? b2) && str_ltb c1 c2).

(** [sorted] compares with [<] only and is stable: a later element moves in
    front of an earlier one only when its key is smaller.  [rank_le w1 w2]
    says that [w2] does not move in front of [w1]. *)
Definition rank_le (ecdict : gmap pystr ECDictWord) (w1 w2 : pystr) : Prop :=
  key_ltb (key ecdict w2) (key ecdict w1) = false.

#[global] Instance rank_le_dec ecdict : RelDecision (rank_le ecdict).
Proof. intros w1 w2. unfold rank_le. apply _. Defined.

(** [sorted(set(words), key=key)]; the set is walked in the order of
    [elements]. *)
Definition sort_words_by_rank (words : list pystr)
    (ecdict : gmap pystr ECDictWord) : list pystr :=
  merge_sort (rank_le ecdict) (elements (list_to_set words : gset pystr)).

(** The order of the specification, in its words: a known rank before an
    unknown one; known ranks ascending, lexical order on equal ranks; unknown
    ranks in lexical order. *)
Definition spec_before (ecdict : gmap pystr ECDictWord) (w1 w2 : pystr) : Prop :=
  match rank_of w1 ecdict, rank_of w2 ecdict with
  | Some r1, Some r2 => r1 < r2 ∨ (r1 = r2 ∧ str_ltb w1 w2 = true)
  | Some _, None => True
  | None, Some _ => False
  | None, None => str_ltb w1 w2 = true
  end.

Record Layers := mkLayers {
  layer_a : gset pystr;
  layer_b : gset pystr;
  core : gset pystr;
  layer_c : gset pystr;
  layer_d : gset pystr;
  layer_e : gset pystr;
  full : gset pystr
}.

(** The test of the first loop: [r is not None and r <= core_coca_max]. *)
Definition in_core_band (ecdict_map : gmap pystr ECDictWord)
    (core_coca_max : Z) (w : pystr) : bool :=
  match rank_of w ecdict_map with
  | Some r => bool_decide (r ≤ core_coca_max)
  | None => false
  end.

(** The test of the second loop, without its [w not in core] conjunct:
    [r is not None and core_coca_max < r <= full_coca_max]. *)
Definition in_full_band (ecdict_map : gmap pystr ECDictWord)
    (core_coca_max full_coca_max : Z) (w : pystr) : bool :=
  match rank_of w ecdict_map with
  | Some r => bool_decide (core_coca_max < r) && bool_decide (r ≤ full_coca_max)
  | None => false
  end.

(** The exam tag looked for in the frequency source. *)
Definition exam_tag : pystr := py "toefl".

Definition build_layers
    (kaj_map : gmap pystr KajWord)
    (ecdict_map : gmap pystr ECDictWord)
    (xiaolai_tags : gmap pystr (gset pystr))
    (awl_words : gset pystr)
    (core_coca_max full_coca_max : Z) : Layers :=
  let kaj_words : gset pystr := dom kaj_map in
  let layer_a : gset pystr :=
    filter (λ w, Is_true (in_core_band ecdict_map core_coca_max w)) kaj_words in
  let layer_b := kaj_words ∩ awl_words in
  let core := layer_a ∪ layer_b in
  let layer_c : gset pystr :=
    filter (λ w, Is_true (in_full_band ecdict_map core_coca_max full_coca_max w)
                 ∧ w ∉ core) kaj_words in
  let layer_d := dom xiaolai_tags ∖ core ∖ layer_c in
  let occupied := core ∪ layer_c ∪ layer_d in
  let layer_e : gset pystr :=
    dom (filter (λ kv : pystr * ECDictWord,
                   kv.1 ∉ occupied ∧ exam_tag ∈ tags kv.2) ecdict_map) in
  let full := core ∪ layer_c ∪ layer_d ∪ layer_e in
  {| layer_a := layer_a; layer_b := layer_b; core := core;
     layer_c := layer_c; layer_d := layer_d; layer_e := layer_e;
     full := full |}.

(** ** Step 5/6: entries *)

Definition choose_meaning (word : pystr) (kaj_map : gmap pystr KajWord)
    (ecdict_map : gmap pystr ECDictWord) : pystr :=
  let from_ecd :=
    match ecdict_map !! word with
    | Some ecd => if truthy (meaning ecd) then meaning ecd else []
    | None => []
    end in
  match kaj_map !! word with
  | Some kaj => if truthy (kaj_meaning kaj) then kaj_meaning kaj else from_ecd
  | None => from_ecd
  end.

Definition choose_pos (normalize_pos : pystr → pystr) (word : pystr)
    (kaj_map : gmap pystr KajWord) (ecdict_map : gmap pystr ECDictWord)
    : pystr :=
  let from_kaj :=
    match kaj_map !! word with
    | Some kaj => if truthy (kaj_pos kaj) then normalize_pos (kaj_pos kaj) else []
    | None => []
    end in
  match ecdict_map !! word with
  | Some ecd => if truthy (pos ecd) then pos ecd else from_kaj
  | None => from_kaj
  end.

(** Order-preserving removal of repeats, first occurrence kept: the loop
    over a list with a [seen] set. *)
Fixpoint dedup_from (seen : gset pystr) (l : list pystr) : list pystr :=
  match l with
  | [] => []
  | t :: l' =>
      if decide (t ∈ seen) then dedup_from seen l'
      else t :: dedup_from ({[t]} ∪ seen) l'
  end.

Definition str_le (a b : pystr) : Prop := str_ltb b a = false.

#[global] Instance str_le_dec : RelDecision str_le.
Proof. intros a b. unfold str_le. apply _. Defined.

Definition build_tags (word : pystr) (awl_words : gset pystr)
    (xiaolai_tags : gmap pystr (gset pystr))
    (ecdict_map : gmap pystr ECDictWord) : list pystr :=
  let tags0 :=
    if decide (word ∈ awl_words)
    then [py "AWL"; [23398; 26415; 36890; 29992]%N] else [] in
  let tags1 :=
    foldl (λ acc t, if decide (t ∈ acc) then acc else acc ++ [t]) tags0
          (merge_sort str_le (elements (default ∅ (xiaolai_tags !! word)))) in
  let tags2 :=
    match ecdict_map !! word with
    | Some ecd =>
        tags1 ++ (if decide (py "cet4" ∈ tags ecd) then [py "CET4"] else [])
              ++ (if decide (py "cet6" ∈ tags ecd) then [py "CET6"] else [])
    | None => tags1
    end in
  dedup_from ∅ tags2.

(** The decimal digits of [n], most significant first, in front of [acc];
    [fuel] bounds the number of digits. *)
Fixpoint digits_from (fuel : nat) (n : Z) (acc : pystr) : pystr :=
  match fuel with
  | O => acc
  | S fuel' =>
      let acc' := Z.to_N (48 + n mod 10) :: acc in
      if n <? 10 then acc' else digits_from fuel' (n / 10) acc'
  end.

(** [str(n)] on an [int]. *)
Definition py_str (n : Z) : pystr :=
  let digits m := digits_from (S (Z.to_nat (Z.log2 m))) m [] in
  if n <? 0 then 45%N :: digits (- n) else digits n.

(** [f"{n:0{width}d}"]: sign first, then zeros up to the width. *)
Definition format_0d (width : nat) (n : Z) : pystr :=
  if n <? 0 then
    let d := py_str (- n) in
    45%N :: replicate (width - 1 - length d) 48%N ++ d
  else
    let d := py_str n in
    replicate (width - length d) 48%N ++ d.

(** The number a text of ASCII digits denotes. *)
Definition decimal_value (t : pystr) : option Z :=
  int_of_digits <$> mapM digit_of t.

Record Entry := mkEntry {
  entry_id : pystr;
  entry_word : pystr;
  entry_phonetic : pystr;
  entry_meaning : pystr;
  entry_pos : pystr;
  entry_coca_rank : option Z;
  entry_tier : pystr;
  entry_tags : list pystr;
  entry_example : pystr
}.

Section make_entries.
(** [normalize_pos], a regular-expression clean-up of one cell. *)
Context (normalize_pos : pystr → pystr).
Context (tier_by_word : gmap pystr pystr)
        (kaj_map : gmap pystr KajWord) (ecdict_map : gmap pystr ECDictWord)
        (awl_words : gset pystr) (xiaolai_tags : gmap pystr (gset pystr)).

(** The loop over [enumerate(words, start=idx)]. *)
Fixpoint make_entries_from (idx : Z) (width : nat) (words : list pystr)
    : result (list Entry) :=
  match words with
  | [] => Ok []
  | w :: words' =>
      let ecd := ecdict_map !! w in
      match tier_by_word !! w with
      | None => Raise KeyError
      | Some tier =>
          let entry :=
            {| entry_id := py "toefl_" ++ format_0d width idx;
               entry_word := w;
               entry_phonetic := from_option phonetic [] ecd;
               entry_meaning := choose_meaning w kaj_map ecdict_map;
               entry_pos := choose_pos normalize_pos w kaj_map ecdict_map;
               entry_coca_rank := ecd ≫= coca_rank;
               entry_tier := tier;
               entry_tags := build_tags w awl_words xiaolai_tags ecdict_map;
               entry_example := [] |} in
          rest ← make_entries_from (idx + 1) width words';
          Ok (entry :: rest)
      end
  end.

Definition make_entries (words_ordered : list pystr) : result (list Entry) :=
  let width :=
    Nat.max 4 (length (py_str (Z.of_nat (length words_ordered)))) in
  make_entries_from 1 width words_ordered.

End make_entries.

Definition calc_ratio (numerator denominator : Z) : result spec_float :=
  if denominator <=? 0 then Ok (S754_zero false)
  else py_truediv numerator denominator.

(** The figures [write_stats] prints: the counts, and for each list the
    covered entries, the list length and their ratio. *)
Record Stats := mkStats {
  core_total : Z;
  stat_layer_a : Z;
  stat_layer_b : Z;
  full_total : Z;
  stat_layer_c : Z;
  stat_layer_d : Z;
  stat_layer_e : Z;
  core_phonetic_coverage : Z * Z * spec_float;
  core_coca_coverage : Z * Z * spec_float;
  core_awl_overlap : Z;
  full_phonetic_coverage : Z * Z * spec_float;
  full_coca_coverage : Z * Z * spec_float;
  full_awl_overlap : Z;
  subject_counter : gmap pystr Z
}.

(** [sum(1 for e in entries if test(e))] *)
Definition count_entries (test : Entry → bool) (entries : list Entry) : Z :=
  Z.of_nat (length (filter (λ e, Is_true (test e)) entries)).

Definition has_rank (e : Entry) : bool :=
  match entry_coca_rank e with Some _ => true | None => false end.

Definition write_stats (layers : Layers) (core_entries full_entries : list Entry)
    (xiaolai_tags : gmap pystr (gset pystr)) (awl_words : gset pystr)
    : result Stats :=
  let core_count := Z.of_nat (length core_entries) in
  let full_count := Z.of_nat (length full_entries) in
  let core_with_phonetic :=
    count_entries (λ e, truthy (entry_phonetic e)) core_entries in
  let core_with_rank := count_entries has_rank core_entries in
  let full_with_phonetic :=
    count_entries (λ e, truthy (entry_phonetic e)) full_entries in
  let full_with_rank := count_entries has_rank full_entries in
  let awl_overlap_core := Z.of_nat (size (core layers ∩ awl_words)) in
  let awl_overlap_full := Z.of_nat (size (full layers ∩ awl_words)) in
  let subject_counter : gmap pystr Z :=
    set_fold (λ word acc,
                set_fold (λ tag acc', <[tag := default 0 (acc' !! tag) + 1]> acc')
                         acc (default ∅ (xiaolai_tags !! word)))
             ∅ (full layers) in
  r1 ← calc_ratio core_with_phonetic core_count;
  r2 ← calc_ratio core_with_rank core_count;
  r3 ← calc_ratio full_with_phonetic full_count;
  r4 ← calc_ratio full_with_rank full_count;
  Ok {| core_total := core_count;
        stat_layer_a := Z.of_nat (size (layer_a layers));
        stat_layer_b := Z.of_nat (size (layer_b layers));
        full_total := full_count;
        stat_layer_c := Z.of_nat (size (layer_c layers));
        stat_layer_d := Z.of_nat (size (layer_d layers));
        stat_layer_e := Z.of_nat (size (layer_e layers));
        core_phonetic_coverage := (core_with_phonetic, core_count, r1);
        core_coca_coverage := (core_with_rank, core_count, r2);
        core_awl_overlap := awl_overlap_core;
        full_phonetic_coverage := (full_with_phonetic, full_count, r3);
        full_coca_coverage := (full_with_rank, full_count, r4);
        full_awl_overlap := awl_overlap_full;
        subject_counter := subject_counter |}.

(** ** The main flow *)

(** [d.setdefault(w, v)] *)
Definition setdefault (w v : pystr) (d : gmap pystr pystr) : gmap pystr pystr :=
  match d !! w with
  | Some _ => d
  | None => <[w := v]> d
  end.

(** Everything [main] computes between loading and writing. *)
Record Assembly := mkAssembly {
  asm_layers : Layers;
  tier_full : gmap pystr pystr;
  tier_core : gmap pystr pystr;
  core_order : list pystr;
  full_order : list pystr;
  core_entries : result (list Entry);
  full_entries : result (list Entry)
}.

Definition assemble (normalize_pos : pystr → pystr)
    (kaj_map : gmap pystr KajWord) (ecdict_map : gmap pystr ECDictWord)
    (xiaolai_tags : gmap pystr (gset pystr)) (awl_words : gset pystr)
    (core_coca_max full_coca_max : Z) : Assembly :=
  let layers := build_layers kaj_map ecdict_map xiaolai_tags awl_words
                             core_coca_max full_coca_max in
  let tier_full : gmap pystr pystr :=
    set_fold (λ w d, <[w := py "core"]> d) ∅ (core layers) in
  let tier_full := set_fold (λ w d, setdefault w (py "extended") d)
                            tier_full (layer_c layers) in
  let tier_full := set_fold (λ w d, setdefault w (py "subject") d)
                            tier_full (layer_d layers) in
  let tier_full := set_fold (λ w d, setdefault w (py "supplementary") d)
                            tier_full (layer_e layers) in
  let tier_core : gmap pystr pystr := gset_to_gmap (py "core") (core layers) in
  let core_order := sort_words_by_rank (elements (core layers)) ecdict_map in
  let full_order :=
    core_order
      ++ sort_words_by_rank (elements (layer_c layers)) ecdict_map
      ++ sort_words_by_rank (elements (layer_d layers)) ecdict_map
      ++ sort_words_by_rank (elements (layer_e layers)) ecdict_map in
  let full_order := dedup_from ∅ full_order in
  {| asm_layers := layers;
     tier_full := tier_full;
     tier_core := tier_core;
     core_order := core_order;
     full_order := full_order;
     core_entries :=
       make_entries normalize_pos tier_core kaj_map ecdict_map awl_words
                    xiaolai_tags core_order;
     full_entries :=
       make_entries normalize_pos tier_full kaj_map ecdict_map awl_words
                    xiaolai_tags full_order |}.

(** The tier of a word in the specification's words: the first of core,
    extended, subject, supplementary whose layer holds the word. *)
Definition first_tier (layers : Layers) (w : pystr) : option pystr :=
  if decide (w ∈ core layers) then Some (py "core")
  else if decide (w ∈ layer_c layers) then Some (py "extended")
  else if decide (w ∈ layer_d layers) then Some (py "subject")
  else if decide (w ∈ layer_e layers) then Some (py "supplementary")
  else None.

Record Args := mkArgs {
  args_download : bool;
  args_core_coca_max : Z;
  args_full_coca_max : Z;
  args_output_dir : pystr
}.

(** The messages [main] logs. *)
Inductive log_msg :=
  | Step2 | Step3 | Step4 | Step5 | Step6
  | DoneCounts (n_core n_full : Z) | DoneDir.

(** What a run does to the outside, in order. *)
Inductive event :=
  | Log (msg : log_msg)
  | DownloadSources
  | AssertSourcesExist
  | LoadKajweb
  | LoadEcdict
  | LoadXiaolai
  | LoadAwl
  | WriteCoreJson (data : list Entry)
  | WriteFullJson (data : list Entry)
  | WriteStats (stats : Stats).

(** What the outside answers: each read hands over the source's content, or
    raises. *)
Record World (Obj : Type) := mkWorld {
  on_download : result ();
  on_assert_sources : result ();
  kaj_objects : result (list Obj);
  ecdict_rows : result (list EcdictRow);
  xiaolai_source : result (gmap pystr (gset pystr));
  awl_source : result (gset pystr);
  on_write_core : result ();
  on_write_full : result ();
  on_write_stats : result ()
}.
Arguments on_download {Obj} _.
Arguments on_assert_sources {Obj} _.
Arguments kaj_objects {Obj} _.
Arguments ecdict_rows {Obj} _.
Arguments xiaolai_source {Obj} _.
Arguments awl_source {Obj} _.
Arguments on_write_core {Obj} _.
Arguments on_write_full {Obj} _.
Arguments on_write_stats {Obj} _.

(** A run: the events so far, and the value or the exception raised. *)
Definition Run (A : Type) : Type := list event * result A.

#[global] Instance Run_ret : MRet Run := λ A a, ([], Ok a).
#[global] Instance Run_bind : MBind Run := λ A B f m,
  match m with
  | (t, Ok a) => let '(t', r) := f a in (t ++ t', r)
  | (t, Raise e) => (t, Raise e)
  end.

Definition call {A} (ev : event) (answer : result A) : Run A := ([ev], answer).
Definition raise {A} (e : exn) : Run A := ([], Raise e).
Definition compute {A} (r : result A) : Run A := ([], r).

Section main.
Context {Obj : Type}
        (parse_kaj_entry : Obj → result (option (pystr * KajWord))).
Context (py_float : pystr → result spec_float)
        (normalize_word : pystr → pystr) (WORD_RE : pystr → bool)
        (normalize_phonetic normalize_pos clean_ecdict_translation
           : pystr → pystr)
        (parse_ecdict_tags : pystr → gset pystr).

Definition main (args : Args) (world : World Obj) : Run Z :=
  if (args_core_coca_max args <=? 0) || (args_full_coca_max args <=? 0)
  then raise ValueError
  else if args_full_coca_max args <? args_core_coca_max args
  then raise ValueError
  else
    _ ← (if args_download args
         then call DownloadSources (on_download world)
         else (mret () : Run ()));
    _ ← call AssertSourcesExist (on_assert_sources world);
    _ ← call (Log Step2) (Ok ());
    kaj_map ← call LoadKajweb
      (objs ← kaj_objects world; load_kajweb_toefl parse_kaj_entry objs);
    ecdict_map ← call LoadEcdict
      (rows ← ecdict_rows world;
       load_ecdict py_float normalize_word WORD_RE normalize_phonetic
                   normalize_pos clean_ecdict_translation parse_ecdict_tags
                   rows);
    xiaolai_tags ← call LoadXiaolai (xiaolai_source world);
    awl_words ← call LoadAwl (awl_source world);
    _ ← call (Log Step3) (Ok ());
    _ ← call (Log Step4) (Ok ());
    let a := assemble normalize_pos kaj_map ecdict_map xiaolai_tags awl_words
                      (args_core_coca_max args) (args_full_coca_max args) in
    _ ← call (Log Step5) (Ok ());
    core_entries ← compute (core_entries a);
    full_entries ← compute (full_entries a);
    _ ← call (Log Step6) (Ok ());
    _ ← call (WriteCoreJson core_entries) (on_write_core world);
    _ ← call (WriteFullJson full_entries) (on_write_full world);
    stats ← compute (write_stats (asm_layers a) core_entries full_entries
                                 xiaolai_tags awl_words);
    _ ← call (WriteStats stats) (on_write_stats world);
    _ ← call (Log (DoneCounts (Z.of_nat (length core_entries))
                              (Z.of_nat (length full_entries)))) (Ok ());
    _ ← call (Log DoneDir) (Ok ());
    (mret 0 : Run Z).

End main.

(** The spec's reading of a word carrying the exam tag in the frequency
    source. *)
Definition exam_tagged (ecdict_map : gmap pystr ECDictWord) (w : pystr) : Prop :=
  ∃ info, ecdict_map !! w = Some info ∧ exam_tag ∈ tags info.

(** The spec's reading of a word with a known frequency rank: the record of
    the word in the frequency source carries that rank. *)
Definition known_rank (ecdict_map : gmap pystr ECDictWord) (w : pystr)
    (r : Z) : Prop :=
  ∃ info, ecdict_map !! w = Some info ∧ coca_rank info = Some r.

(** ** The scenario of the specification: two headwords, one of them ranked *)

Definition ex_kaj : gmap pystr KajWord :=
  <[py "abate" := mkKajWord [20943; 24369]%N []]>
    {[py "zephyr" := mkKajWord [21644; 39118]%N []]}.

Definition ex_ecdict : gmap pystr ECDictWord :=
  <[py "abate" := mkECDictWord [] [] (Some 4200) ∅ []]>
    {[py "zephyr" := mkECDictWord [] [] None ∅ []]}.

Definition ex_awl : gset pystr := {[py "zephyr"]}.

(** The same headwords, with the ranked one also in the academic list. *)
Definition ex_awl_both : gset pystr := {[py "abate"; py "zephyr"]}.

(** The tier labels and the core entries of the scenario. *)
Definition ex_tier : gmap pystr pystr :=
  <[py "abate" := py "core"]> {[py "zephyr" := py "core"]}.

Definition ex_core_entries : list Entry :=
  Eval vm_compute in
    match make_entries id ex_tier ex_kaj ex_ecdict ex_awl ∅
                       [py "abate"; py "zephyr"] with
    | Ok entries => entries
    | Raise _ => []
    end.

(** A world in which every source is present and empty. *)
Definition ex_world : World () :=
  {| on_download := Ok ();
     on_assert_sources := Ok ();
     kaj_objects := Ok [];
     ecdict_rows := Ok [];
     xiaolai_source := Ok ∅;
     awl_source := Ok ∅;
     on_write_core := Ok ();
     on_write_full := Ok ();
     on_write_stats := Ok () |}.

(** Two frequency rows for one word, and three headword records for two
    words. *)
Definition ex_rows : list EcdictRow :=
  [mkEcdictRow (py "abate") None None None (Some (py "toefl")) (Some (py "0"));
   mkEcdictRow (py "abate") None None None (Some (py "cet4"))
               (Some (py "4200"));
   mkEcdictRow (py "abate") None None None None (Some (py "17"))].

Definition ex_objs : list (pystr * KajWord) :=
  [(py "abate", mkKajWord [20943]%N []);
   (py "zephyr", mkKajWord [21644; 39118]%N (py "n"));
   (py "abate", mkKajWord [20943; 24369]%N (py "v"))].

(** A world whose sources hold the rows and the records above, with one of
    the two headwords in the academic list. *)
Definition ex_world_loaded : World (pystr * KajWord) :=
  {| on_download := Ok ();
     on_assert_sources := Ok ();
     kaj_objects := Ok ex_objs;
     ecdict_rows := Ok ex_rows;
     xiaolai_source := Ok ∅;
     awl_source := Ok ex_awl;
     on_write_core := Ok ();
     on_write_full := Ok ();
     on_write_stats := Ok () |}.

(** A parser that raises on an object without a record, as
    [parse_kaj_entry] does on one whose [content] is [null], and a world
    whose headword source holds such an object. *)
Definition ex_parse (obj : option (pystr * KajWord))
    : result (option (pystr * KajWord)) :=
  match obj with
  | Some entry => Ok (Some entry)
  | None => Raise AttributeError
  end.

Definition ex_world_broken : World (option (pystr * KajWord)) :=
  {| on_download := Ok ();
     on_assert_sources := Ok ();
     kaj_objects := Ok [Some (py "abate", mkKajWord [20943]%N []); None];
     ecdict_rows := Ok ex_rows;
     xiaolai_source := Ok ∅;
     awl_source := Ok ex_awl;
     on_write_core := Ok ();
     on_write_full := Ok ();
     on_write_stats := Ok () |}.

(** The events that write an output. *)
Definition is_write (ev : event) : bool :=
  match ev with
  | WriteCoreJson _ | WriteFullJson _ | WriteStats _ => true
  | _ => false
  end.

(** ** Text normalisation

    The functions the loaders above take as arguments, as the program has
    them.  A regular expression is given as the function that reads a text
    the way the expression matches it; [str.lower] stays an argument. *)

(** [text.replace("\r", " ").replace("\n", " ")], on one code point. *)
Definition unbreak (c : N) : N :=
  if ((c =? 13) || (c =? 10))%N then 32%N else c.

(** [re.sub(r"\s+", " ", text)]: every maximal run of whitespace becomes one
    space.  [in_run] tells that the code point before was whitespace. *)
Fixpoint squeeze (in_run : bool) (t : pystr) : pystr :=
  match t with
  | [] => []
  | c :: t' =>
      if is_space c then
        if in_run then squeeze true t' else 32%N :: squeeze true t'
      else c :: squeeze false t'
  end.

Definition clean_text (text : pystr) : pystr :=
  squeeze false (strip (unbreak <$> text)).

(** [t.startswith(pre)] and [t.endswith(suf)]. *)
Fixpoint startswith (t pre : pystr) {struct pre} : bool :=
  match pre, t with
  | [], _ => true
  | p :: pre', c :: t' => (c =? p)%N && startswith t' pre'
  | _ :: _, [] => false
  end.

Definition endswith (t suf : pystr) : bool :=
  startswith (reverse t) (reverse suf).

Definition normalize_phonetic (phonetic : pystr) : pystr :=
  let phonetic := clean_text phonetic in
  if negb (truthy phonetic) then []
  else if startswith phonetic (py "/") && endswith phonetic (py "/")
       then phonetic
       else py "/" ++ phonetic ++ py "/".

(** The class [[\s/;,，]] of the part-of-speech separators. *)
Definition is_pos_sep (c : N) : bool :=
  (is_space c || (c =? 47) || (c =? 59) || (c =? 44) || (c =? 65292))%N.

(** [re.split(sep+, t)[0]]: the text in front of the first separator. *)
Fixpoint first_field (sep : N → bool) (t : pystr) : pystr :=
  match t with
  | [] => []
  | c :: t' => if sep c then [] else c :: first_field sep t'
  end.

(** [t.lstrip(chars)] and [t.strip(chars)]. *)
Fixpoint lstrip_chars (chars t : pystr) : pystr :=
  match t with
  | c :: t' => if bool_decide (c ∈ chars) then lstrip_chars chars t' else t
  | [] => []
  end.

Definition strip_chars (chars t : pystr) : pystr :=
  reverse (lstrip_chars chars (reverse (lstrip_chars chars t))).

Definition normalize_pos (pos : pystr) : pystr :=
  let pos := clean_text pos in
  if negb (truthy pos) then []
  else
    let token := strip_chars (py ".") (first_field is_pos_sep pos) in
    if negb (truthy token) then [] else token ++ py ".".

(** The normal form [clean_text] brings a text to: whitespace is the single
    space only, never twice in a row ([after_space] tells that the code
    point before was one) and never at either end. *)
Fixpoint single_spaced (after_space : bool) (t : pystr) : bool :=
  match t with
  | [] => true
  | c :: t' =>
      if is_space c
      then (c =? 32)%N && negb after_space && single_spaced true t'
      else single_spaced false t'
  end.

Definition no_space_at (c : option N) : bool :=
  match c with Some c => negb (is_space c) | None => true end.

Definition tidy (t : pystr) : bool :=
  single_spaced false t && no_space_at (head t) && no_space_at (last t).

(** ** Words *)

Section normalize_word.
(** [str.lower]. *)
Context (py_lower : pystr → pystr).

Definition normalize_word (word : pystr) : pystr := py_lower (strip word).

End normalize_word.

Definition is_lower_az (c : N) : bool := ((97 <=? c) && (c <=? 122))%N.

(** The class [[a-z'\-]]. *)
Definition is_word_tail (c : N) : bool :=
  (is_lower_az c || (c =? 39) || (c =? 45))%N.

(** [WORD_RE.match(word)] finds a match, for the pattern
    [^[a-z][a-z'\-]{1,30}$]: one letter, then one to thirty code points of the
    class, up to the end of the text; the [$] also matches in front of a line
    feed that ends the text. *)
Definition WORD_RE (word : pystr) : bool :=
  match word with
  | c :: rest =>
      let tail_ok (r : pystr) :=
        (1 <=? length r)%nat && (length r <=? 30)%nat
        && forallb is_word_tail r in
      is_lower_az c
      && (tail_ok rest
          || match reverse rest with
             | nl :: r => (nl =? 10)%N && tail_ok (reverse r)
             | [] => false
             end)
  | [] => false
  end.

(** ** Subject labels *)

(** [k in key] on two [str]s. *)
Fixpoint contains (key k : pystr) : bool :=
  startswith key k
  || match key with
     | [] => false
     | _ :: key' => contains key' k
     end.

(** The keywords and their labels, in the order of the [dict] display. *)
Definition SUBJECT_KEYWORDS : list (pystr * pystr) :=
  [(py "astronomy", [22825; 25991]); (py "geo", [22320; 36136]);
   (py "geology", [22320; 36136]); (py "ecology", [29983; 24577]);
   (py "environment", [29615; 22659]); (py "biology", [29983; 29289]);
   (py "chemistry", [21270; 23398]); (py "physics", [29289; 29702]);
   (py "medicine", [21307; 23398]); (py "history", [21382; 21490]);
   (py "anthropology", [20154; 31867; 23398]);
   (py "archaeology", [32771; 21476]);
   (py "sociology", [31038; 20250; 23398]);
   (py "psychology", [24515; 29702; 23398]);
   (py "economics", [32463; 27982]); (py "politics", [25919; 27835]);
   (py "law", [27861; 24459]); (py "education", [25945; 32946]);
   (py "linguistics", [35821; 35328; 23398]); (py "ocean", [28023; 27915]);
   (py "geography", [22320; 29702]); (py "agriculture", [20892; 19994]);
   (py "humanities", [20154; 25991])]%N.

Section infer_subject_from_path.
Context (py_lower : pystr → pystr).

(** The function reads two texts off its argument: [path.parent.name] and
    [path.stem]. *)
Definition infer_subject_from_path (parent_name stem : pystr) : pystr :=
  let key := py_lower (parent_name ++ py " " ++ stem) in
  match List.find (λ kv, contains key kv.1) SUBJECT_KEYWORDS with
  | Some (_, v) => v
  | None => [23398; 26415; 19987; 39064]%N
  end.

End infer_subject_from_path.

(** The first non-empty text of a list, the empty text when there is none. *)
Definition first_truthy (l : list pystr) : pystr :=
  default [] (head (filter (λ t, truthy t = true) l)).

(** Three frequency rows for one word, with their texts. *)
Definition ex_text_rows : list EcdictRow :=
  [mkEcdictRow (py " Abate") None (Some (py "to  lessen"))
               (Some (py " ")) None None;
   mkEcdictRow (py "abate") (Some (py "e'beit")) None
               (Some (py "vt.& vi.")) (Some (py "zk/gk TOEFL"))
               (Some (py "4200"));
   mkEcdictRow (py "ABATE") (Some (py "/x/")) (Some (py "to end"))
               (Some (py "n")) None None].

(** ** The academic word list *)

(** The line boundaries of [str.splitlines]. *)
Definition is_linebreak (c : N) : bool :=
  ((10 <=? c) && (c <=? 13) || (28 <=? c) && (c <=? 30) || (c =? 133)
   || (c =? 8232) || (c =? 8233))%N.

(** [text.splitlines()]; [cur] holds the line in progress, last code point
    first.  A carriage return and the line feed after it are one boundary,
    and a boundary that ends the text opens no further line. *)
Fixpoint splitlines_from (cur : pystr) (text : pystr) : list pystr :=
  match text with
  | [] => match cur with [] => [] | _ :: _ => [reverse cur] end
  | c :: text' =>
      if is_linebreak c then
        reverse cur
        :: match text' with
           | c' :: text'' =>
               if ((c =? 13) && (c' =? 10))%N then splitlines_from [] text''
               else splitlines_from [] text'
           | [] => []
           end
      else splitlines_from (c :: cur) text'
  end.

Definition splitlines (text : pystr) : list pystr := splitlines_from [] text.

(** [sep.join(parts)]. *)
Fixpoint join (sep : pystr) (parts : list pystr) : pystr :=
  match parts with
  | [] => []
  | [p] => p
  | p :: parts' => p ++ sep ++ join sep parts'
  end.

Definition is_letter (c : N) : bool :=
  ((65 <=? c) && (c <=? 90) || (97 <=? c) && (c <=? 122))%N.

(** The class [[A-Za-z'\-]]. *)
Definition is_token_tail (c : N) : bool :=
  (is_letter c || (c =? 39) || (c =? 45))%N.

(** [re.findall(r"[A-Za-z][A-Za-z'\-]{1,30}", line)]: the matches from left
    to right, each as long as it can be.  [cur] holds the match in progress,
    last code point first; a letter alone is no match. *)
Fixpoint findall_tokens (cur : pystr) (line : pystr) : list pystr :=
  let close := if (2 <=? length cur)%nat then [reverse cur] else [] in
  match line with
  | [] => close
  | c :: line' =>
      match cur with
      | [] =>
          if is_letter c then findall_tokens [c] line'
          else findall_tokens [] line'
      | _ :: _ =>
          if is_token_tail c && (length cur <? 31)%nat
          then findall_tokens (c :: cur) line'
          else close ++ (if is_letter c then findall_tokens [c] line'
                         else findall_tokens [] line')
      end
  end.

(** What [findall_tokens] finds: a letter, then 1 to 30 code points of the
    class. *)
Definition token_ok (t : pystr) : Prop :=
  (2 ≤ length t ≤ 31)%nat
  ∧ (∃ c, head t = Some c ∧ is_letter c = true)
  ∧ Forall (λ c, is_token_tail c = true) t.

Section load_awl_words.
Context (py_lower : pystr → pystr).

(** The words one line adds. *)
Definition awl_line_words (line : pystr) : list pystr :=
  let line := strip line in
  if negb (truthy line) || startswith line (py "#") then []
  else
    filter (λ word, WORD_RE word = true)
           (normalize_word py_lower <$> findall_tokens [] line).

(** The loader on the text of the file, [None] when there is no file. *)
Definition load_awl_words (file : option pystr) : result (gset pystr) :=
  match file with
  | None => Raise FileNotFoundError
  | Some text => Ok (list_to_set (splitlines text ≫= awl_line_words))
  end.

End load_awl_words.

(** ** Translations *)

(** [re.sub(r"\[[^\]]*\]", "", text)]: every stretch from a [[] to the next
    []] goes.  [held] holds the code points since a [[] that has not met its
    []] yet, last first; they stay when none comes. *)
Fixpoint drop_bracketed (held : option pystr) (t : pystr) : pystr :=
  match t with
  | [] => match held with Some h => reverse h | None => [] end
  | c :: t' =>
      match held with
      | None =>
          if (c =? 91)%N then drop_bracketed (Some [c]) t'
          else c :: drop_bracketed None t'
      | Some h =>
          if (c =? 93)%N then drop_bracketed None t'
          else drop_bracketed (Some (c :: h)) t'
      end
  end.

(** [re.split(sep, t)] for a class [sep] of single code points; [cur] holds
    the field in progress, last code point first. *)
Fixpoint split_at (sep : N → bool) (cur t : pystr) : list pystr :=
  match t with
  | [] => [reverse cur]
  | c :: t' =>
      if sep c then reverse cur :: split_at sep [] t'
      else split_at sep (c :: cur) t'
  end.

(** The class [[；;]] that separates the senses. *)
Definition is_sense_sep (c : N) : bool := ((c =? 65307) || (c =? 59))%N.

Definition clean_ecdict_translation (text : pystr) : pystr :=
  let text := clean_text text in
  let text := drop_bracketed None text in
  let text := clean_text text in
  if negb (truthy text) then []
  else
    let parts := split_at is_sense_sep [] text in
    let parts := filter (λ p, truthy p = true) (clean_text <$> parts) in
    if negb (match parts with [] => false | _ :: _ => true end) then []
    else join [65307%N] (take 3 parts).

(** No [[] with a []] after it; [seen_open] tells that a [[] came before. *)
Fixpoint no_pair (seen_open : bool) (t : pystr) : bool :=
  match t with
  | [] => true
  | c :: t' =>
      if (c =? 93)%N then negb seen_open && no_pair seen_open t'
      else no_pair (seen_open || (c =? 91)%N) t'
  end.

Definition is_bracket (c : N) : bool := ((c =? 91) || (c =? 93))%N.

(** ** Tags *)

(** The class [[\s,;/|]] that separates the tags. *)
Definition is_tag_sep (c : N) : bool :=
  (is_space c || (c =? 44) || (c =? 59) || (c =? 47) || (c =? 124))%N.

(** [re.split(sep+, t)] for a class [sep] of code points: the fields between
    the runs of separators.  [in_run] tells that the code point before was a
    separator, [cur] holds the field in progress, last code point first. *)
Fixpoint split_runs (sep : N → bool) (in_run : bool) (cur t : pystr)
    : list pystr :=
  match t with
  | [] => [reverse cur]
  | c :: t' =>
      if sep c then
        if in_run then split_runs sep true [] t'
        else reverse cur :: split_runs sep true [] t'
      else split_runs sep false (c :: cur) t'
  end.

Section parse_ecdict_tags.
Context (py_lower : pystr → pystr).

Definition parse_ecdict_tags (tag_text : pystr) : gset pystr :=
  let tag_text := py_lower (clean_text tag_text) in
  if negb (truthy tag_text) then ∅
  else list_to_set (filter (λ t, truthy t = true)
                           (split_runs is_tag_sep false [] tag_text)).

End parse_ecdict_tags.

(** ** The subject tags *)

(** What the loader reads of a path under the directory: whether it is a
    file, four parts of its name, and its text, [None] when reading it
    raises. *)
Record XiaolaiPath := mkXiaolaiPath {
  xp_is_file : bool;
  xp_parent_name : pystr;
  xp_name : pystr;
  xp_stem : pystr;
  xp_suffix : pystr;
  xp_text : option pystr
}.

Section load_xiaolai_subject_tags.
(** [str.lower], and the first group of a match of [START_WORD_RE]. *)
Context (py_lower : pystr → pystr) (START_WORD_RE : pystr → option pystr).

(** The word a line gives, if any. *)
Definition xiaolai_line_word (line : pystr) : option pystr :=
  let line := strip line in
  if negb (truthy line) || startswith line (py "#")
     || startswith line (py ">")
  then None
  else
    match START_WORD_RE line with
    | None => None
    | Some group =>
        let word := normalize_word py_lower group in
        if WORD_RE word then Some word else None
    end.

(** [tags_map[word].add(subject)] on a [defaultdict(set)]. *)
Definition add_subject (subject : pystr) (tags_map : gmap pystr (gset pystr))
    (word : pystr) : gmap pystr (gset pystr) :=
  <[word := default ∅ (tags_map !! word) ∪ {[subject]}]> tags_map.

(** One turn of the loop over the files. *)
Definition xiaolai_file_step (tags_map : gmap pystr (gset pystr))
    (path : XiaolaiPath) : gmap pystr (gset pystr) :=
  let subject :=
    infer_subject_from_path py_lower (xp_parent_name path) (xp_stem path) in
  match xp_text path with
  | None => tags_map
  | Some content =>
      foldl (λ m line,
               match xiaolai_line_word line with
               | Some word => add_subject subject m word
               | None => m
               end)
            tags_map (splitlines content)
  end.

Definition xiaolai_suffixes : list pystr :=
  [py ".txt"; py ".md"; py ".csv"; py ".tsv"; py ".json"].

(** The loader on the paths [rglob] finds, [None] when there is no
    directory. *)
Definition load_xiaolai_subject_tags (dir : option (list XiaolaiPath))
    : gmap pystr (gset pystr) :=
  match dir with
  | None => ∅
  | Some paths =>
      let files :=
        filter (λ p, xp_is_file p = true
                     ∧ py_lower (xp_suffix p) ∈ xiaolai_suffixes) paths in
      let useful_files :=
        filter (λ p, py_lower (xp_name p) ≠ py "readme.md") files in
      match useful_files with
      | [] => ∅
      | _ :: _ => foldl xiaolai_file_step ∅ useful_files
      end
  end.

End load_xiaolai_subject_tags.

(** * Properties *)

Section layers.
Context (kaj_map : gmap pystr KajWord) (ecdict_map : gmap pystr ECDictWord)
        (xiaolai_tags : gmap pystr (gset pystr)) (awl_words : gset pystr)
        (core_coca_max full_coca_max : Z).

Abbreviation L := (build_layers kaj_map ecdict_map xiaolai_tags awl_words
                            core_coca_max full_coca_max).

Lemma elem_of_layer_a w :
  w ∈ layer_a L ↔
  w ∈ dom kaj_map ∧ ∃ r, rank_of w ecdict_map = Some r ∧ r ≤ core_coca_max.
Proof.
  cbn. rewrite elem_of_filter. unfold in_core_band.
  destruct (rank_of w ecdict_map) as [r|].
  - rewrite bool_decide_spec. naive_solver.
  - naive_solver.
Qed.

Lemma elem_of_layer_b w :
  w ∈ layer_b L ↔ w ∈ dom kaj_map ∧ w ∈ awl_words.
Proof. cbn. set_solver. Qed.

Lemma elem_of_core w :
  w ∈ core L ↔ w ∈ layer_a L ∨ w ∈ layer_b L.
Proof. cbn. set_solver. Qed.

Lemma elem_of_layer_c w :
  w ∈ layer_c L ↔
  w ∈ dom kaj_map ∧
  (∃ r, rank_of w ecdict_map = Some r ∧ core_coca_max < r ≤ full_coca_max) ∧
  w ∉ core L.
Proof.
  cbn. rewrite elem_of_filter. unfold in_full_band.
  destruct (rank_of w ecdict_map) as [r|].
  - rewrite andb_True, !bool_decide_spec. naive_solver.
  - naive_solver.
Qed.

Lemma elem_of_layer_d w :
  w ∈ layer_d L ↔ w ∈ dom xiaolai_tags ∧ w ∉ core L ∧ w ∉ layer_c L.
Proof. cbn. set_solver. Qed.

Lemma elem_of_layer_e w :
  w ∈ layer_e L ↔
  exam_tagged ecdict_map w ∧ w ∉ core L ∧ w ∉ layer_c L ∧ w ∉ layer_d L.
Proof.
  cbn. rewrite elem_of_dom. unfold exam_tagged, is_Some.
  setoid_rewrite map_lookup_filter_Some. cbn.
  split.
  - intros (info & Hw & Hocc & Htag). split; [by exists info|]. set_solver.
  - intros ((info & Hw & Htag) & Hcore & Hc & Hd).
    exists info. split; [done|]. split; [set_solver|done].
Qed.

Lemma elem_of_full w :
  w ∈ full L ↔ w ∈ core L ∨ w ∈ layer_c L ∨ w ∈ layer_d L ∨ w ∈ layer_e L.
Proof. cbn. set_solver. Qed.

End layers.

Section layers_spec.
Context (kaj_map : gmap pystr KajWord) (ecdict_map : gmap pystr ECDictWord)
        (xiaolai_tags : gmap pystr (gset pystr)) (awl_words : gset pystr)
        (core_coca_max full_coca_max : Z).

Abbreviation L' := (build_layers kaj_map ecdict_map xiaolai_tags awl_words
                                 core_coca_max full_coca_max).

(** The rank [rank_of] finds is the one the record of the word carries. *)
Lemma known_rank_rank_of (m : gmap pystr ECDictWord) (w : pystr) (r : Z) :
  known_rank m w r ↔ rank_of w m = Some r.
Proof.
  unfold known_rank, rank_of. destruct (m !! w) as [info|]; naive_solver.
Qed.

(** C1. The seven sets of the tier builder are the ones the algorithm of
    the specification describes, word by word, where a word has a known
    rank when its record in the frequency mapping carries one; and a word
    that has no known rank, is not academic, not subject-tagged and not
    exam-tagged is in none of them. *)
Theorem build_layers_exact (w : pystr) :
  (w ∈ layer_a L' ↔
     w ∈ dom kaj_map ∧ ∃ r, known_rank ecdict_map w r ∧ r ≤ core_coca_max) ∧
  (w ∈ layer_b L' ↔ w ∈ dom kaj_map ∧ w ∈ awl_words) ∧
  (w ∈ core L' ↔ w ∈ layer_a L' ∨ w ∈ layer_b L') ∧
  (w ∈ layer_c L' ↔
     w ∈ dom kaj_map ∧
     (∃ r, known_rank ecdict_map w r ∧ core_coca_max < r ≤ full_coca_max) ∧
     w ∉ core L') ∧
  (w ∈ layer_d L' ↔ w ∈ dom xiaolai_tags ∧ w ∉ core L' ∧ w ∉ layer_c L') ∧
  (w ∈ layer_e L' ↔
     exam_tagged ecdict_map w ∧ w ∉ core L' ∧ w ∉ layer_c L' ∧ w ∉ layer_d L') ∧
  (w ∈ full L' ↔
     w ∈ core L' ∨ w ∈ layer_c L' ∨ w ∈ layer_d L' ∨ w ∈ layer_e L') ∧
  ((∀ r, ¬ known_rank ecdict_map w r) → w ∉ awl_words →
   w ∉ dom xiaolai_tags → ¬ exam_tagged ecdict_map w →
   w ∉ layer_a L' ∧ w ∉ layer_b L' ∧ w ∉ core L' ∧ w ∉ layer_c L' ∧
   w ∉ layer_d L' ∧ w ∉ layer_e L' ∧ w ∉ full L').
Proof.
  pose proof (elem_of_layer_a kaj_map ecdict_map xiaolai_tags awl_words
                core_coca_max full_coca_max w) as HA.
  pose proof (elem_of_layer_b kaj_map ecdict_map xiaolai_tags awl_words
                core_coca_max full_coca_max w) as HB.
  pose proof (elem_of_core kaj_map ecdict_map xiaolai_tags awl_words
                core_coca_max full_coca_max w) as HK.
  pose proof (elem_of_layer_c kaj_map ecdict_map xiaolai_tags awl_words
                core_coca_max full_coca_max w) as HC.
  pose proof (elem_of_layer_d kaj_map ecdict_map xiaolai_tags awl_words
                core_coca_max full_coca_max w) as HD.
  pose proof (elem_of_layer_e kaj_map ecdict_map xiaolai_tags awl_words
                core_coca_max full_coca_max w) as HE.
  pose proof (elem_of_full kaj_map ecdict_map xiaolai_tags awl_words
                core_coca_max full_coca_max w) as HF.
  pose proof (known_rank_rank_of ecdict_map w) as Hrank.
  assert (w ∈ layer_a L' ↔
            w ∈ dom kaj_map
            ∧ ∃ r, known_rank ecdict_map w r ∧ r ≤ core_coca_max) as HA'.
  { rewrite HA. split; intros (Hd & r & Hr & Hle); (split; [done|]);
      exists r; (split; [by apply Hrank|done]). }
  assert (w ∈ layer_c L' ↔
            w ∈ dom kaj_map
            ∧ (∃ r, known_rank ecdict_map w r
                    ∧ core_coca_max < r ≤ full_coca_max)
            ∧ w ∉ core L') as HC'.
  { rewrite HC. split; intros (Hd & (r & Hr & Hle) & Hk);
      (split; [done|]); (split; [|done]);
      exists r; (split; [by apply Hrank|done]). }
  split; [exact HA'|]. split; [exact HB|]. split; [exact HK|].
  split; [exact HC'|]. split; [exact HD|]. split; [exact HE|].
  split; [exact HF|].
  intros Hno Hawl Hsub Hexam.
  assert (w ∉ layer_a L') as Ha.
  { rewrite HA'. intros (_ & r & Hr & _). by apply (Hno r). }
  assert (w ∉ layer_b L') as Hb by (rewrite HB; tauto).
  assert (w ∉ core L') as Hk by (rewrite HK; tauto).
  assert (w ∉ layer_c L') as Hc.
  { rewrite HC'. intros (_ & (r & Hr & _) & _). by apply (Hno r). }
  assert (w ∉ layer_d L') as Hd by (rewrite HD; tauto).
  assert (w ∉ layer_e L') as He by (rewrite HE; tauto).
  repeat (split; [assumption|]). rewrite HF. tauto.
Qed.

(** C2, as amended.  Core is within full; core, layerC, layerD and layerE
    are pairwise disjoint, so layerA and layerB are each disjoint from
    layerC, layerD and layerE; layerA and layerB themselves share exactly
    the headwords that are both ranked within coreMax and academic. *)
Theorem build_layers_disjoint :
  core L' ⊆ full L' ∧
  core L' = layer_a L' ∪ layer_b L' ∧
  core L' ## layer_c L' ∧ core L' ## layer_d L' ∧ core L' ## layer_e L' ∧
  layer_c L' ## layer_d L' ∧ layer_c L' ## layer_e L' ∧
  layer_d L' ## layer_e L' ∧
  layer_a L' ## layer_c L' ∧ layer_a L' ## layer_d L' ∧
  layer_a L' ## layer_e L' ∧ layer_b L' ## layer_c L' ∧
  layer_b L' ## layer_d L' ∧ layer_b L' ## layer_e L' ∧
  (∀ w, w ∈ layer_a L' ∩ layer_b L' ↔
        w ∈ dom kaj_map ∧ w ∈ awl_words ∧
        ∃ r, rank_of w ecdict_map = Some r ∧ r ≤ core_coca_max).
Proof.
  split_and!; [cbn; set_solver | done | ..].
  - intros w Hk Hc. apply elem_of_layer_c in Hc. tauto.
  - intros w Hk Hd. apply elem_of_layer_d in Hd. tauto.
  - intros w Hk He. apply elem_of_layer_e in He. tauto.
  - intros w Hc Hd. apply elem_of_layer_d in Hd. tauto.
  - intros w Hc He. apply elem_of_layer_e in He. tauto.
  - intros w Hd He. apply elem_of_layer_e in He. tauto.
  - intros w Ha Hc. apply elem_of_layer_c in Hc. rewrite elem_of_core in Hc.
    tauto.
  - intros w Ha Hd. apply elem_of_layer_d in Hd. rewrite elem_of_core in Hd.
    tauto.
  - intros w Ha He. apply elem_of_layer_e in He. rewrite elem_of_core in He.
    tauto.
  - intros w Hb Hc. apply elem_of_layer_c in Hc. rewrite elem_of_core in Hc.
    tauto.
  - intros w Hb Hd. apply elem_of_layer_d in Hd. rewrite elem_of_core in Hd.
    tauto.
  - intros w Hb He. apply elem_of_layer_e in He. rewrite elem_of_core in He.
    tauto.
  - intros w. rewrite elem_of_intersection, elem_of_layer_a, elem_of_layer_b.
    tauto.
Qed.

End layers_spec.

(** In the scenario the headword ranked 4200 is in layerA under the
    thresholds 5000 and 15000 and in layerC under 100 and 5000; the headword
    without a rank is in layerB only; a word that no source vouches for is
    in no layer. *)
Lemma build_layers_exact_witness :
  py "abate" ∈ layer_a (build_layers ex_kaj ex_ecdict ∅ ex_awl 5000 15000)
  ∧ py "abate" ∈ layer_c (build_layers ex_kaj ex_ecdict ∅ ex_awl 100 5000)
  ∧ py "zephyr" ∉ layer_a (build_layers ex_kaj ex_ecdict ∅ ex_awl 5000 15000)
  ∧ py "zephyr" ∈ layer_b (build_layers ex_kaj ex_ecdict ∅ ex_awl 5000 15000)
  ∧ py "ghost" ∉ layer_a (build_layers ex_kaj ex_ecdict ∅ ex_awl 5000 15000)
  ∧ py "ghost" ∉ layer_b (build_layers ex_kaj ex_ecdict ∅ ex_awl 5000 15000)
  ∧ py "ghost" ∉ core (build_layers ex_kaj ex_ecdict ∅ ex_awl 5000 15000)
  ∧ py "ghost" ∉ layer_c (build_layers ex_kaj ex_ecdict ∅ ex_awl 5000 15000)
  ∧ py "ghost" ∉ layer_d (build_layers ex_kaj ex_ecdict ∅ ex_awl 5000 15000)
  ∧ py "ghost" ∉ layer_e (build_layers ex_kaj ex_ecdict ∅ ex_awl 5000 15000)
  ∧ py "ghost" ∉ full (build_layers ex_kaj ex_ecdict ∅ ex_awl 5000 15000).
Proof.
  assert (known_rank ex_ecdict (py "abate") 4200) as Hrank.
  { exists (mkECDictWord [] [] (Some 4200) ∅ []).
    split; [vm_compute|]; reflexivity. }
  assert (∀ r, known_rank ex_ecdict (py "abate") r → r = 4200) as Honly.
  { intros r (info & Hi & Hr). vm_compute in Hi. injection Hi as <-.
    cbn in Hr. congruence. }
  assert (∀ r, ¬ known_rank ex_ecdict (py "zephyr") r) as Hz.
  { intros r (info & Hi & Hr). vm_compute in Hi. injection Hi as <-.
    discriminate Hr. }
  assert (py "abate" ∈ dom ex_kaj ∧ py "zephyr" ∈ dom ex_kaj) as [Hda Hdz].
  { rewrite !elem_of_dom. split; eexists; vm_compute; reflexivity. }
  assert (py "abate" ∉ ex_awl) as Hawl.
  { unfold ex_awl. rewrite elem_of_singleton. discriminate. }
  split; [|split; [|split; [|split]]].
  - apply (proj1 (build_layers_exact ex_kaj ex_ecdict ∅ ex_awl 5000 15000
                    (py "abate"))).
    split; [exact Hda|]. exists 4200. split; [exact Hrank|lia].
  - destruct (build_layers_exact ex_kaj ex_ecdict ∅ ex_awl 100 5000
                (py "abate")) as (HA & HB & HK & HC & _).
    apply HC. split; [exact Hda|].
    split; [exists 4200; split; [exact Hrank|lia]|].
    rewrite HK, HA, HB. intros [(_ & r & Hr & Hle)|[_ Hin]].
    + apply Honly in Hr. lia.
    + by apply Hawl.
  - rewrite (proj1 (build_layers_exact ex_kaj ex_ecdict ∅ ex_awl 5000 15000
                      (py "zephyr"))).
    intros (_ & r & Hr & _). by apply (Hz r).
  - apply (proj1 (proj2 (build_layers_exact ex_kaj ex_ecdict ∅ ex_awl
                           5000 15000 (py "zephyr")))).
    split; [exact Hdz|]. unfold ex_awl. by apply elem_of_singleton.
  - destruct (build_layers_exact ex_kaj ex_ecdict ∅ ex_awl 5000 15000
                (py "ghost")) as (_ & _ & _ & _ & _ & _ & _ & H).
    apply H.
    + intros r (info & Hi & _). vm_compute in Hi. discriminate.
    + unfold ex_awl. rewrite elem_of_singleton. discriminate.
    + rewrite dom_empty_L. apply not_elem_of_empty.
    + intros (info & Hw & _). vm_compute in Hw. discriminate.
Defined.

(** C2 as stated fails: with valid thresholds, a headword ranked within
    coreMax that is also academic is in layerA and in layerB. *)
Lemma layer_a_layer_b_overlap :
  ¬ (∀ (kaj_map : gmap pystr KajWord) (ecdict_map : gmap pystr ECDictWord)
       (xiaolai_tags : gmap pystr (gset pystr)) (awl_words : gset pystr)
       (core_coca_max full_coca_max : Z),
       0 < core_coca_max ≤ full_coca_max →
       let L := build_layers kaj_map ecdict_map xiaolai_tags awl_words
                             core_coca_max full_coca_max in
       core L ⊆ full L ∧
       layer_a L ## layer_b L ∧ layer_a L ## layer_c L ∧ layer_a L ## layer_d L ∧
       layer_a L ## layer_e L ∧ layer_b L ## layer_c L ∧ layer_b L ## layer_d L ∧
       layer_b L ## layer_e L ∧ layer_c L ## layer_d L ∧ layer_c L ## layer_e L ∧
       layer_d L ## layer_e L).
Proof.
  intros H.
  destruct (H ex_kaj ex_ecdict ∅ ex_awl_both 5000 15000 ltac:(lia))
    as (_ & Hab & _).
  apply (Hab (py "abate")).
  - apply elem_of_layer_a. split.
    + unfold ex_kaj. rewrite dom_insert_L. set_solver.
    + exists 4200. split; [reflexivity | lia].
  - apply elem_of_layer_b. split.
    + unfold ex_kaj. rewrite dom_insert_L. set_solver.
    + unfold ex_awl_both. set_solver.
Qed.

(** ** The duplicate merges *)

Lemma str_or_idemp a : str_or a a = a.
Proof. by destruct a. Qed.

Lemma str_or_absorb a b c :
  str_or a c = a → str_or (str_or a b) c = str_or a b.
Proof. destruct a, b, c; cbn; congruence. Qed.

Lemma first_nonempty_absorb (a b c : pystr) :
  (if negb (truthy a) && truthy c then c else a) = a →
  (if negb (truthy (if negb (truthy a) && truthy b then b else a)) && truthy c
   then c else if negb (truthy a) && truthy b then b else a)
  = (if negb (truthy a) && truthy b then b else a).
Proof. destruct a, b, c; cbn; congruence. Qed.

Lemma merge_kaj_word_idemp a : merge_kaj_word a a = a.
Proof.
  destruct a as [m p]. unfold merge_kaj_word. cbn.
  rewrite Nat.leb_refl, str_or_idemp. done.
Qed.

(** A record that leaves [a] unchanged still leaves it unchanged after [a]
    has been merged with anything else. *)
Lemma merge_kaj_word_absorb_stable a b c :
  merge_kaj_word a c = a →
  merge_kaj_word (merge_kaj_word a b) c = merge_kaj_word a b.
Proof.
  destruct a as [ma pa], b as [mb pb], c as [mc pc].
  unfold merge_kaj_word. cbn. intros H.
  injection H as Hm Hp.
  assert (length mc ≤ length ma)%nat as Hlen.
  { destruct (Nat.leb_spec (length mc) (length ma)) as [|Hlt]; [done|].
    rewrite Hm in Hlt. lia. }
  f_equal.
  - destruct (Nat.leb_spec (length mb) (length ma)).
    + by rewrite (proj2 (Nat.leb_le _ _) Hlen).
    + rewrite (proj2 (Nat.leb_le (length mc) (length mb))) by lia. done.
  - by apply str_or_absorb.
Qed.

Lemma merge_kaj_word_absorb a b :
  merge_kaj_word (merge_kaj_word a b) b = merge_kaj_word a b.
Proof.
  destruct a as [ma pa], b as [mb pb]. unfold merge_kaj_word. cbn.
  f_equal.
  - destruct (Nat.leb_spec (length mb) (length ma)) as [Hle|Hlt].
    + by rewrite (proj2 (Nat.leb_le _ _) Hle).
    + by rewrite Nat.leb_refl.
  - destruct pa, pb; done.
Qed.

Lemma merge_ecdict_word_idemp a : merge_ecdict_word a a = a.
Proof.
  destruct a as [ph po r t m]. unfold merge_ecdict_word. cbn.
  rewrite union_idemp_L.
  destruct ph, po, m, r; done.
Qed.

Lemma merge_ecdict_word_absorb_stable a b c :
  merge_ecdict_word a c = a →
  merge_ecdict_word (merge_ecdict_word a b) c = merge_ecdict_word a b.
Proof.
  destruct a as [pha poa ra ta ma], b as [phb pob rb tb mb],
           c as [phc poc rc tc mc].
  unfold merge_ecdict_word. cbn. intros H.
  injection H as Hph Hpo Hr Ht Hm.
  f_equal.
  - by apply first_nonempty_absorb.
  - by apply first_nonempty_absorb.
  - destruct ra, rb, rc; congruence.
  - set_solver.
  - by apply first_nonempty_absorb.
Qed.

Lemma merge_ecdict_word_absorb a b :
  merge_ecdict_word (merge_ecdict_word a b) b = merge_ecdict_word a b.
Proof.
  destruct a as [pha poa ra ta ma], b as [phb pob rb tb mb].
  unfold merge_ecdict_word. cbn.
  f_equal; [| | |set_solver|].
  - destruct pha, phb; done.
  - destruct poa, pob; done.
  - destruct ra, rb; done.
  - destruct ma, mb; done.
Qed.

Section load_kajweb_facts.
Context {Obj : Type}
        (parse_kaj_entry : Obj → result (option (pystr * KajWord))).

Lemma load_kajweb_from_app m l1 l2 :
  load_kajweb_from parse_kaj_entry m (l1 ++ l2)
  = (m' ← load_kajweb_from parse_kaj_entry m l1;
     load_kajweb_from parse_kaj_entry m' l2).
Proof.
  revert m. induction l1 as [|o l1 IH]; intros m; [done|].
  cbn. destruct (kaj_step parse_kaj_entry m o) as [m'|e]; cbn;
    [apply IH | done].
Qed.

(** What a turn of the loop does, by cases. *)
Lemma kaj_step_cases m o :
  (∃ e, parse_kaj_entry o = Raise e ∧ kaj_step parse_kaj_entry m o = Raise e)
  ∨ (parse_kaj_entry o = Ok None ∧ kaj_step parse_kaj_entry m o = Ok m)
  ∨ (∃ w info,
       parse_kaj_entry o = Ok (Some (w, info))
       ∧ kaj_step parse_kaj_entry m o
         = Ok (<[w := match m !! w with
                      | Some old => merge_kaj_word old info
                      | None => info
                      end]> m)).
Proof.
  unfold kaj_step. destruct (parse_kaj_entry o) as [[[w info]|]|e]; cbn.
  - right. right. exists w, info. split; [done|]. by destruct (m !! w).
  - right. by left.
  - left. by exists e.
Qed.

Lemma kaj_step_keeps m m' o w info X :
  kaj_step parse_kaj_entry m o = Ok m' →
  m !! w = Some X → merge_kaj_word X info = X →
  ∃ X', m' !! w = Some X' ∧ merge_kaj_word X' info = X'.
Proof.
  intros Hstep Hw HX.
  destruct (kaj_step_cases m o)
    as [(e & _ & H)|[[_ H]|(w' & info' & _ & H)]];
    rewrite H in Hstep; [done| |]; injection Hstep as <-.
  - by exists X.
  - destruct (decide (w' = w)) as [->|Hne].
    + rewrite Hw, lookup_insert_eq. exists (merge_kaj_word X info').
      by rewrite merge_kaj_word_absorb_stable.
    + exists X. by rewrite lookup_insert_ne.
Qed.

Lemma load_kajweb_from_keeps l m m' w info X :
  load_kajweb_from parse_kaj_entry m l = Ok m' →
  m !! w = Some X → merge_kaj_word X info = X →
  ∃ X', m' !! w = Some X' ∧ merge_kaj_word X' info = X'.
Proof.
  revert m X. induction l as [|o l IH]; intros m X Hl Hw HX.
  - injection Hl as <-. by exists X.
  - cbn in Hl.
    destruct (kaj_step parse_kaj_entry m o) as [m1|e] eqn:Hs; [|done].
    cbn in Hl.
    destruct (kaj_step_keeps m m1 o w info X Hs Hw HX) as (X1 & Hw1 & HX1).
    by apply (IH m1 X1).
Qed.

(** An object read again later in the source changes nothing. *)
Lemma load_kajweb_toefl_duplicate l1 l2 l3 o :
  load_kajweb_toefl parse_kaj_entry (l1 ++ o :: l2 ++ o :: l3)
  = load_kajweb_toefl parse_kaj_entry (l1 ++ o :: l2 ++ l3).
Proof.
  unfold load_kajweb_toefl. rewrite !load_kajweb_from_app.
  destruct (load_kajweb_from parse_kaj_entry ∅ l1) as [m|e]; [cbn|done].
  destruct (kaj_step parse_kaj_entry m o) as [m1|e] eqn:Hs1; [cbn|done].
  rewrite !load_kajweb_from_app.
  destruct (load_kajweb_from parse_kaj_entry m1 l2) as [m2|e] eqn:Hl2;
    [cbn|done].
  enough (kaj_step parse_kaj_entry m2 o = Ok m2) as -> by done.
  destruct (kaj_step_cases m o)
    as [(e & _ & H)|[[Hp H]|(w & info & Hp & H)]];
    rewrite H in Hs1; [done| |]; injection Hs1 as <-.
  - unfold kaj_step. by rewrite Hp.
  - assert (∃ X, <[w := match m !! w with
                        | Some old => merge_kaj_word old info
                        | None => info
                        end]> m !! w = Some X
                 ∧ merge_kaj_word X info = X) as (X & Hw & HX).
    { rewrite lookup_insert_eq. eexists. split; [done|].
      destruct (m !! w).
      - apply merge_kaj_word_absorb.
      - apply merge_kaj_word_idemp. }
    destruct (load_kajweb_from_keeps l2 _ m2 w info X Hl2 Hw HX)
      as (X2 & Hw2 & HX2).
    unfold kaj_step. rewrite Hp. cbn. rewrite Hw2, HX2. f_equal.
    by apply insert_id.
Qed.

End load_kajweb_facts.

Section load_ecdict_facts.
Context (py_float : pystr → result spec_float)
        (normalize_word : pystr → pystr) (WORD_RE : pystr → bool)
        (normalize_phonetic normalize_pos clean_ecdict_translation
           : pystr → pystr)
        (parse_ecdict_tags : pystr → gset pystr).

Abbreviation step := (ecdict_step py_float normalize_word WORD_RE
  normalize_phonetic normalize_pos clean_ecdict_translation parse_ecdict_tags).
Abbreviation load_from := (load_ecdict_from py_float normalize_word WORD_RE
  normalize_phonetic normalize_pos clean_ecdict_translation parse_ecdict_tags).
Abbreviation info_of := (row_info py_float normalize_phonetic normalize_pos
  clean_ecdict_translation parse_ecdict_tags).

Lemma load_ecdict_from_app m l1 l2 :
  load_from m (l1 ++ l2) = (m' ← load_from m l1; load_from m' l2).
Proof.
  revert m. induction l1 as [|r l1 IH]; intros m; [done|].
  cbn. destruct (step m r) as [m'|e]; cbn; [apply IH | done].
Qed.

(** What a turn of the loop does, by cases. *)
Lemma ecdict_step_cases m r :
  (WORD_RE (normalize_word (row_word r)) = false ∧ step m r = Ok m) ∨
  (WORD_RE (normalize_word (row_word r)) = true ∧
   ∃ e, info_of r = Raise e ∧ step m r = Raise e) ∨
  (WORD_RE (normalize_word (row_word r)) = true ∧
   ∃ info, info_of r = Ok info ∧
     step m r = Ok (<[normalize_word (row_word r) :=
                       match m !! normalize_word (row_word r) with
                       | Some old => merge_ecdict_word old info
                       | None => info
                       end]> m)).
Proof.
  unfold ecdict_step.
  destruct (WORD_RE (normalize_word (row_word r))); cbn; [|by left].
  right. destruct (info_of r) as [info|e]; cbn.
  - right. split; [done|]. exists info. split; [done|].
    by destruct (m !! normalize_word (row_word r)).
  - left. split; [done|]. by exists e.
Qed.

Lemma ecdict_step_keeps m m' r w info X :
  step m r = Ok m' →
  m !! w = Some X → merge_ecdict_word X info = X →
  ∃ X', m' !! w = Some X' ∧ merge_ecdict_word X' info = X'.
Proof.
  intros Hstep Hw HX.
  destruct (ecdict_step_cases m r)
    as [[_ H]|[[_ (e & _ & H)]|[_ (info' & _ & H)]]];
    rewrite H in Hstep; [|done|]; injection Hstep as <-.
  - by exists X.
  - destruct (decide (normalize_word (row_word r) = w)) as [->|Hne].
    + rewrite Hw, lookup_insert_eq. exists (merge_ecdict_word X info').
      by rewrite merge_ecdict_word_absorb_stable.
    + exists X. by rewrite lookup_insert_ne.
Qed.

Lemma load_ecdict_from_keeps l m m' w info X :
  load_from m l = Ok m' →
  m !! w = Some X → merge_ecdict_word X info = X →
  ∃ X', m' !! w = Some X' ∧ merge_ecdict_word X' info = X'.
Proof.
  revert m X. induction l as [|r l IH]; intros m X Hl Hw HX.
  - injection Hl as <-. by exists X.
  - cbn in Hl. destruct (step m r) as [m1|e] eqn:Hs; [|done]. cbn in Hl.
    destruct (ecdict_step_keeps m m1 r w info X Hs Hw HX) as (X1 & Hw1 & HX1).
    by apply (IH m1 X1).
Qed.

(** A row read again later in the source changes nothing. *)
Lemma load_ecdict_duplicate l1 l2 l3 r :
  load_ecdict py_float normalize_word WORD_RE normalize_phonetic normalize_pos
    clean_ecdict_translation parse_ecdict_tags (l1 ++ r :: l2 ++ r :: l3)
  = load_ecdict py_float normalize_word WORD_RE normalize_phonetic
      normalize_pos clean_ecdict_translation parse_ecdict_tags
      (l1 ++ r :: l2 ++ l3).
Proof.
  unfold load_ecdict. rewrite !load_ecdict_from_app.
  destruct (load_from ∅ l1) as [m|e]; [cbn|done].
  destruct (step m r) as [m1|e] eqn:Hs1; [cbn|done].
  rewrite !load_ecdict_from_app.
  destruct (load_from m1 l2) as [m2|e] eqn:Hl2; [cbn|done].
  enough (step m2 r = Ok m2) as -> by done.
  destruct (ecdict_step_cases m r)
    as [[Hre H]|[[_ (e & _ & H)]|[Hre (info & Hinfo & H)]]];
    rewrite H in Hs1; [|done|]; injection Hs1 as <-.
  - destruct (ecdict_step_cases m2 r)
      as [[_ H2]|[[Hre' _]|[Hre' _]]]; [done|congruence..].
  - pose (w := normalize_word (row_word r)).
    assert (∃ X, <[w := match m !! w with
                        | Some old => merge_ecdict_word old info
                        | None => info
                        end]> m !! w = Some X
                 ∧ merge_ecdict_word X info = X) as (X & Hw & HX).
    { rewrite lookup_insert_eq. eexists. split; [done|].
      destruct (m !! w).
      - apply merge_ecdict_word_absorb.
      - apply merge_ecdict_word_idemp. }
    destruct (load_ecdict_from_keeps l2 _ m2 w info X Hl2 Hw HX)
      as (X2 & Hw2 & HX2).
    destruct (ecdict_step_cases m2 r)
      as [[Hre' _]|[[_ (e & He & _)]|[_ (info' & Hinfo' & H2)]]];
      [congruence..|].
    rewrite H2. fold w. rewrite Hw2.
    assert (info' = info) as -> by congruence.
    rewrite HX2. f_equal. by apply insert_id.
Qed.

End load_ecdict_facts.

(** C3, as amended.  Both duplicate merges are idempotent, and a record
    merged in once more changes nothing, so a source that repeats a record
    loads to the same mapping as one that has it once.  The merges are not
    commutative: where two records disagree the earlier one wins.  The union
    of the tag sets commutes, and so does the whole merge of two records that
    do not disagree (meanings of different length or equal, and for every
    first-wins field one side empty or both equal). *)
Theorem merge_idempotent_first_wins :
  (∀ a, merge_kaj_word a a = a) ∧
  (∀ a, merge_ecdict_word a a = a) ∧
  (∀ a b, merge_kaj_word (merge_kaj_word a b) b = merge_kaj_word a b) ∧
  (∀ a b, merge_ecdict_word (merge_ecdict_word a b) b = merge_ecdict_word a b) ∧
  (∀ (Obj : Type) (parse_kaj_entry : Obj → result (option (pystr * KajWord)))
     (l1 l2 l3 : list Obj) (o : Obj),
     load_kajweb_toefl parse_kaj_entry (l1 ++ o :: l2 ++ o :: l3)
     = load_kajweb_toefl parse_kaj_entry (l1 ++ o :: l2 ++ l3)) ∧
  (∀ py_float normalize_word WORD_RE normalize_phonetic normalize_pos
     clean_ecdict_translation parse_ecdict_tags
     (l1 l2 l3 : list EcdictRow) (r : EcdictRow),
     load_ecdict py_float normalize_word WORD_RE normalize_phonetic
       normalize_pos clean_ecdict_translation parse_ecdict_tags
       (l1 ++ r :: l2 ++ r :: l3)
     = load_ecdict py_float normalize_word WORD_RE normalize_phonetic
         normalize_pos clean_ecdict_translation parse_ecdict_tags
         (l1 ++ r :: l2 ++ l3)) ∧
  (∀ a b, tags (merge_ecdict_word a b) = tags (merge_ecdict_word b a)) ∧
  (∀ a b,
     length (kaj_meaning a) ≠ length (kaj_meaning b)
       ∨ kaj_meaning a = kaj_meaning b →
     kaj_pos a = [] ∨ kaj_pos b = [] ∨ kaj_pos a = kaj_pos b →
     merge_kaj_word a b = merge_kaj_word b a) ∧
  (∀ a b,
     phonetic a = [] ∨ phonetic b = [] ∨ phonetic a = phonetic b →
     pos a = [] ∨ pos b = [] ∨ pos a = pos b →
     coca_rank a = None ∨ coca_rank b = None ∨ coca_rank a = coca_rank b →
     meaning a = [] ∨ meaning b = [] ∨ meaning a = meaning b →
     merge_ecdict_word a b = merge_ecdict_word b a).
Proof.
  split_and!.
  - apply merge_kaj_word_idemp.
  - apply merge_ecdict_word_idemp.
  - apply merge_kaj_word_absorb.
  - apply merge_ecdict_word_absorb.
  - intros. apply load_kajweb_toefl_duplicate.
  - intros. apply load_ecdict_duplicate.
  - intros a b. cbn. apply union_comm_L.
  - intros [ma pa] [mb pb]. unfold merge_kaj_word. cbn. intros Hm Hp.
    f_equal.
    + destruct (Nat.leb_spec (length mb) (length ma)),
               (Nat.leb_spec (length ma) (length mb)); try done; try lia.
      destruct Hm as [Hm|Hm]; [lia | done].
    + destruct pa, pb; cbn; try done. destruct Hp as [|[|]]; done.
  - intros [pha poa ra ta ma] [phb pob rb tb mb].
    unfold merge_ecdict_word. cbn. intros Hph Hpo Hr Hm.
    f_equal.
    + destruct pha, phb; cbn; try done. destruct Hph as [|[|]]; done.
    + destruct poa, pob; cbn; try done. destruct Hpo as [|[|]]; done.
    + destruct ra, rb; cbn; try done. destruct Hr as [|[|]]; done.
    + apply union_comm_L.
    + destruct ma, mb; cbn; try done. destruct Hm as [|[|]]; done.
Qed.

(** Two records that do not disagree merge to the same record in both
    orders. *)
Lemma merge_idempotent_first_wins_witness :
  merge_kaj_word (mkKajWord [20943; 24369]%N (py "v"))
                 (mkKajWord [20943]%N [])
  = merge_kaj_word (mkKajWord [20943]%N [])
                   (mkKajWord [20943; 24369]%N (py "v"))
  ∧ merge_ecdict_word
      (mkECDictWord (py "/a/") [] (Some 4200) {[py "toefl"]} [])
      (mkECDictWord [] (py "v.") None {[py "cet4"]} [20943]%N)
    = merge_ecdict_word
        (mkECDictWord [] (py "v.") None {[py "cet4"]} [20943]%N)
        (mkECDictWord (py "/a/") [] (Some 4200) {[py "toefl"]} []).
Proof.
  destruct merge_idempotent_first_wins as (_ & _ & _ & _ & _ & _ & _ & Hk & He).
  split.
  - apply Hk; cbn; [left; lia | right; left; reflexivity].
  - apply He; cbn.
    + right; left; reflexivity.
    + left; reflexivity.
    + right; left; reflexivity.
    + left; reflexivity.
Defined.

(** C3 as stated fails: neither merge is commutative.  Two headword records
    with meanings of equal length, or with two parts of speech, merge to the
    earlier one; two frequency records with different ranks keep the earlier
    rank. *)
Lemma merge_not_commutative :
  merge_kaj_word (mkKajWord [20943; 24369]%N (py "n"))
                 (mkKajWord [21644; 39118]%N (py "v"))
  ≠ merge_kaj_word (mkKajWord [21644; 39118]%N (py "v"))
                   (mkKajWord [20943; 24369]%N (py "n"))
  ∧ merge_ecdict_word (mkECDictWord [] [] (Some 4200) ∅ [])
                      (mkECDictWord [] [] (Some 17) ∅ [])
    ≠ merge_ecdict_word (mkECDictWord [] [] (Some 17) ∅ [])
                        (mkECDictWord [] [] (Some 4200) ∅ []).
Proof. split; intros H; vm_compute in H; discriminate. Qed.

(** ** The order of a tier *)

Lemma str_ltb_irrefl a : str_ltb a a = false.
Proof.
  induction a as [|x a IH]; [done|]. cbn.
  by rewrite N.ltb_irrefl, N.eqb_refl, IH.
Qed.

Lemma str_ltb_cons x a y b :
  str_ltb (x :: a) (y :: b) = true ↔
  (x < y)%N ∨ (x = y ∧ str_ltb a b = true).
Proof.
  cbn. rewrite orb_true_iff, andb_true_iff, N.ltb_lt, N.eqb_eq. done.
Qed.

Lemma str_ltb_trans a b c :
  str_ltb a b = true → str_ltb b c = true → str_ltb a c = true.
Proof.
  revert b c. induction a as [|x a IH]; intros [|y b] [|z c]; try done.
  rewrite !str_ltb_cons. intros [?|[-> ?]] [?|[-> ?]]; eauto with lia.
Qed.

Lemma str_ltb_trichotomy a b :
  str_ltb a b = true ∨ a = b ∨ str_ltb b a = true.
Proof.
  revert b. induction a as [|x a IH]; intros [|y b]; auto.
  rewrite !str_ltb_cons.
  destruct (N.lt_trichotomy x y) as [?|[->|?]]; auto.
  destruct (IH b) as [?|[->|?]]; auto.
Qed.

Lemma key_ltb_spec a1 b1 c1 a2 b2 c2 :
  key_ltb (a1, b1, c1) (a2, b2, c2) = true ↔
  a1 < a2 ∨ (a1 = a2 ∧ (b1 < b2 ∨ (b1 = b2 ∧ str_ltb c1 c2 = true))).
Proof.
  cbn. rewrite !orb_true_iff, !andb_true_iff, !orb_true_iff, !andb_true_iff,
    !Z.ltb_lt, !Z.eqb_eq. done.
Qed.

Lemma key_ltb_irrefl k : key_ltb k k = false.
Proof.
  destruct k as [[a b] c]. apply not_true_is_false.
  rewrite key_ltb_spec, str_ltb_irrefl. intros [?|[_ [?|[_ ?]]]]; done || lia.
Qed.

Lemma key_ltb_trans k1 k2 k3 :
  key_ltb k1 k2 = true → key_ltb k2 k3 = true → key_ltb k1 k3 = true.
Proof.
  destruct k1 as [[a1 b1] c1], k2 as [[a2 b2] c2], k3 as [[a3 b3] c3].
  rewrite !key_ltb_spec.
  intros [?|[-> [?|[-> ?]]]] [?|[-> [?|[-> ?]]]]; eauto 6 using str_ltb_trans with lia.
Qed.

Lemma key_ltb_trichotomy k1 k2 :
  key_ltb k1 k2 = true ∨ k1 = k2 ∨ key_ltb k2 k1 = true.
Proof.
  destruct k1 as [[a1 b1] c1], k2 as [[a2 b2] c2]. rewrite !key_ltb_spec.
  destruct (Z.lt_trichotomy a1 a2) as [?|[->|?]]; auto.
  destruct (Z.lt_trichotomy b1 b2) as [?|[->|?]]; auto 6.
  destruct (str_ltb_trichotomy c1 c2) as [?|[->|?]]; auto 8.
Qed.

Lemma key_ltb_asym k1 k2 : key_ltb k1 k2 = true → key_ltb k2 k1 = false.
Proof.
  intros H. apply not_true_is_false. intros H'.
  pose proof (key_ltb_trans _ _ _ H H') as Hk.
  by rewrite key_ltb_irrefl in Hk.
Qed.

Lemma key_inj ecdict w1 w2 : key ecdict w1 = key ecdict w2 → w1 = w2.
Proof.
  unfold key. destruct (rank_of w1 ecdict), (rank_of w2 ecdict); congruence.
Qed.

(** The comparison of the keys is the order of the specification. *)
Lemma key_ltb_spec_before ecdict w1 w2 :
  key_ltb (key ecdict w1) (key ecdict w2) = true ↔ spec_before ecdict w1 w2.
Proof.
  unfold key, spec_before.
  destruct (rank_of w1 ecdict) as [r1|], (rank_of w2 ecdict) as [r2|];
    rewrite key_ltb_spec; intuition lia.
Qed.

#[global] Instance rank_le_total ecdict : Total (rank_le ecdict).
Proof.
  intros w1 w2. unfold rank_le.
  destruct (key_ltb (key ecdict w2) (key ecdict w1)) eqn:H; [|by left].
  right. by apply key_ltb_asym.
Qed.

#[global] Instance rank_le_trans ecdict : Transitive (rank_le ecdict).
Proof.
  intros w1 w2 w3. unfold rank_le. intros H12 H23.
  apply not_true_is_false. intros H31.
  destruct (key_ltb_trichotomy (key ecdict w1) (key ecdict w2))
    as [H|[H|H]]; [|congruence..].
  pose proof (key_ltb_trans _ _ _ H31 H). congruence.
Qed.

Lemma StronglySorted_lookup_lt {A} (R : relation A) l i j x y :
  StronglySorted R l → l !! i = Some x → l !! j = Some y → (i < j)%nat →
  R x y.
Proof.
  intros Hs. revert i j. induction Hs as [|a l Hs IH Hall]; intros i j Hi Hj Hij.
  - done.
  - destruct j as [|j]; [lia|]. cbn in Hj.
    destruct i as [|i]; cbn in Hi.
    + injection Hi as ->. rewrite Forall_forall in Hall.
      apply Hall. by eapply list_elem_of_lookup_2.
    + apply (IH i j); [done..|lia].
Qed.

Section sort_words_by_rank_facts.
Context (words : list pystr) (ecdict : gmap pystr ECDictWord).

Lemma sort_words_by_rank_perm :
  sort_words_by_rank words ecdict ≡ₚ elements (list_to_set words : gset pystr).
Proof. apply merge_sort_Permutation. Qed.

Lemma sort_words_by_rank_NoDup : NoDup (sort_words_by_rank words ecdict).
Proof. rewrite sort_words_by_rank_perm. apply NoDup_elements. Qed.

Lemma elem_of_sort_words_by_rank w :
  w ∈ sort_words_by_rank words ecdict ↔ w ∈ words.
Proof.
  rewrite sort_words_by_rank_perm, elem_of_elements. apply elem_of_list_to_set.
Qed.

Lemma sort_words_by_rank_sorted :
  StronglySorted (rank_le ecdict) (sort_words_by_rank words ecdict).
Proof. apply StronglySorted_merge_sort; apply _. Qed.

(** Positions in the output follow the order of the specification. *)
Lemma sort_words_by_rank_positions i j w1 w2 :
  sort_words_by_rank words ecdict !! i = Some w1 →
  sort_words_by_rank words ecdict !! j = Some w2 →
  (i < j)%nat ↔ spec_before ecdict w1 w2.
Proof.
  intros Hi Hj. rewrite <- key_ltb_spec_before. split.
  - intros Hij.
    pose proof (StronglySorted_lookup_lt _ _ _ _ _ _
                  sort_words_by_rank_sorted Hi Hj Hij) as Hle.
    unfold rank_le in Hle.
    destruct (key_ltb_trichotomy (key ecdict w1) (key ecdict w2))
      as [H|[H|H]]; [done| |congruence].
    apply key_inj in H. subst w2.
    pose proof (NoDup_lookup _ _ _ _ sort_words_by_rank_NoDup Hi Hj). lia.
  - intros Hlt.
    destruct (Nat.lt_trichotomy i j) as [?|[->|Hji]]; [done|..].
    + assert (w1 = w2) as -> by congruence.
      by rewrite key_ltb_irrefl in Hlt.
    + pose proof (StronglySorted_lookup_lt _ _ _ _ _ _
                    sort_words_by_rank_sorted Hj Hi Hji) as Hle.
      unfold rank_le in Hle. congruence.
Qed.

End sort_words_by_rank_facts.

#[global] Instance rank_le_antisymm ecdict : AntiSymm (=) (rank_le ecdict).
Proof.
  intros w1 w2. unfold rank_le. intros H12 H21.
  destruct (key_ltb_trichotomy (key ecdict w1) (key ecdict w2))
    as [H|[H|H]]; [congruence| |congruence].
  by apply key_inj in H.
Qed.

Lemma spec_before_position (words : list pystr)
    (ecdict : gmap pystr ECDictWord) w1 w2 :
  w1 ∈ words → w2 ∈ words → spec_before ecdict w1 w2 →
  ∃ i j, sort_words_by_rank words ecdict !! i = Some w1
         ∧ sort_words_by_rank words ecdict !! j = Some w2 ∧ (i < j)%nat.
Proof.
  intros H1 H2 Hb.
  apply elem_of_sort_words_by_rank with (ecdict := ecdict) in H1, H2.
  apply list_elem_of_lookup in H1 as [i Hi], H2 as [j Hj].
  exists i, j. split_and!; [done..|].
  by apply (sort_words_by_rank_positions words ecdict i j w1 w2).
Qed.

(** C4.  The output of the tier ordering holds the words of the batch, each
    once, in the order of the specification, which is a strict total order:
    a word comes before another exactly when it has a known rank and the
    other has none, or both have ranks and its rank is lower (lexical order
    on equal ranks), or neither has a rank and it is lexically smaller.  In
    particular a word of rank r1 comes strictly before a word of rank
    r2 > r1.  The output does not depend on the order in which the set of
    words is walked. *)
Theorem sort_words_by_rank_total_order (words : list pystr)
    (ecdict : gmap pystr ECDictWord) :
  let sorted := sort_words_by_rank words ecdict in
  NoDup sorted ∧
  (∀ w, w ∈ sorted ↔ w ∈ words) ∧
  (∀ w, ¬ spec_before ecdict w w) ∧
  (∀ w1 w2 w3, spec_before ecdict w1 w2 → spec_before ecdict w2 w3 →
               spec_before ecdict w1 w3) ∧
  (∀ w1 w2, w1 ≠ w2 → spec_before ecdict w1 w2 ∨ spec_before ecdict w2 w1) ∧
  (∀ i j w1 w2, sorted !! i = Some w1 → sorted !! j = Some w2 →
                ((i < j)%nat ↔ spec_before ecdict w1 w2)) ∧
  (∀ w1 w2 r1, w1 ∈ words → w2 ∈ words →
     rank_of w1 ecdict = Some r1 → rank_of w2 ecdict = None →
     ∃ i j, sorted !! i = Some w1 ∧ sorted !! j = Some w2 ∧ (i < j)%nat) ∧
  (∀ w1 w2 r1 r2, w1 ∈ words → w2 ∈ words →
     rank_of w1 ecdict = Some r1 → rank_of w2 ecdict = Some r2 → r1 < r2 →
     ∃ i j, sorted !! i = Some w1 ∧ sorted !! j = Some w2 ∧ (i < j)%nat) ∧
  (∀ walk, walk ≡ₚ elements (list_to_set words : gset pystr) →
           merge_sort (rank_le ecdict) walk = sorted).
Proof.
  cbn zeta. split_and!.
  - apply sort_words_by_rank_NoDup.
  - apply elem_of_sort_words_by_rank.
  - intros w. rewrite <- key_ltb_spec_before, key_ltb_irrefl. done.
  - intros w1 w2 w3. rewrite <- !key_ltb_spec_before. apply key_ltb_trans.
  - intros w1 w2 Hne. rewrite <- !key_ltb_spec_before.
    destruct (key_ltb_trichotomy (key ecdict w1) (key ecdict w2))
      as [H|[H|H]]; auto.
    by apply key_inj in H.
  - apply sort_words_by_rank_positions.
  - intros w1 w2 r1 H1 H2 Hr1 Hr2. apply spec_before_position; [done..|].
    unfold spec_before. by rewrite Hr1, Hr2.
  - intros w1 w2 r1 r2 H1 H2 Hr1 Hr2 Hlt. apply spec_before_position; [done..|].
    unfold spec_before. rewrite Hr1, Hr2. by left.
  - intros walk Hwalk. apply (StronglySorted_unique (rank_le ecdict)).
    + apply StronglySorted_merge_sort; apply _.
    + apply sort_words_by_rank_sorted.
    + rewrite merge_sort_Permutation, Hwalk.
      symmetry. apply sort_words_by_rank_perm.
Qed.

(** Of two ranked words of a batch, the one of lower rank is first, whatever
    the order they are given in. *)
Lemma sort_words_by_rank_total_order_witness :
  ∃ i j,
    sort_words_by_rank [py "zephyr"; py "abate"; py "cat"]
      (<[py "cat" := mkECDictWord [] [] (Some 17) ∅ []]> ex_ecdict) !! i
    = Some (py "cat")
    ∧ sort_words_by_rank [py "zephyr"; py "abate"; py "cat"]
        (<[py "cat" := mkECDictWord [] [] (Some 17) ∅ []]> ex_ecdict) !! j
      = Some (py "abate")
    ∧ (i < j)%nat.
Proof.
  destruct (sort_words_by_rank_total_order
              [py "zephyr"; py "abate"; py "cat"]
              (<[py "cat" := mkECDictWord [] [] (Some 17) ∅ []]> ex_ecdict))
    as (_ & _ & _ & _ & _ & _ & _ & H & _).
  apply (H (py "cat") (py "abate") 17 4200).
  - set_solver.
  - set_solver.
  - reflexivity.
  - reflexivity.
  - lia.
Defined.

(** ** Identifiers *)

Lemma digit_of_char d : 0 ≤ d < 10 → digit_of (Z.to_N (48 + d)) = Some d.
Proof.
  intros Hd.
  assert (d = 0 ∨ d = 1 ∨ d = 2 ∨ d = 3 ∨ d = 4 ∨ d = 5 ∨ d = 6 ∨ d = 7
          ∨ d = 8 ∨ d = 9) as H by lia.
  repeat destruct H as [->|H]; try reflexivity. by subst.
Qed.

Lemma int_of_digits_snoc ds d : int_of_digits (ds ++ [d]) = 10 * int_of_digits ds + d.
Proof. unfold int_of_digits. by rewrite foldl_app. Qed.

Lemma digits_from_spec fuel n acc :
  0 ≤ n < 2 ^ Z.of_nat fuel → (0 < fuel)%nat →
  ∃ ds, digits_from fuel n acc = ((λ d, Z.to_N (48 + d)) <$> ds) ++ acc
        ∧ Forall (λ d, 0 ≤ d < 10) ds
        ∧ int_of_digits ds = n
        ∧ n < 10 ^ Z.of_nat (length ds)
        ∧ (length ds = 1%nat
           ∨ (1 < length ds)%nat ∧ 10 ^ (Z.of_nat (length ds) - 1) ≤ n).
Proof.
  revert n acc. induction fuel as [|fuel IH]; intros n acc Hn Hfuel; [lia|].
  cbn [digits_from]. destruct (Z.ltb_spec n 10) as [Hlt|Hge].
  - exists [n]. rewrite Z.mod_small by lia. split_and!.
    + done.
    + constructor; [lia | constructor].
    + cbn. lia.
    + cbn. lia.
    + by left.
  - assert (0 < fuel)%nat as Hfuel'.
    { destruct fuel; [|lia]. cbn in Hn. lia. }
    assert (0 ≤ n / 10 < 2 ^ Z.of_nat fuel) as Hn'.
    { split; [apply Z.div_pos; lia|].
      rewrite Nat2Z.inj_succ, Z.pow_succ_r in Hn by lia.
      apply Z.div_lt_upper_bound; lia. }
    destruct (IH (n / 10) (Z.to_N (48 + n mod 10) :: acc) Hn' Hfuel')
      as (ds & Heq & Hall & Hval & Hub & Hlb).
    exists (ds ++ [n mod 10]). split_and!.
    + rewrite Heq, fmap_app. cbn. by rewrite <- app_assoc.
    + apply Forall_app. split; [done|].
      constructor; [|constructor]. apply Z.mod_pos_bound. lia.
    + rewrite int_of_digits_snoc, Hval. symmetry. apply Z.div_mod. lia.
    + rewrite length_app. cbn [length].
      replace (Z.of_nat (length ds + 1)) with (Z.succ (Z.of_nat (length ds)))
        by lia.
      rewrite Z.pow_succ_r by lia.
      pose proof (Z.div_mod n 10 ltac:(lia)).
      pose proof (Z.mod_pos_bound n 10 ltac:(lia)). lia.
    + right. rewrite length_app. cbn [length].
      replace (Z.of_nat (length ds + 1) - 1) with (Z.of_nat (length ds)) by lia.
      pose proof (Z.div_mod n 10 ltac:(lia)).
      pose proof (Z.mod_pos_bound n 10 ltac:(lia)).
      destruct Hlb as [Hlen|[Hlen Hlb]].
      * rewrite Hlen. cbn. lia.
      * split; [lia|].
        replace (Z.of_nat (length ds))
          with (Z.succ (Z.of_nat (length ds) - 1)) by lia.
        rewrite Z.pow_succ_r; lia.
Qed.

(** [str(n)] of a non-negative [n]: its decimal digits, as many as its
    size asks for. *)
Lemma py_str_spec n :
  0 ≤ n →
  ∃ ds, py_str n = (λ d, Z.to_N (48 + d)) <$> ds
        ∧ Forall (λ d, 0 ≤ d < 10) ds
        ∧ int_of_digits ds = n
        ∧ n < 10 ^ Z.of_nat (length ds)
        ∧ (length ds = 1%nat
           ∨ (1 < length ds)%nat ∧ 10 ^ (Z.of_nat (length ds) - 1) ≤ n).
Proof.
  intros Hn. unfold py_str. rewrite (proj2 (Z.ltb_ge n 0)) by done.
  destruct (digits_from_spec (S (Z.to_nat (Z.log2 n))) n []) as (ds & H & Hr).
  - split; [done|].
    rewrite Nat2Z.inj_succ, Z2Nat.id by apply Z.log2_nonneg.
    destruct (Z.eq_dec n 0) as [->|]; [done|].
    apply Z.log2_spec. lia.
  - lia.
  - exists ds. by rewrite H, app_nil_r.
Qed.

Lemma py_str_length_mono n m :
  0 ≤ n ≤ m → (length (py_str n) ≤ length (py_str m))%nat.
Proof.
  intros [Hn Hnm].
  destruct (py_str_spec n Hn) as (dn & -> & _ & _ & _ & Hlb).
  destruct (py_str_spec m ltac:(lia)) as (dm & -> & _ & _ & Hub & Hlm).
  rewrite !length_fmap.
  destruct (Nat.le_gt_cases (length dn) (length dm)) as [|Hgt]; [done|].
  exfalso. destruct Hlb as [Hlb|[_ Hlb]].
  - destruct Hlm as [|[]]; lia.
  - assert (10 ^ Z.of_nat (length dm) ≤ 10 ^ (Z.of_nat (length dn) - 1)).
    { apply Z.pow_le_mono_r; lia. }
    lia.
Qed.

Lemma mapM_digit_of_chars ds :
  Forall (λ d, 0 ≤ d < 10) ds →
  mapM digit_of ((λ d, Z.to_N (48 + d)) <$> ds) = Some ds.
Proof.
  induction 1 as [|d ds Hd _ IH]; [done|].
  cbn. rewrite digit_of_char by done. cbn. by rewrite IH.
Qed.

Lemma mapM_digit_of_zeros k : mapM digit_of (replicate k 48%N) = Some (replicate k 0).
Proof. induction k as [|k IH]; [done|]. cbn. by rewrite IH. Qed.

Lemma int_of_digits_zeros k ds :
  int_of_digits (replicate k 0 ++ ds) = int_of_digits ds.
Proof. unfold int_of_digits. induction k as [|k IH]; [done|]. cbn. apply IH. Qed.

(** A non-negative number whose digits fit the width is padded to exactly
    that width, and the padded text still denotes the number. *)
Lemma format_0d_spec width n :
  0 ≤ n → (length (py_str n) ≤ width)%nat →
  length (format_0d width n) = width
  ∧ decimal_value (format_0d width n) = Some n.
Proof.
  intros Hn Hlen. unfold format_0d. rewrite (proj2 (Z.ltb_ge n 0)) by done.
  split.
  - rewrite length_app, length_replicate. lia.
  - destruct (py_str_spec n Hn) as (ds & -> & Hall & Hval & _).
    unfold decimal_value.
    rewrite (mapM_Some_2 digit_of _
               (replicate (width - length ((λ d, Z.to_N (48 + d)) <$> ds)) 0
                ++ ds)).
    + cbn. by rewrite int_of_digits_zeros, Hval.
    + apply Forall2_app; apply mapM_Some_1.
      * apply mapM_digit_of_zeros.
      * by apply mapM_digit_of_chars.
Qed.

Section make_entries_facts.
Context (normalize_pos : pystr → pystr) (tier_by_word : gmap pystr pystr)
        (kaj_map : gmap pystr KajWord) (ecdict_map : gmap pystr ECDictWord)
        (awl_words : gset pystr) (xiaolai_tags : gmap pystr (gset pystr)).

Abbreviation entries_from := (make_entries_from normalize_pos tier_by_word
  kaj_map ecdict_map awl_words xiaolai_tags).

Lemma make_entries_from_lookup words idx width entries :
  entries_from idx width words = Ok entries →
  length entries = length words ∧
  ∀ i e, entries !! i = Some e →
    entry_id e = py "toefl_" ++ format_0d width (idx + Z.of_nat i)
    ∧ words !! i = Some (entry_word e)
    ∧ tier_by_word !! entry_word e = Some (entry_tier e).
Proof.
  revert idx entries. induction words as [|w words IH]; intros idx entries H.
  - injection H as <-. split; [done|]. intros i e. by rewrite lookup_nil.
  - cbn in H. destruct (tier_by_word !! w) as [tier|] eqn:Ht; [|done].
    destruct (entries_from (idx + 1) width words) as [rest|] eqn:Hrest;
      [|done].
    injection H as <-. destruct (IH _ _ Hrest) as [Hlen Hall].
    split; [cbn; lia|]. intros [|i] e He; cbn in He.
    + injection He as <-. cbn. by rewrite Z.add_0_r.
    + destruct (Hall i e He) as (Hid & Hw & Htier).
      split_and!; [|done..]. rewrite Hid. do 2 f_equal. lia.
Qed.

(** With a tier for every word the loop raises nothing. *)
Lemma make_entries_from_total words idx width :
  (∀ w, w ∈ words → is_Some (tier_by_word !! w)) →
  ∃ entries, entries_from idx width words = Ok entries.
Proof.
  revert idx. induction words as [|w words IH]; intros idx Hall.
  - by exists [].
  - destruct (Hall w) as [tier Ht]; [by left|].
    destruct (IH (idx + 1)) as [rest Hrest].
    { intros w' Hw'. apply Hall. by right. }
    cbn. rewrite Ht, Hrest. by eexists.
Qed.

End make_entries_facts.

(** C5.  In a list of N entries the identifiers carry, in emission order,
    the numbers 1, 2, ..., N: entry i (from 0) has the prefix followed by
    the decimal digits of i + 1, padded with zeros on the left to the width
    max(4, number of digits of N), the same for every entry of the list. *)
Theorem make_entries_ids normalize_pos tier_by_word kaj_map ecdict_map
    awl_words xiaolai_tags (words_ordered : list pystr) (entries : list Entry) :
  make_entries normalize_pos tier_by_word kaj_map ecdict_map awl_words
               xiaolai_tags words_ordered = Ok entries →
  let N := length words_ordered in
  let width := Nat.max 4 (length (py_str (Z.of_nat N))) in
  length entries = N ∧
  ∀ i e, entries !! i = Some e →
    words_ordered !! i = Some (entry_word e) ∧
    ∃ digits,
      entry_id e = py "toefl_" ++ digits
      ∧ digits = format_0d width (Z.of_nat i + 1)
      ∧ length digits = width
      ∧ decimal_value digits = Some (Z.of_nat i + 1).
Proof.
  intros H. cbn zeta. unfold make_entries in H.
  apply make_entries_from_lookup in H as [Hlen Hall].
  split; [done|]. intros i e He.
  destruct (Hall i e He) as (Hid & Hw & _). split; [done|].
  eexists. split; [|split; [reflexivity|]].
  - rewrite Hid. do 2 f_equal. lia.
  - apply format_0d_spec; [lia|].
    apply lookup_lt_Some in He.
    etrans; [|apply Nat.le_max_r].
    apply py_str_length_mono. lia.
Qed.

(** The two entries of the scenario are numbered 0001 and 0002. *)
Lemma make_entries_ids_witness :
  length ex_core_entries = 2%nat ∧
  ∀ i e, ex_core_entries !! i = Some e →
    [py "abate"; py "zephyr"] !! i = Some (entry_word e) ∧
    ∃ digits,
      entry_id e = py "toefl_" ++ digits
      ∧ digits = format_0d 4 (Z.of_nat i + 1)
      ∧ length digits = 4%nat
      ∧ decimal_value digits = Some (Z.of_nat i + 1).
Proof.
  apply (make_entries_ids id ex_tier ex_kaj ex_ecdict ex_awl ∅
           [py "abate"; py "zephyr"] ex_core_entries).
  vm_compute. reflexivity.
Defined.

(** ** The final lists *)

Lemma elem_of_dedup_from seen l x :
  x ∈ dedup_from seen l ↔ x ∈ l ∧ x ∉ seen.
Proof.
  revert seen. induction l as [|t l IH]; intros seen; cbn.
  - rewrite elem_of_nil. tauto.
  - destruct (decide (t ∈ seen)) as [Hin|Hnin].
    + rewrite IH, elem_of_cons. split; [tauto|].
      intros [[->|?] ?]; [done | tauto].
    + rewrite !elem_of_cons, IH, not_elem_of_union, elem_of_singleton.
      destruct (decide (x = t)) as [->|Hne]; tauto.
Qed.

Lemma NoDup_dedup_from seen l : NoDup (dedup_from seen l).
Proof.
  revert seen. induction l as [|t l IH]; intros seen; cbn.
  - constructor.
  - destruct (decide (t ∈ seen)); [apply IH|].
    constructor; [|apply IH].
    rewrite elem_of_dedup_from, not_elem_of_union, elem_of_singleton. tauto.
Qed.

Lemma dedup_from_app seen l1 l2 :
  dedup_from seen (l1 ++ l2)
  = dedup_from seen l1 ++ dedup_from (list_to_set l1 ∪ seen) l2.
Proof.
  revert seen. induction l1 as [|t l1 IH]; intros seen; cbn.
  - by rewrite union_empty_l_L.
  - destruct (decide (t ∈ seen)) as [Hin|Hnin].
    + rewrite IH. do 2 f_equal. set_solver.
    + cbn. rewrite IH. do 3 f_equal. set_solver.
Qed.

Lemma dedup_from_id seen l :
  NoDup l → (∀ x, x ∈ l → x ∉ seen) → dedup_from seen l = l.
Proof.
  revert seen. induction l as [|t l IH]; intros seen Hnd Hseen; [done|].
  apply NoDup_cons in Hnd as [Ht Hnd]. cbn.
  destruct (decide (t ∈ seen)) as [Hin|_].
  - exfalso. apply (Hseen t); [by left | done].
  - f_equal. apply IH; [done|]. intros x Hx. specialize (Hseen x).
    set_solver.
Qed.

Lemma foldr_insert_lookup (v : pystr) (l : list pystr) (d0 : gmap pystr pystr) x :
  foldr (λ w d, <[w := v]> d) d0 l !! x
  = if decide (x ∈ l) then Some v else d0 !! x.
Proof.
  induction l as [|w l IH]; cbn.
  - rewrite decide_False; [done|]. apply not_elem_of_nil.
  - destruct (decide (w = x)) as [->|Hne].
    + rewrite lookup_insert_eq, decide_True; [done|]. by left.
    + rewrite lookup_insert_ne, IH by done.
      destruct (decide (x ∈ l)).
      * rewrite decide_True; [done|]. by right.
      * rewrite decide_False; [done|].
        intros [->|?]%elem_of_cons; done.
Qed.

Lemma foldr_setdefault_lookup (v : pystr) (l : list pystr)
    (d0 : gmap pystr pystr) x :
  foldr (λ w d, setdefault w v d) d0 l !! x
  = match d0 !! x with
    | Some t => Some t
    | None => if decide (x ∈ l) then Some v else None
    end.
Proof.
  revert x. induction l as [|w l IH]; intros x; cbn.
  - rewrite decide_False by apply not_elem_of_nil. by destruct (d0 !! x).
  - unfold setdefault at 1.
    destruct (foldr _ d0 l !! w) as [t|] eqn:Hw.
    + rewrite IH. destruct (d0 !! x) as [|] eqn:Hx; [done|].
      destruct (decide (x ∈ l)) as [Hin|Hnin].
      * rewrite decide_True; [done|]. by right.
      * rewrite decide_False; [done|].
        intros [->|?]%elem_of_cons; [|done].
        rewrite IH, Hx, decide_False in Hw; done.
    + destruct (decide (w = x)) as [->|Hne].
      * rewrite lookup_insert_eq. rewrite IH in Hw.
        destruct (d0 !! x); [done|].
        rewrite decide_True; [done|]. by left.
      * rewrite lookup_insert_ne, IH by done.
        destruct (d0 !! x); [done|].
        destruct (decide (x ∈ l)) as [Hin|Hnin].
        -- rewrite decide_True; [done|]. by right.
        -- rewrite decide_False; [done|].
           intros [->|?]%elem_of_cons; done.
Qed.

Section assemble_facts.
Context (normalize_pos : pystr → pystr)
        (kaj_map : gmap pystr KajWord) (ecdict_map : gmap pystr ECDictWord)
        (xiaolai_tags : gmap pystr (gset pystr)) (awl_words : gset pystr)
        (core_coca_max full_coca_max : Z).

Abbreviation A := (assemble normalize_pos kaj_map ecdict_map xiaolai_tags
                            awl_words core_coca_max full_coca_max).

(** The dictionary of tier labels holds the first tier of every word. *)
Lemma tier_full_lookup w : tier_full A !! w = first_tier (asm_layers A) w.
Proof.
  cbn -[build_layers]. unfold set_fold. cbn -[build_layers].
  rewrite !foldr_setdefault_lookup, foldr_insert_lookup, lookup_empty.
  unfold first_tier.
  repeat match goal with
         | |- context [decide (w ∈ elements ?X)] =>
             destruct (decide (w ∈ elements X)) as [H|H];
             rewrite elem_of_elements in H;
             [rewrite (decide_True _ _ H) | rewrite (decide_False _ _ H)];
             clear H
         end; done.
Qed.

Lemma tier_core_lookup w :
  tier_core A !! w
  = if decide (w ∈ core (asm_layers A)) then Some (py "core") else None.
Proof.
  cbn -[build_layers]. rewrite lookup_gset_to_gmap.
  destruct (decide (w ∈ _)); [by rewrite option_guard_True
                             | by rewrite option_guard_False].
Qed.

Lemma elem_of_core_order w : w ∈ core_order A ↔ w ∈ core (asm_layers A).
Proof.
  cbn -[build_layers]. by rewrite elem_of_sort_words_by_rank, elem_of_elements.
Qed.

Lemma elem_of_full_order w : w ∈ full_order A ↔ w ∈ full (asm_layers A).
Proof.
  cbn -[build_layers]. rewrite elem_of_dedup_from, !elem_of_app,
    !elem_of_sort_words_by_rank, !elem_of_elements.
  cbn. set_solver.
Qed.

(** The full order starts with the core order. *)
Lemma full_order_prefix : core_order A `prefix_of` full_order A.
Proof.
  cbn -[build_layers]. rewrite dedup_from_app.
  rewrite dedup_from_id.
  - by eexists.
  - apply sort_words_by_rank_NoDup.
  - intros x _. apply not_elem_of_empty.
Qed.

End assemble_facts.

Lemma make_entries_words normalize_pos tier_by_word kaj_map ecdict_map
    awl_words xiaolai_tags words entries :
  make_entries normalize_pos tier_by_word kaj_map ecdict_map awl_words
               xiaolai_tags words = Ok entries →
  entry_word <$> entries = words.
Proof.
  intros H. apply make_entries_from_lookup in H as [Hlen Hall].
  apply list_eq. intros i. rewrite list_lookup_fmap.
  destruct (entries !! i) as [e|] eqn:He; cbn.
  - by destruct (Hall i e He) as (_ & -> & _).
  - symmetry. apply lookup_ge_None. apply lookup_ge_None in He. lia.
Qed.

Lemma make_entries_tier normalize_pos tier_by_word kaj_map ecdict_map
    awl_words xiaolai_tags words entries e :
  make_entries normalize_pos tier_by_word kaj_map ecdict_map awl_words
               xiaolai_tags words = Ok entries →
  e ∈ entries → tier_by_word !! entry_word e = Some (entry_tier e).
Proof.
  intros H [i He]%list_elem_of_lookup.
  apply make_entries_from_lookup in H as [_ Hall].
  by destruct (Hall i e He) as (_ & _ & ?).
Qed.

Section final_lists.
Context (normalize_pos : pystr → pystr)
        (kaj_map : gmap pystr KajWord) (ecdict_map : gmap pystr ECDictWord)
        (xiaolai_tags : gmap pystr (gset pystr)) (awl_words : gset pystr)
        (core_coca_max full_coca_max : Z).

Abbreviation A' := (assemble normalize_pos kaj_map ecdict_map xiaolai_tags
                             awl_words core_coca_max full_coca_max).

(** Both calls of the entry builder in [main] return: no word of either
    order lacks a tier label. *)
Lemma assemble_entries_total :
  ∃ ce fe, core_entries A' = Ok ce ∧ full_entries A' = Ok fe.
Proof.
  destruct (make_entries_from_total normalize_pos (tier_core A') kaj_map
              ecdict_map awl_words xiaolai_tags (core_order A') 1
              (Nat.max 4 (length (py_str (Z.of_nat (length (core_order A')))))))
    as [ce Hce].
  { intros w Hw. rewrite tier_core_lookup.
    apply elem_of_core_order in Hw. by rewrite decide_True. }
  destruct (make_entries_from_total normalize_pos (tier_full A') kaj_map
              ecdict_map awl_words xiaolai_tags (full_order A') 1
              (Nat.max 4 (length (py_str (Z.of_nat (length (full_order A')))))))
    as [fe Hfe].
  { intros w Hw. rewrite tier_full_lookup.
    apply elem_of_full_order, elem_of_full in Hw. unfold first_tier.
    repeat case_decide; try done. tauto. }
  by exists ce, fe.
Qed.

(** C6.  Both entry lists are produced; in each every word occurs exactly
    once (the set of the words has the size of the list), the core list
    holds the words of core and the full list those of full; and every tier
    label is the first tier of its word in the order core, extended,
    subject, supplementary. *)
Theorem final_lists_unique_first_tier :
  let a := assemble normalize_pos kaj_map ecdict_map xiaolai_tags awl_words
                    core_coca_max full_coca_max in
  ∃ ce fe,
    core_entries a = Ok ce ∧ full_entries a = Ok fe ∧
    NoDup (entry_word <$> ce) ∧ NoDup (entry_word <$> fe) ∧
    size (list_to_set (entry_word <$> ce) : gset pystr) = length ce ∧
    size (list_to_set (entry_word <$> fe) : gset pystr) = length fe ∧
    (list_to_set (entry_word <$> ce) : gset pystr) = core (asm_layers a) ∧
    (list_to_set (entry_word <$> fe) : gset pystr) = full (asm_layers a) ∧
    (∀ e, e ∈ ce →
       entry_tier e = py "core"
       ∧ first_tier (asm_layers a) (entry_word e) = Some (entry_tier e)) ∧
    (∀ e, e ∈ fe →
       first_tier (asm_layers a) (entry_word e) = Some (entry_tier e)).
Proof.
  cbn zeta.
  destruct assemble_entries_total as (ce & fe & Hce & Hfe).
  exists ce, fe.
  pose proof (make_entries_words normalize_pos (tier_core A') kaj_map
                ecdict_map awl_words xiaolai_tags (core_order A') ce Hce)
    as Hcw.
  pose proof (make_entries_words normalize_pos (tier_full A') kaj_map
                ecdict_map awl_words xiaolai_tags (full_order A') fe Hfe)
    as Hfw.
  assert (NoDup (entry_word <$> ce)) as Hnc.
  { rewrite Hcw. apply sort_words_by_rank_NoDup. }
  assert (NoDup (entry_word <$> fe)) as Hnf.
  { rewrite Hfw. apply NoDup_dedup_from. }
  split_and!; try done.
  - rewrite size_list_to_set by done. by rewrite length_fmap.
  - rewrite size_list_to_set by done. by rewrite length_fmap.
  - apply set_eq. intros w.
    by rewrite elem_of_list_to_set, Hcw, elem_of_core_order.
  - apply set_eq. intros w.
    by rewrite elem_of_list_to_set, Hfw, elem_of_full_order.
  - intros e He.
    pose proof (make_entries_tier normalize_pos (tier_core A') kaj_map
                  ecdict_map awl_words xiaolai_tags (core_order A') ce e
                  Hce He) as Ht.
    rewrite tier_core_lookup in Ht.
    destruct (decide (entry_word e ∈ core (asm_layers A'))) as [Hin|];
      [|done].
    injection Ht as <-. split; [done|].
    unfold first_tier. by rewrite decide_True.
  - intros e He.
    pose proof (make_entries_tier normalize_pos (tier_full A') kaj_map
                  ecdict_map awl_words xiaolai_tags (full_order A') fe e
                  Hfe He) as Ht.
    by rewrite tier_full_lookup in Ht.
Qed.

(** C9.  The core order is a prefix of the full order, and so the first
    len(core) words of the full list are the words of the core list, in the
    same order. *)
Theorem core_list_prefix_of_full_list :
  let a := assemble normalize_pos kaj_map ecdict_map xiaolai_tags awl_words
                    core_coca_max full_coca_max in
  core_order a `prefix_of` full_order a ∧
  ∃ ce fe,
    core_entries a = Ok ce ∧ full_entries a = Ok fe ∧
    (length ce ≤ length fe)%nat ∧
    entry_word <$> take (length ce) fe = entry_word <$> ce.
Proof.
  cbn zeta.
  pose proof (full_order_prefix normalize_pos kaj_map ecdict_map xiaolai_tags
                awl_words core_coca_max full_coca_max) as Hpre.
  split; [done|].
  destruct assemble_entries_total as (ce & fe & Hce & Hfe).
  exists ce, fe.
  pose proof (make_entries_words normalize_pos (tier_core A') kaj_map
                ecdict_map awl_words xiaolai_tags (core_order A') ce Hce)
    as Hcw.
  pose proof (make_entries_words normalize_pos (tier_full A') kaj_map
                ecdict_map awl_words xiaolai_tags (full_order A') fe Hfe)
    as Hfw.
  destruct Hpre as [k Hk].
  assert (length ce = length (core_order A')) as Hlc
    by (by rewrite <- Hcw, length_fmap).
  split_and!; [done..| |].
  - apply (f_equal length) in Hfw. rewrite length_fmap, Hk, length_app in Hfw.
    lia.
  - rewrite fmap_take, Hfw, Hk, Hcw, Hlc. apply take_app_length.
Qed.

End final_lists.

(** The lists of the scenario. *)
Lemma final_lists_unique_first_tier_witness :
  ∃ ce fe,
    core_entries (assemble id ex_kaj ex_ecdict ∅ ex_awl 5000 15000) = Ok ce ∧
    full_entries (assemble id ex_kaj ex_ecdict ∅ ex_awl 5000 15000) = Ok fe ∧
    NoDup (entry_word <$> ce) ∧ NoDup (entry_word <$> fe).
Proof.
  destruct (final_lists_unique_first_tier id ex_kaj ex_ecdict ∅ ex_awl
              5000 15000) as (ce & fe & Hce & Hfe & Hnc & Hnf & _).
  exists ce, fe. exact (conj Hce (conj Hfe (conj Hnc Hnf))).
Defined.

Lemma core_list_prefix_of_full_list_witness :
  core_order (assemble id ex_kaj ex_ecdict ∅ ex_awl 5000 15000)
  `prefix_of` full_order (assemble id ex_kaj ex_ecdict ∅ ex_awl 5000 15000).
Proof.
  exact (proj1 (core_list_prefix_of_full_list id ex_kaj ex_ecdict ∅ ex_awl
                  5000 15000)).
Defined.

(** ** The run *)

(** C7.  With a non-positive threshold, or fullMax below coreMax, the run
    raises a configuration error before anything else happens: the trace of
    the run is empty, so no source is downloaded, checked or loaded, whatever
    the outside would have answered. *)
Theorem main_rejects_bad_thresholds {Obj : Type}
    (parse_kaj_entry : Obj → result (option (pystr * KajWord)))
    (py_float : pystr → result spec_float)
    (normalize_word : pystr → pystr) (WORD_RE : pystr → bool)
    (normalize_phonetic normalize_pos clean_ecdict_translation : pystr → pystr)
    (parse_ecdict_tags : pystr → gset pystr)
    (args : Args) (world : World Obj) :
  args_core_coca_max args ≤ 0 ∨ args_full_coca_max args ≤ 0
    ∨ args_full_coca_max args < args_core_coca_max args →
  main parse_kaj_entry py_float normalize_word WORD_RE normalize_phonetic
       normalize_pos clean_ecdict_translation parse_ecdict_tags args world
  = ([], Raise ValueError).
Proof.
  intros H. unfold main.
  destruct (Z.leb_spec (args_core_coca_max args) 0) as [|H1]; [done|].
  destruct (Z.leb_spec (args_full_coca_max args) 0) as [|H2]; [done|].
  cbn [orb].
  destruct (Z.ltb_spec (args_full_coca_max args) (args_core_coca_max args));
    [done|lia].
Qed.

(** A run with coreMax = 0 stops at once. *)
Lemma main_rejects_bad_thresholds_witness :
  main (λ _ : (), Ok None) float_ascii id (λ _, true) id id id (λ _, ∅)
       (mkArgs false 0 15000 []) ex_world
  = ([], Raise ValueError).
Proof.
  apply (main_rejects_bad_thresholds (λ _ : (), Ok None) float_ascii id
           (λ _, true) id id id (λ _, ∅) (mkArgs false 0 15000 []) ex_world).
  left. cbn. lia.
Defined.

(** With valid thresholds the run goes on to the sources: here it checks
    them, loads the four of them and writes the three outputs. *)
Lemma main_valid_thresholds_run :
  main (λ _ : (), Ok None) float_ascii id (λ _, true) id id id (λ _, ∅)
       (mkArgs false 5000 15000 []) ex_world
  = ([AssertSourcesExist; Log Step2; LoadKajweb; LoadEcdict; LoadXiaolai;
      LoadAwl; Log Step3; Log Step4; Log Step5; Log Step6;
      WriteCoreJson []; WriteFullJson [];
      WriteStats
        {| core_total := 0; stat_layer_a := 0; stat_layer_b := 0;
           full_total := 0; stat_layer_c := 0; stat_layer_d := 0;
           stat_layer_e := 0;
           core_phonetic_coverage := (0, 0, S754_zero false);
           core_coca_coverage := (0, 0, S754_zero false);
           core_awl_overlap := 0;
           full_phonetic_coverage := (0, 0, S754_zero false);
           full_coca_coverage := (0, 0, S754_zero false);
           full_awl_overlap := 0;
           subject_counter := ∅ |};
      Log (DoneCounts 0 0); Log DoneDir], Ok 0).
Proof. vm_compute. reflexivity. Qed.

(** ** Ratios *)

Lemma round_half_even_nearest p q :
  0 ≤ p → 0 < q → 2 * Z.abs (round_half_even p q * q - p) ≤ q.
Proof.
  intros Hp Hq. unfold round_half_even.
  pose proof (Z.div_mod p q ltac:(lia)) as Hdm.
  pose proof (Z.mod_pos_bound p q Hq) as Hr.
  destruct (Z.compare_spec (2 * (p mod q)) q) as [He|Hl|Hg];
    [destruct (Z.even (p / q))|..]; nia.
Qed.

(** [log2_ratio] does not overshoot. *)
Lemma log2_ratio_lower p q :
  0 < p → 0 < q → 0 ≤ log2_ratio p q → q * 2 ^ log2_ratio p q ≤ p.
Proof.
  intros Hp Hq. unfold log2_ratio.
  pose proof (Z.log2_spec p Hp) as [Hp1 Hp2].
  pose proof (Z.log2_spec q Hq) as [Hq1 Hq2].
  pose proof (Z.log2_nonneg p). pose proof (Z.log2_nonneg q).
  set (l := Z.log2 p - Z.log2 q).
  destruct (Z.leb_spec 0 l) as [Hl|Hl].
  - destruct (Z.leb_spec (q * 2 ^ l) p) as [Hle|Hgt]; [done|].
    intros Hl1.
    assert (2 ^ Z.succ (Z.log2 q) * 2 ^ (l - 1) = 2 ^ Z.log2 p) as Hpow.
    { rewrite <- Z.pow_add_r by lia. f_equal. lia. }
    assert (0 < 2 ^ (l - 1)) by (apply Z.pow_pos_nonneg; lia).
    nia.
  - destruct (q <=? p * 2 ^ - l); lia.
Qed.

Lemma log2_ratio_upper p q :
  0 < p → 0 < q → p < 2 ^ 1023 * q → log2_ratio p q ≤ 1022.
Proof.
  intros Hp Hq Hlt.
  destruct (Z.le_gt_cases (log2_ratio p q) 1022) as [|Hgt]; [done|].
  exfalso.
  pose proof (log2_ratio_lower p q Hp Hq ltac:(lia)) as Hlow.
  assert (2 ^ 1023 ≤ 2 ^ log2_ratio p q) by (apply Z.pow_le_mono_r; lia).
  nia.
Qed.

(** A quotient below [2 ^ 1023] is within the finite binary64 values. *)
Lemma binary64_of_ratio_finite neg p q :
  0 < p → 0 < q → p < 2 ^ 1023 * q →
  match binary64_of_ratio neg p q with
  | S754_zero _ | S754_finite _ _ _ => True
  | S754_infinity _ | S754_nan => False
  end.
Proof.
  intros Hp Hq Hlt. unfold binary64_of_ratio.
  pose proof (log2_ratio_upper p q Hp Hq Hlt) as HL.
  set (k := Z.max (log2_ratio p q - 52) (-1074)).
  assert (k ≤ 970) as Hk by (unfold k; lia).
  destruct (scaled_round p q k =? 2 ^ 53).
  - change (2 ^ 52) with (Zpos (2 ^ 52)).
    by rewrite (proj2 (Z.leb_le (k + 1) 971)) by lia.
  - destruct (scaled_round p q k); [done| |done].
    by rewrite (proj2 (Z.leb_le k 971)) by lia.
Qed.

Lemma py_truediv_no_raise a b :
  b ≠ 0 → Z.abs a < 2 ^ 1023 * Z.abs b →
  ∃ x, py_truediv a b = Ok x
       ∧ match x with
         | S754_zero _ | S754_finite _ _ _ => True
         | S754_infinity _ | S754_nan => False
         end.
Proof.
  intros Hb Hlt. unfold py_truediv.
  rewrite (proj2 (Z.eqb_neq b 0)) by done.
  destruct (Z.eqb_spec a 0) as [->|Ha]; [by eexists|].
  pose proof (binary64_of_ratio_finite (xorb (a <? 0) (b <? 0)) (Z.abs a)
                (Z.abs b) ltac:(lia) ltac:(lia) Hlt) as Hfin.
  destruct (binary64_of_ratio _ _ _); [by eexists|done|done|by eexists].
Qed.

Lemma count_entries_bounds test entries :
  0 ≤ count_entries test entries ≤ Z.of_nat (length entries).
Proof.
  unfold count_entries.
  pose proof (length_filter (λ e, Is_true (test e)) entries). lia.
Qed.

Lemma calc_ratio_fraction n d :
  0 ≤ n ≤ d → ∃ x, calc_ratio n d = Ok x.
Proof.
  intros Hnd. unfold calc_ratio.
  destruct (Z.leb_spec d 0); [by eexists|].
  destruct (py_truediv_no_raise n d) as (x & Hx & _); [lia| |by eexists].
  assert (1 < 2 ^ 1023) by (by apply Z.pow_gt_1). nia.
Qed.

(** The stats reporter raises nothing: each ratio it asks for is a count
    over the length of its list. *)
Lemma write_stats_total layers ce fe xiaolai_tags awl_words :
  ∃ stats, write_stats layers ce fe xiaolai_tags awl_words = Ok stats.
Proof.
  unfold write_stats.
  destruct (calc_ratio_fraction _ _
              (count_entries_bounds (λ e, truthy (entry_phonetic e)) ce))
    as [r1 ->].
  destruct (calc_ratio_fraction _ _ (count_entries_bounds has_rank ce))
    as [r2 ->].
  destruct (calc_ratio_fraction _ _
              (count_entries_bounds (λ e, truthy (entry_phonetic e)) fe))
    as [r3 ->].
  destruct (calc_ratio_fraction _ _ (count_entries_bounds has_rank fe))
    as [r4 ->].
  cbn. by eexists.
Qed.

(** C8, as amended.  With a denominator that is zero or negative the ratio is
    exactly 0.0 and nothing is raised.  With a positive denominator the ratio
    is the quotient [numerator / denominator] of the interpreter, which
    raises nothing when the quotient is below [2 ^ 1023] in magnitude, in
    particular for every count over the length of its list, as in the stats
    reporter, which therefore raises nothing. *)
Theorem calc_ratio_guarded (numerator denominator : Z) :
  (denominator ≤ 0 → calc_ratio numerator denominator = Ok (S754_zero false)) ∧
  (0 < denominator →
     calc_ratio numerator denominator = py_truediv numerator denominator) ∧
  (0 < denominator → Z.abs numerator < 2 ^ 1023 * denominator →
     ∃ x, calc_ratio numerator denominator = Ok x
          ∧ match x with
            | S754_zero _ | S754_finite _ _ _ => True
            | S754_infinity _ | S754_nan => False
            end) ∧
  (0 ≤ numerator ≤ denominator →
     ∃ x, calc_ratio numerator denominator = Ok x) ∧
  (∀ layers ce fe xiaolai_tags awl_words,
     ∃ stats, write_stats layers ce fe xiaolai_tags awl_words = Ok stats).
Proof.
  unfold calc_ratio. split_and!.
  - intros H. by rewrite (proj2 (Z.leb_le denominator 0)).
  - intros H. by rewrite (proj2 (Z.leb_gt denominator 0)).
  - intros H Hlt. rewrite (proj2 (Z.leb_gt denominator 0)) by done.
    apply py_truediv_no_raise; lia.
  - apply calc_ratio_fraction.
  - apply write_stats_total.
Qed.

(** One entry in three with a phonetic: the ratio is the binary64 nearest
    to 1/3. *)
Lemma calc_ratio_guarded_witness :
  calc_ratio 1 3 = Ok (S754_finite false 6004799503160661 (-54))
  ∧ calc_ratio 1 0 = Ok (S754_zero false).
Proof.
  destruct (calc_ratio_guarded 1 3) as (_ & H & _).
  destruct (calc_ratio_guarded 1 0) as (H0 & _).
  split.
  - rewrite H by lia. vm_compute. reflexivity.
  - apply H0. lia.
Defined.

(** C8 as stated fails: a quotient beyond the binary64 range raises. *)
Lemma calc_ratio_overflow : calc_ratio (2 ^ 1024) 1 = Raise OverflowError.
Proof. vm_compute. reflexivity. Qed.

(** The quotients of the model are those of the IEEE 754 division of the
    standard library. *)
Lemma py_truediv_agrees_SFdiv :
  Forall (λ '(a, b),
            py_truediv (Zpos a) (Zpos b)
            = Ok (SFdiv 53 1024 (S754_finite false a 0) (S754_finite false b 0)))
         [(1, 3); (2, 3); (1, 10); (7, 7); (12345, 100000); (355, 113);
          (1, 2 ^ 1074); (3, 2 ^ 1075); (2 ^ 1023, 1);
          (2 ^ 1024 - 2 ^ 970 - 1, 1); (10 ^ 400, 10 ^ 399)]%positive
  ∧ binary64_of_ratio false (2 ^ 1024) 1
    = SFdiv 53 1024 (S754_finite false (2 ^ 1024) 0) (S754_finite false 1 0).
Proof. split; [repeat constructor|]; vm_compute; reflexivity. Qed.

(** ** Frequency ranks *)

Section parse_coca_rank_facts.
Context (py_float : pystr → result spec_float).

(** What the parser returns, by the outcome of [float] on the stripped
    text. *)
Lemma parse_coca_rank_cases (v : pystr) :
  strip v ≠ [] →
  parse_coca_rank py_float (Some v)
  = match py_float (strip v) with
    | Raise ValueError => Ok None
    | Raise e => Raise e
    | Ok S754_nan => Ok None
    | Ok (S754_infinity _) => Raise OverflowError
    | Ok (S754_zero _) => Ok None
    | Ok (S754_finite sign m e) =>
        let magnitude :=
          if 0 <=? e then Zpos m * 2 ^ e else Zpos m / 2 ^ (- e) in
        if sign then Ok None
        else if 0 <? magnitude then Ok (Some magnitude) else Ok None
    end.
Proof.
  intros Hs. unfold parse_coca_rank.
  destruct (strip v) as [|c t] eqn:Hstrip; [done|]. cbn [truthy negb].
  destruct (py_float (c :: t)) as [[sign|sign| |sign m e]|err]; cbn; try done.
  destruct sign; [|by destruct (0 <? _)].
  set (mag := if 0 <=? e then _ else _).
  assert (0 ≤ mag) as Hmag.
  { unfold mag. destruct (0 <=? e) eqn:He.
    - apply Z.leb_le in He. apply Z.mul_nonneg_nonneg; [lia|].
      by apply Z.pow_nonneg.
    - apply Z.div_pos; [lia|]. apply Z.pow_pos_nonneg; lia. }
  by rewrite (proj2 (Z.ltb_ge 0 (- mag))) by lia.
Qed.

(** Every rank the parser hands out is strictly positive. *)
Lemma parse_coca_rank_positive value n :
  parse_coca_rank py_float value = Ok (Some n) → 0 < n.
Proof.
  unfold parse_coca_rank. destruct value as [v|]; [|done].
  destruct (negb (truthy (strip v))); [done|].
  destruct (x ← py_float (strip v); py_int_of_float x) as [k|[]]; try done.
  destruct (Z.ltb_spec 0 k); [|done]. by intros [= <-].
Qed.

(** Absent, blank or unreadable values give no rank. *)
Lemma parse_coca_rank_absent :
  parse_coca_rank py_float None = Ok None
  ∧ (∀ v, strip v = [] → parse_coca_rank py_float (Some v) = Ok None)
  ∧ (∀ v, py_float (strip v) = Raise ValueError →
          parse_coca_rank py_float (Some v) = Ok None).
Proof.
  split_and!; [done|..].
  - intros v Hv. unfold parse_coca_rank. by rewrite Hv.
  - intros v Hv. unfold parse_coca_rank. rewrite Hv. cbn.
    by destruct (negb (truthy (strip v))).
Qed.

(** An infinity raises, and the exception is not the one caught. *)
Lemma parse_coca_rank_infinity v sign :
  strip v ≠ [] → py_float (strip v) = Ok (S754_infinity sign) →
  parse_coca_rank py_float (Some v) = Raise OverflowError.
Proof. intros Hs Hf. by rewrite parse_coca_rank_cases, Hf. Qed.

Context (normalize_word : pystr → pystr) (WORD_RE : pystr → bool)
        (normalize_phonetic normalize_pos clean_ecdict_translation
           : pystr → pystr)
        (parse_ecdict_tags : pystr → gset pystr).

(** A row whose rank cell parses to no rank loads like the same row with
    no rank cell, so tiers and orders are the same. *)
Lemma load_ecdict_rankless_row l1 l2 w ph tr po tg frq :
  parse_coca_rank py_float frq = Ok None →
  load_ecdict py_float normalize_word WORD_RE normalize_phonetic normalize_pos
    clean_ecdict_translation parse_ecdict_tags
    (l1 ++ mkEcdictRow w ph tr po tg frq :: l2)
  = load_ecdict py_float normalize_word WORD_RE normalize_phonetic
      normalize_pos clean_ecdict_translation parse_ecdict_tags
      (l1 ++ mkEcdictRow w ph tr po tg None :: l2).
Proof.
  intros Hfrq. unfold load_ecdict. rewrite !load_ecdict_from_app.
  destruct (load_ecdict_from _ _ _ _ _ _ _ ∅ l1) as [m|e]; [cbn|done].
  unfold ecdict_step, row_info. cbn. by rewrite Hfrq.
Qed.

End parse_coca_rank_facts.

(** The parser on the cells of a frequency column. *)
Lemma parse_coca_rank_examples :
  parse_coca_rank float_ascii (Some (py "4200")) = Ok (Some 4200)
  ∧ parse_coca_rank float_ascii (Some (py " 4200.9 ")) = Ok (Some 4200)
  ∧ parse_coca_rank float_ascii (Some (py "1e3")) = Ok (Some 1000)
  ∧ parse_coca_rank float_ascii (Some (py "0")) = Ok None
  ∧ parse_coca_rank float_ascii (Some (py "0.5")) = Ok None
  ∧ parse_coca_rank float_ascii (Some (py "-3")) = Ok None
  ∧ parse_coca_rank float_ascii (Some (py "-0.0")) = Ok None
  ∧ parse_coca_rank float_ascii (Some (py "")) = Ok None
  ∧ parse_coca_rank float_ascii (Some (py "n/a")) = Ok None
  ∧ parse_coca_rank float_ascii (Some (py "nan")) = Ok None
  ∧ parse_coca_rank float_ascii None = Ok None
  ∧ parse_coca_rank float_ascii (Some (py "0.99999999999999999999"))
    = Ok (Some 1).
Proof. split_and!; vm_compute; reflexivity. Qed.

(** C10, at the failing input.  A rank cell that reads as a negative
    infinity, or as a negative number beyond the binary64 range, is not
    turned into an absent rank: the conversion to [int] raises
    [OverflowError], which the parser does not catch, and the loader stops
    with it.  The same holds for the positive ones. *)
Theorem parse_coca_rank_overflow_escapes :
  parse_coca_rank float_ascii (Some (py "-inf")) = Raise OverflowError
  ∧ parse_coca_rank float_ascii (Some (py "-1e999")) = Raise OverflowError
  ∧ parse_coca_rank float_ascii (Some (py "inf")) = Raise OverflowError
  ∧ parse_coca_rank float_ascii (Some (py "1e999")) = Raise OverflowError
  ∧ load_ecdict float_ascii id (λ _, true) id id id (λ _, ∅)
      [mkEcdictRow (py "abate") None None None None (Some (py "-inf"))]
    = Raise OverflowError.
Proof. split_and!; vm_compute; reflexivity. Qed.

(** * Further properties of the pipeline *)

(** ** The layers as functions of the thresholds *)

Section layers_thresholds.
Context (kaj_map : gmap pystr KajWord) (ecdict_map : gmap pystr ECDictWord)
        (xiaolai_tags : gmap pystr (gset pystr)) (awl_words : gset pystr).

Abbreviation layers_at c f :=
  (build_layers kaj_map ecdict_map xiaolai_tags awl_words c f).

Lemma exam_tagged_dec w : Decision (exam_tagged ecdict_map w).
Proof.
  unfold exam_tagged. destruct (ecdict_map !! w) as [info|].
  - destruct (decide (exam_tag ∈ tags info)) as [Hin|Hnin].
    + left. by exists info.
    + right. intros (info' & [= <-] & ?). done.
  - right. by intros (info' & ? & _).
Qed.

Lemma elem_of_full_closed c f w :
  c ≤ f →
  w ∈ full (layers_at c f) ↔
  (w ∈ dom kaj_map
   ∧ ((∃ r, rank_of w ecdict_map = Some r ∧ r ≤ f) ∨ w ∈ awl_words))
  ∨ w ∈ dom xiaolai_tags
  ∨ exam_tagged ecdict_map w.
Proof.
  intros Hcf.
  rewrite elem_of_full, elem_of_layer_e, elem_of_layer_d, elem_of_layer_c,
    elem_of_core, elem_of_layer_a, elem_of_layer_b.
  destruct (decide (w ∈ dom kaj_map)) as [Hk|Hk];
    destruct (decide (w ∈ awl_words)) as [Ha|Ha];
    destruct (decide (w ∈ dom xiaolai_tags)) as [Hx|Hx];
    destruct (exam_tagged_dec w) as [He|He];
    destruct (rank_of w ecdict_map) as [r|];
    try destruct (Z.le_gt_cases r c);
    try destruct (Z.le_gt_cases r f);
    naive_solver eauto with lia.
Qed.

Lemma elem_of_core_closed c f w :
  w ∈ core (layers_at c f) ↔
  w ∈ dom kaj_map
  ∧ ((∃ r, rank_of w ecdict_map = Some r ∧ r ≤ c) ∨ w ∈ awl_words).
Proof. rewrite elem_of_core, elem_of_layer_a, elem_of_layer_b. tauto. Qed.

Lemma core_mono c1 c2 f1 f2 :
  c1 ≤ c2 → core (layers_at c1 f1) ⊆ core (layers_at c2 f2).
Proof.
  intros Hc w. rewrite !elem_of_core_closed.
  intros [Hk [(r & Hr & Hle)|Ha]]; (split; [done|]); [left|by right].
  exists r. split; [done|lia].
Qed.

Lemma later_layers_anti c1 c2 f w :
  c1 ≤ c2 → c2 ≤ f →
  (w ∈ layer_c (layers_at c2 f) → w ∈ layer_c (layers_at c1 f))
  ∧ (w ∈ layer_d (layers_at c2 f) → w ∈ layer_d (layers_at c1 f))
  ∧ (w ∈ layer_e (layers_at c2 f) → w ∈ layer_e (layers_at c1 f)).
Proof.
  intros Hc Hf.
  rewrite !elem_of_layer_e, !elem_of_layer_d, !elem_of_layer_c,
    !elem_of_core_closed.
  destruct (decide (w ∈ dom kaj_map)) as [Hk|Hk];
    destruct (decide (w ∈ awl_words)) as [Ha|Ha];
    destruct (decide (w ∈ dom xiaolai_tags)) as [Hx|Hx];
    destruct (exam_tagged_dec w) as [He|He];
    destruct (rank_of w ecdict_map) as [r|];
    try destruct (Z.le_gt_cases r c1);
    try destruct (Z.le_gt_cases r c2);
    try destruct (Z.le_gt_cases r f);
    naive_solver eauto with lia.
Qed.

End layers_thresholds.

(** X1.  With coreMax <= fullMax the full vocabulary has a closed form in
    which coreMax does not occur: a word is in full exactly when it is a
    headword with a known rank <= fullMax, or an academic headword, or
    subject-tagged, or exam-tagged in the frequency source. *)
Theorem build_layers_full_closed_form kaj_map ecdict_map xiaolai_tags awl_words
    (core_coca_max full_coca_max : Z) (w : pystr) :
  core_coca_max ≤ full_coca_max →
  w ∈ full (build_layers kaj_map ecdict_map xiaolai_tags awl_words
                         core_coca_max full_coca_max) ↔
  (w ∈ dom kaj_map
   ∧ ((∃ r, rank_of w ecdict_map = Some r ∧ r ≤ full_coca_max)
      ∨ w ∈ awl_words))
  ∨ w ∈ dom xiaolai_tags
  ∨ exam_tagged ecdict_map w.
Proof. apply elem_of_full_closed. Qed.

(** A ranked headword between the thresholds is in full. *)
Lemma build_layers_full_closed_form_witness :
  py "abate" ∈ full (build_layers ex_kaj ex_ecdict ∅ ex_awl 100 5000).
Proof.
  apply (build_layers_full_closed_form ex_kaj ex_ecdict ∅ ex_awl 100 5000
           (py "abate")); [lia|].
  left. split.
  - unfold ex_kaj. rewrite dom_insert_L. set_solver.
  - left. exists 4200. split; [reflexivity | lia].
Defined.

(** X2.  Raising coreMax (below fullMax) only promotes words: core grows,
    each of layerC, layerD and layerE shrinks, and full stays the same
    set. *)
Theorem build_layers_core_max_promotes kaj_map ecdict_map xiaolai_tags
    awl_words (c1 c2 full_coca_max : Z) :
  c1 ≤ c2 → c2 ≤ full_coca_max →
  let L1 := build_layers kaj_map ecdict_map xiaolai_tags awl_words
                         c1 full_coca_max in
  let L2 := build_layers kaj_map ecdict_map xiaolai_tags awl_words
                         c2 full_coca_max in
  core L1 ⊆ core L2 ∧ layer_c L2 ⊆ layer_c L1 ∧ layer_d L2 ⊆ layer_d L1
  ∧ layer_e L2 ⊆ layer_e L1 ∧ full L1 = full L2.
Proof.
  intros H12 H2f. cbn zeta. split_and!.
  - by apply core_mono.
  - intros w. by apply later_layers_anti.
  - intros w. by apply later_layers_anti.
  - intros w. by apply later_layers_anti.
  - apply set_eq. intros w. rewrite !elem_of_full_closed by lia. done.
Qed.

(** From coreMax 100 to 5000 the ranked headword moves from layerC to core. *)
Lemma build_layers_core_max_promotes_witness :
  core (build_layers ex_kaj ex_ecdict ∅ ex_awl 100 15000)
  ⊆ core (build_layers ex_kaj ex_ecdict ∅ ex_awl 5000 15000)
  ∧ full (build_layers ex_kaj ex_ecdict ∅ ex_awl 100 15000)
    = full (build_layers ex_kaj ex_ecdict ∅ ex_awl 5000 15000).
Proof.
  destruct (build_layers_core_max_promotes ex_kaj ex_ecdict ∅ ex_awl
              100 5000 15000 ltac:(lia) ltac:(lia)) as (H1 & _ & _ & _ & H2).
  exact (conj H1 H2).
Defined.

(** ** The order of the full list *)

Lemma length_sort_words_by_rank (X : gset pystr) ecdict :
  length (sort_words_by_rank (elements X) ecdict) = size X.
Proof.
  rewrite sort_words_by_rank_perm, list_to_set_elements_L. done.
Qed.

Lemma elem_of_sort_elements (X : gset pystr) ecdict w :
  w ∈ sort_words_by_rank (elements X) ecdict ↔ w ∈ X.
Proof. by rewrite elem_of_sort_words_by_rank, elem_of_elements. Qed.

Lemma fmap_const_replicate {A B} (f : A → B) (c : B) (l : list A) :
  (∀ x, x ∈ l → f x = c) → f <$> l = replicate (length l) c.
Proof.
  induction l as [|x l IH]; intros H; [done|]. cbn. f_equal.
  - apply H. by left.
  - apply IH. intros y Hy. apply H. by right.
Qed.

Section first_tier_facts.
Context (kaj_map : gmap pystr KajWord) (ecdict_map : gmap pystr ECDictWord)
        (xiaolai_tags : gmap pystr (gset pystr)) (awl_words : gset pystr)
        (core_coca_max full_coca_max : Z).

Abbreviation layL := (build_layers kaj_map ecdict_map xiaolai_tags awl_words
                                   core_coca_max full_coca_max).

Lemma first_tier_core w : w ∈ core layL → first_tier layL w = Some (py "core").
Proof. intros H. unfold first_tier. by rewrite decide_True. Qed.

Lemma first_tier_layer_c w :
  w ∈ layer_c layL → first_tier layL w = Some (py "extended").
Proof.
  intros H. unfold first_tier.
  rewrite decide_False, decide_True; [done..|].
  apply elem_of_layer_c in H. tauto.
Qed.

Lemma first_tier_layer_d w :
  w ∈ layer_d layL → first_tier layL w = Some (py "subject").
Proof.
  intros H. unfold first_tier. apply elem_of_layer_d in H as H'.
  rewrite decide_False, decide_False, decide_True; tauto.
Qed.

Lemma first_tier_layer_e w :
  w ∈ layer_e layL → first_tier layL w = Some (py "supplementary").
Proof.
  intros H. unfold first_tier. apply elem_of_layer_e in H as H'.
  rewrite decide_False, decide_False, decide_False, decide_True; tauto.
Qed.

End first_tier_facts.

Section full_order_facts.
Context (normalize_pos : pystr → pystr)
        (kaj_map : gmap pystr KajWord) (ecdict_map : gmap pystr ECDictWord)
        (xiaolai_tags : gmap pystr (gset pystr)) (awl_words : gset pystr)
        (core_coca_max full_coca_max : Z).

Abbreviation asm := (assemble normalize_pos kaj_map ecdict_map xiaolai_tags
                              awl_words core_coca_max full_coca_max).
Abbreviation lay := (build_layers kaj_map ecdict_map xiaolai_tags awl_words
                                  core_coca_max full_coca_max).

(** The removal of repeats finds none: the four layers are disjoint. *)
Lemma full_order_concat :
  full_order asm
  = sort_words_by_rank (elements (core lay)) ecdict_map
    ++ sort_words_by_rank (elements (layer_c lay)) ecdict_map
    ++ sort_words_by_rank (elements (layer_d lay)) ecdict_map
    ++ sort_words_by_rank (elements (layer_e lay)) ecdict_map.
Proof.
  cbn -[build_layers]. apply dedup_from_id; [|intros; apply not_elem_of_empty].
  repeat (apply NoDup_app; split_and!; try apply sort_words_by_rank_NoDup).
  - intros w. rewrite !elem_of_app, !elem_of_sort_elements.
    rewrite elem_of_layer_c, elem_of_layer_d, elem_of_layer_e. tauto.
  - intros w. rewrite !elem_of_app, !elem_of_sort_elements.
    rewrite elem_of_layer_d, elem_of_layer_e. tauto.
  - intros w. rewrite !elem_of_sort_elements, elem_of_layer_e. tauto.
Qed.

(** X3.  The removal of repeats from the full order removes nothing: the
    full list is the four tiers one after the other, each in its own order,
    its length is the sum of the sizes of core, layerC, layerD and layerE,
    and its tier labels run core, extended, subject, supplementary in
    blocks of these sizes. *)
Theorem full_list_is_tier_blocks :
  let a := assemble normalize_pos kaj_map ecdict_map xiaolai_tags awl_words
                    core_coca_max full_coca_max in
  let L := asm_layers a in
  ∃ fe,
    full_entries a = Ok fe ∧
    entry_word <$> fe
    = sort_words_by_rank (elements (core L)) ecdict_map
      ++ sort_words_by_rank (elements (layer_c L)) ecdict_map
      ++ sort_words_by_rank (elements (layer_d L)) ecdict_map
      ++ sort_words_by_rank (elements (layer_e L)) ecdict_map ∧
    length fe
    = (size (core L) + size (layer_c L) + size (layer_d L)
       + size (layer_e L))%nat ∧
    entry_tier <$> fe
    = replicate (size (core L)) (py "core")
      ++ replicate (size (layer_c L)) (py "extended")
      ++ replicate (size (layer_d L)) (py "subject")
      ++ replicate (size (layer_e L)) (py "supplementary").
Proof.
  cbn zeta.
  destruct (assemble_entries_total normalize_pos kaj_map ecdict_map
              xiaolai_tags awl_words core_coca_max full_coca_max)
    as (ce & fe & Hce & Hfe).
  exists fe. split; [done|].
  pose proof (make_entries_words normalize_pos (tier_full asm) kaj_map
                ecdict_map awl_words xiaolai_tags (full_order asm) fe Hfe)
    as Hfw.
  rewrite full_order_concat in Hfw.
  change (asm_layers asm) with lay.
  split; [done|]. split.
  - apply (f_equal length) in Hfw.
    rewrite length_fmap, !length_app, !length_sort_words_by_rank in Hfw. lia.
  - assert (Some <$> (entry_tier <$> fe)
            = first_tier lay <$> (entry_word <$> fe)) as Htier.
    { rewrite <- !list_fmap_compose. apply list_fmap_ext.
      intros i e He. cbn.
      pose proof (tier_full_lookup normalize_pos kaj_map ecdict_map
                    xiaolai_tags awl_words core_coca_max full_coca_max
                    (entry_word e)) as Hl.
      change (asm_layers asm) with lay in Hl. rewrite <- Hl. symmetry.
      apply (make_entries_tier normalize_pos (tier_full asm) kaj_map
               ecdict_map awl_words xiaolai_tags (full_order asm) fe e Hfe).
      by eapply list_elem_of_lookup_2. }
    rewrite Hfw, !fmap_app in Htier.
    rewrite (fmap_const_replicate (first_tier lay) (Some (py "core")))
      in Htier by (intros w Hw; apply first_tier_core;
                   by apply elem_of_sort_elements in Hw).
    rewrite (fmap_const_replicate (first_tier lay) (Some (py "extended")))
      in Htier by (intros w Hw; apply first_tier_layer_c;
                   by apply elem_of_sort_elements in Hw).
    rewrite (fmap_const_replicate (first_tier lay) (Some (py "subject")))
      in Htier by (intros w Hw; apply first_tier_layer_d;
                   by apply elem_of_sort_elements in Hw).
    rewrite (fmap_const_replicate (first_tier lay) (Some (py "supplementary")))
      in Htier by (intros w Hw; apply first_tier_layer_e;
                   by apply elem_of_sort_elements in Hw).
    rewrite !length_sort_words_by_rank in Htier.
    rewrite <- !(fmap_replicate (@Some pystr)), <- !fmap_app in Htier.
    by apply (inj (fmap Some)) in Htier.
Qed.

End full_order_facts.

(** ** The entry builder *)

Section make_entries_more.
Context (normalize_pos : pystr → pystr) (tier_by_word : gmap pystr pystr)
        (kaj_map : gmap pystr KajWord) (ecdict_map : gmap pystr ECDictWord)
        (awl_words : gset pystr) (xiaolai_tags : gmap pystr (gset pystr)).

Abbreviation build_from := (make_entries_from normalize_pos tier_by_word
  kaj_map ecdict_map awl_words xiaolai_tags).
Abbreviation build := (make_entries normalize_pos tier_by_word
  kaj_map ecdict_map awl_words xiaolai_tags).

(** The loop raises nothing but [KeyError], and only at a word without a
    tier. *)
Lemma make_entries_from_raise words idx width e :
  build_from idx width words = Raise e →
  e = KeyError ∧ Exists (λ w, tier_by_word !! w = None) words.
Proof.
  revert idx. induction words as [|w words IH]; intros idx H; [done|].
  cbn in H. destruct (tier_by_word !! w) as [tier|] eqn:Ht.
  - destruct (build_from (idx + 1) width words) as [rest|e'] eqn:Hrest;
      [done|].
    injection H as <-. destruct (IH _ Hrest) as [-> Hex].
    split; [done|]. by right.
  - injection H as <-. split; [done|]. by left.
Qed.

(** The fields an entry takes from the sources. *)
Lemma make_entries_from_fields words idx width entries i e :
  build_from idx width words = Ok entries → entries !! i = Some e →
  entry_coca_rank e = rank_of (entry_word e) ecdict_map
  ∧ entry_phonetic e = from_option phonetic [] (ecdict_map !! entry_word e)
  ∧ entry_meaning e = choose_meaning (entry_word e) kaj_map ecdict_map
  ∧ entry_pos e = choose_pos normalize_pos (entry_word e) kaj_map ecdict_map
  ∧ entry_tags e = build_tags (entry_word e) awl_words xiaolai_tags ecdict_map
  ∧ entry_example e = [].
Proof.
  revert idx entries i.
  induction words as [|w words IH]; intros idx entries i H He.
  - injection H as <-. by rewrite lookup_nil in He.
  - cbn in H. destruct (tier_by_word !! w) as [tier|]; [|done].
    destruct (build_from (idx + 1) width words) as [rest|] eqn:Hrest; [|done].
    injection H as <-. destruct i as [|i]; cbn in He.
    + injection He as <-. cbn. unfold rank_of.
      by destruct (ecdict_map !! w).
    + by apply (IH (idx + 1) rest i).
Qed.

(** The number in the identifier of the entry at a position. *)
Lemma make_entries_id_value words entries i e :
  build words = Ok entries → entries !! i = Some e →
  ∃ digits, entry_id e = py "toefl_" ++ digits
            ∧ decimal_value digits = Some (Z.of_nat i + 1).
Proof.
  intros H He. unfold make_entries in H.
  destruct (make_entries_from_lookup _ _ _ _ _ _ _ _ _ _ H) as [Hlen Hall].
  destruct (Hall i e He) as (Hid & _ & _).
  eexists. split; [exact Hid|].
  replace (1 + Z.of_nat i) with (Z.of_nat i + 1) by lia.
  apply format_0d_spec; [lia|].
  apply lookup_lt_Some in He.
  etrans; [|apply Nat.le_max_r].
  apply py_str_length_mono. lia.
Qed.

End make_entries_more.

(** X4.  The entry builder fails only with [KeyError], and exactly when some
    word of the order has no tier label; when it returns, the entries carry
    the words of the order, in order. *)
Theorem make_entries_KeyError_iff normalize_pos tier_by_word kaj_map
    ecdict_map awl_words xiaolai_tags (words_ordered : list pystr) :
  match make_entries normalize_pos tier_by_word kaj_map ecdict_map awl_words
                     xiaolai_tags words_ordered with
  | Ok entries =>
      Forall (λ w, is_Some (tier_by_word !! w)) words_ordered
      ∧ entry_word <$> entries = words_ordered
  | Raise e =>
      e = KeyError ∧ Exists (λ w, tier_by_word !! w = None) words_ordered
  end.
Proof.
  destruct (make_entries _ _ _ _ _ _ _) as [entries|e] eqn:H.
  - pose proof (make_entries_words _ _ _ _ _ _ _ _ H) as Hw.
    split; [|done]. apply Forall_forall. intros w Hin.
    rewrite <- Hw in Hin. apply list_elem_of_fmap in Hin as (e & -> & He).
    rewrite (make_entries_tier _ _ _ _ _ _ _ _ _ H He). by eexists.
  - by apply make_entries_from_raise in H.
Qed.

(** X5.  The identifiers of a list are pairwise different. *)
Theorem make_entries_ids_distinct normalize_pos tier_by_word kaj_map
    ecdict_map awl_words xiaolai_tags (words_ordered : list pystr)
    (entries : list Entry) :
  make_entries normalize_pos tier_by_word kaj_map ecdict_map awl_words
               xiaolai_tags words_ordered = Ok entries →
  NoDup (entry_id <$> entries).
Proof.
  intros H. apply NoDup_alt. intros i j id.
  rewrite !list_lookup_fmap.
  destruct (entries !! i) as [e1|] eqn:H1; [|done].
  destruct (entries !! j) as [e2|] eqn:H2; [|done].
  cbn. intros [= <-] [= Heq].
  destruct (make_entries_id_value _ _ _ _ _ _ _ _ _ _ H H1)
    as (d1 & Hd1 & Hv1).
  destruct (make_entries_id_value _ _ _ _ _ _ _ _ _ _ H H2)
    as (d2 & Hd2 & Hv2).
  rewrite Hd1, Hd2 in Heq. apply app_inv_head in Heq. subst d2.
  rewrite Hv1 in Hv2. injection Hv2. lia.
Qed.

Lemma make_entries_ids_distinct_witness :
  NoDup (entry_id <$> ex_core_entries).
Proof.
  apply (make_entries_ids_distinct id ex_tier ex_kaj ex_ecdict ex_awl ∅
           [py "abate"; py "zephyr"] ex_core_entries).
  vm_compute. reflexivity.
Defined.

(** ** Rank order of the lists *)

Lemma rank_le_ranks ecdict w1 w2 :
  rank_le ecdict w1 w2 →
  match rank_of w1 ecdict, rank_of w2 ecdict with
  | Some r1, Some r2 => r1 ≤ r2
  | None, Some _ => False
  | _, None => True
  end.
Proof.
  unfold rank_le, key.
  destruct (rank_of w1 ecdict) as [r1|], (rank_of w2 ecdict) as [r2|];
    try done.
  intros H. destruct (Z.le_gt_cases r1 r2) as [|Hgt]; [done|].
  assert (key_ltb (0, r2, w2) (0, r1, w1) = true) as Hlt
    by (apply key_ltb_spec; lia).
  congruence.
Qed.

Lemma StronglySorted_weaken {A} (R1 R2 : relation A) l :
  (∀ x y, R1 x y → R2 x y) → StronglySorted R1 l → StronglySorted R2 l.
Proof.
  intros HR. induction 1 as [|x l Hs IH Hall]; constructor; [done|].
  eapply Forall_impl; [exact Hall|]. auto.
Qed.

Section rank_order_facts.
Context (normalize_pos : pystr → pystr)
        (kaj_map : gmap pystr KajWord) (ecdict_map : gmap pystr ECDictWord)
        (xiaolai_tags : gmap pystr (gset pystr)) (awl_words : gset pystr)
        (core_coca_max full_coca_max : Z).

Abbreviation asm' := (assemble normalize_pos kaj_map ecdict_map xiaolai_tags
                               awl_words core_coca_max full_coca_max).
Abbreviation lay' := (build_layers kaj_map ecdict_map xiaolai_tags awl_words
                                   core_coca_max full_coca_max).

(** Two words of the full order with the same tier are in rank order. *)
Lemma full_order_sorted_within_tier :
  StronglySorted
    (λ w1 w2, first_tier lay' w1 = first_tier lay' w2 → rank_le ecdict_map w1 w2)
    (full_order asm').
Proof.
  rewrite full_order_concat.
  assert (∀ X : gset pystr,
            StronglySorted
              (λ w1 w2, first_tier lay' w1 = first_tier lay' w2
                        → rank_le ecdict_map w1 w2)
              (sort_words_by_rank (elements X) ecdict_map)) as Hblock.
  { intros X. eapply StronglySorted_weaken;
      [|apply sort_words_by_rank_sorted]. auto. }
  repeat (apply StronglySorted_app; split_and!; try apply Hblock).
  - intros w1 w2 Hw1 Hw2 Heq. exfalso.
    apply elem_of_sort_elements in Hw1.
    rewrite (first_tier_core _ _ _ _ _ _ _ Hw1) in Heq.
    rewrite !elem_of_app, !elem_of_sort_elements in Hw2.
    destruct Hw2 as [Hw2|[Hw2|Hw2]].
    + by rewrite (first_tier_layer_c _ _ _ _ _ _ _ Hw2) in Heq.
    + by rewrite (first_tier_layer_d _ _ _ _ _ _ _ Hw2) in Heq.
    + by rewrite (first_tier_layer_e _ _ _ _ _ _ _ Hw2) in Heq.
  - intros w1 w2 Hw1 Hw2 Heq. exfalso.
    apply elem_of_sort_elements in Hw1.
    rewrite (first_tier_layer_c _ _ _ _ _ _ _ Hw1) in Heq.
    rewrite !elem_of_app, !elem_of_sort_elements in Hw2.
    destruct Hw2 as [Hw2|Hw2].
    + by rewrite (first_tier_layer_d _ _ _ _ _ _ _ Hw2) in Heq.
    + by rewrite (first_tier_layer_e _ _ _ _ _ _ _ Hw2) in Heq.
  - intros w1 w2 Hw1 Hw2 Heq. exfalso.
    apply elem_of_sort_elements in Hw1, Hw2.
    rewrite (first_tier_layer_d _ _ _ _ _ _ _ Hw1) in Heq.
    by rewrite (first_tier_layer_e _ _ _ _ _ _ _ Hw2) in Heq.
Qed.

(** X6.  Both lists are in rank order: in the core list, and among the
    entries of one tier in the full list, an entry with a rank never comes
    after an entry without one, and the ranks never decrease. *)
Theorem final_lists_rank_order :
  let a := assemble normalize_pos kaj_map ecdict_map xiaolai_tags awl_words
                    core_coca_max full_coca_max in
  ∃ ce fe,
    core_entries a = Ok ce ∧ full_entries a = Ok fe ∧
    (∀ i j e1 e2, ce !! i = Some e1 → ce !! j = Some e2 → (i < j)%nat →
       match entry_coca_rank e1, entry_coca_rank e2 with
       | Some r1, Some r2 => r1 ≤ r2
       | None, Some _ => False
       | _, None => True
       end) ∧
    (∀ i j e1 e2, fe !! i = Some e1 → fe !! j = Some e2 → (i < j)%nat →
       entry_tier e1 = entry_tier e2 →
       match entry_coca_rank e1, entry_coca_rank e2 with
       | Some r1, Some r2 => r1 ≤ r2
       | None, Some _ => False
       | _, None => True
       end).
Proof.
  cbn zeta.
  destruct (assemble_entries_total normalize_pos kaj_map ecdict_map
              xiaolai_tags awl_words core_coca_max full_coca_max)
    as (ce & fe & Hce & Hfe).
  exists ce, fe. split_and!; [done..| |].
  - intros i j e1 e2 H1 H2 Hij.
    destruct (make_entries_from_lookup _ _ _ _ _ _ _ _ _ _ Hce) as [_ Hall].
    destruct (Hall i e1 H1) as (_ & Hw1 & _).
    destruct (Hall j e2 H2) as (_ & Hw2 & _).
    destruct (make_entries_from_fields _ _ _ _ _ _ _ _ _ _ _ _ Hce H1)
      as (-> & _).
    destruct (make_entries_from_fields _ _ _ _ _ _ _ _ _ _ _ _ Hce H2)
      as (-> & _).
    apply rank_le_ranks.
    exact (StronglySorted_lookup_lt _ _ _ _ _ _
             (sort_words_by_rank_sorted _ _) Hw1 Hw2 Hij).
  - intros i j e1 e2 H1 H2 Hij Htier.
    destruct (make_entries_from_lookup _ _ _ _ _ _ _ _ _ _ Hfe) as [_ Hall].
    destruct (Hall i e1 H1) as (_ & Hw1 & Ht1).
    destruct (Hall j e2 H2) as (_ & Hw2 & Ht2).
    destruct (make_entries_from_fields _ _ _ _ _ _ _ _ _ _ _ _ Hfe H1)
      as (-> & _).
    destruct (make_entries_from_fields _ _ _ _ _ _ _ _ _ _ _ _ Hfe H2)
      as (-> & _).
    apply rank_le_ranks.
    apply (StronglySorted_lookup_lt _ _ _ _ _ _
             full_order_sorted_within_tier Hw1 Hw2 Hij).
    pose proof (tier_full_lookup normalize_pos kaj_map ecdict_map
                  xiaolai_tags awl_words core_coca_max full_coca_max) as Hl.
    change (asm_layers asm') with lay' in Hl.
    rewrite <- !Hl. etrans; [exact Ht1|]. rewrite Htier. by symmetry.
Qed.

End rank_order_facts.

(** ** The figures of the report *)

Lemma write_stats_fields layers ce fe xiaolai_tags awl_words stats :
  write_stats layers ce fe xiaolai_tags awl_words = Ok stats →
  core_total stats = Z.of_nat (length ce)
  ∧ full_total stats = Z.of_nat (length fe)
  ∧ stat_layer_a stats = Z.of_nat (size (layer_a layers))
  ∧ stat_layer_b stats = Z.of_nat (size (layer_b layers))
  ∧ stat_layer_c stats = Z.of_nat (size (layer_c layers))
  ∧ stat_layer_d stats = Z.of_nat (size (layer_d layers))
  ∧ stat_layer_e stats = Z.of_nat (size (layer_e layers))
  ∧ core_awl_overlap stats = Z.of_nat (size (core layers ∩ awl_words))
  ∧ full_awl_overlap stats = Z.of_nat (size (full layers ∩ awl_words))
  ∧ (core_phonetic_coverage stats).1.2 = Z.of_nat (length ce)
  ∧ (core_coca_coverage stats).1.2 = Z.of_nat (length ce)
  ∧ (full_phonetic_coverage stats).1.2 = Z.of_nat (length fe)
  ∧ (full_coca_coverage stats).1.2 = Z.of_nat (length fe)
  ∧ 0 ≤ (core_phonetic_coverage stats).1.1 ≤ Z.of_nat (length ce)
  ∧ 0 ≤ (core_coca_coverage stats).1.1 ≤ Z.of_nat (length ce)
  ∧ 0 ≤ (full_phonetic_coverage stats).1.1 ≤ Z.of_nat (length fe)
  ∧ 0 ≤ (full_coca_coverage stats).1.1 ≤ Z.of_nat (length fe).
Proof.
  unfold write_stats.
  repeat match goal with
         | |- context [calc_ratio ?n ?d] => destruct (calc_ratio n d); cbn
         end; try done.
  intros [= <-]. cbn.
  split_and!; try done; apply count_entries_bounds.
Qed.

Section stats_facts.
Context (normalize_pos : pystr → pystr)
        (kaj_map : gmap pystr KajWord) (ecdict_map : gmap pystr ECDictWord)
        (xiaolai_tags : gmap pystr (gset pystr)) (awl_words : gset pystr)
        (core_coca_max full_coca_max : Z).

Abbreviation asmS := (assemble normalize_pos kaj_map ecdict_map xiaolai_tags
                               awl_words core_coca_max full_coca_max).
Abbreviation layS := (build_layers kaj_map ecdict_map xiaolai_tags awl_words
                                   core_coca_max full_coca_max).

Lemma core_inter_awl : core layS ∩ awl_words = layer_b layS.
Proof.
  apply set_eq. intros w.
  rewrite elem_of_intersection, elem_of_core, elem_of_layer_a, elem_of_layer_b.
  tauto.
Qed.

Lemma length_core_order : length (core_order asmS) = size (core layS).
Proof. cbn -[build_layers]. apply length_sort_words_by_rank. Qed.

Lemma length_full_order :
  length (full_order asmS)
  = (size (core layS) + size (layer_c layS) + size (layer_d layS)
     + size (layer_e layS))%nat.
Proof.
  rewrite full_order_concat, !length_app, !length_sort_words_by_rank. lia.
Qed.

(** X7.  The figures of the report add up, for the lists [main] hands to the
    reporter: the core total is the size of core and at most
    layer_a + layer_b; the full total is the core total plus the sizes of
    layerC, layerD and layerE; the academic overlap of core is the size of
    layerB; and each coverage count lies between 0 and its total. *)
Theorem write_stats_figures_add_up :
  let a := assemble normalize_pos kaj_map ecdict_map xiaolai_tags awl_words
                    core_coca_max full_coca_max in
  ∃ ce fe stats,
    core_entries a = Ok ce ∧ full_entries a = Ok fe ∧
    write_stats (asm_layers a) ce fe xiaolai_tags awl_words = Ok stats ∧
    core_total stats = Z.of_nat (size (core (asm_layers a))) ∧
    core_total stats ≤ stat_layer_a stats + stat_layer_b stats ∧
    full_total stats
    = core_total stats + stat_layer_c stats + stat_layer_d stats
      + stat_layer_e stats ∧
    core_awl_overlap stats = stat_layer_b stats ∧
    core_awl_overlap stats ≤ full_awl_overlap stats ∧
    0 ≤ (core_phonetic_coverage stats).1.1 ≤ core_total stats ∧
    0 ≤ (core_coca_coverage stats).1.1 ≤ core_total stats ∧
    0 ≤ (full_phonetic_coverage stats).1.1 ≤ full_total stats ∧
    0 ≤ (full_coca_coverage stats).1.1 ≤ full_total stats.
Proof.
  cbn zeta.
  destruct (assemble_entries_total normalize_pos kaj_map ecdict_map
              xiaolai_tags awl_words core_coca_max full_coca_max)
    as (ce & fe & Hce & Hfe).
  destruct (write_stats_total (asm_layers asmS) ce fe xiaolai_tags awl_words)
    as [stats Hst].
  exists ce, fe, stats.
  pose proof (make_entries_words normalize_pos (tier_core asmS) kaj_map
                ecdict_map awl_words xiaolai_tags (core_order asmS) ce Hce)
    as Hcw.
  pose proof (make_entries_words normalize_pos (tier_full asmS) kaj_map
                ecdict_map awl_words xiaolai_tags (full_order asmS) fe Hfe)
    as Hfw.
  apply (f_equal length) in Hcw, Hfw.
  rewrite length_fmap in Hcw, Hfw.
  rewrite length_core_order in Hcw. rewrite length_full_order in Hfw.
  destruct (write_stats_fields _ _ _ _ _ _ Hst)
    as (Hct & Hft & Ha & Hb & Hc & Hd & He & Hoc & Hof & _ & _ & _ & _
        & Hp1 & Hp2 & Hp3 & Hp4).
  change (asm_layers asmS) with layS in *.
  assert (size (core layS) ≤ size (layer_a layS) + size (layer_b layS))%nat
    as Hab.
  { change (core layS) with (layer_a layS ∪ layer_b layS).
    rewrite size_union_alt.
    assert (layer_b layS ∖ layer_a layS ⊆ layer_b layS) as Hsub.
    { intros w Hw. apply elem_of_difference in Hw. tauto. }
    apply subseteq_size in Hsub. lia. }
  assert (size (core layS ∩ awl_words) ≤ size (full layS ∩ awl_words))%nat
    as Hov.
  { apply subseteq_size. intros w.
    rewrite !elem_of_intersection, elem_of_full. tauto. }
  rewrite core_inter_awl in Hoc, Hov.
  split; [exact Hce|]. split; [exact Hfe|]. split; [exact Hst|].
  split_and!; lia.
Qed.

End stats_facts.

(** ** Tags of an entry *)

Lemma elem_of_foldl_add_absent (l acc : list pystr) t :
  t ∈ foldl (λ acc t, if decide (t ∈ acc) then acc else acc ++ [t]) acc l
  ↔ t ∈ acc ∨ t ∈ l.
Proof.
  revert acc. induction l as [|x l IH]; intros acc; cbn.
  - rewrite elem_of_nil. tauto.
  - rewrite IH, elem_of_cons. destruct (decide (x ∈ acc)) as [Hin|Hnin].
    + split; [tauto|]. intros [?|[->|?]]; tauto.
    + rewrite elem_of_app, list_elem_of_singleton. tauto.
Qed.

Lemma foldl_add_absent_prefix (l acc : list pystr) :
  acc `prefix_of`
    foldl (λ acc t, if decide (t ∈ acc) then acc else acc ++ [t]) acc l.
Proof.
  revert acc. induction l as [|x l IH]; intros acc; cbn; [done|].
  destruct (decide (x ∈ acc)); [apply IH|].
  etrans; [|apply IH]. by apply prefix_app_r.
Qed.

Lemma dedup_from_empty_elem l t : t ∈ dedup_from ∅ l ↔ t ∈ l.
Proof.
  rewrite elem_of_dedup_from. pose proof (not_elem_of_empty (C:=gset pystr) t).
  tauto.
Qed.

(** X8.  The tags of an entry have no repeats; a label is among them exactly
    when it is one of the two academic markers and the word is academic, or
    a subject label of the word, or the marker of an exam level whose tag
    the frequency record of the word carries; and for an academic word the
    two academic markers come first. *)
Theorem build_tags_content (word : pystr) (awl_words : gset pystr)
    (xiaolai_tags : gmap pystr (gset pystr))
    (ecdict_map : gmap pystr ECDictWord) :
  let tags_out := build_tags word awl_words xiaolai_tags ecdict_map in
  NoDup tags_out ∧
  (∀ t, t ∈ tags_out ↔
     (word ∈ awl_words ∧ (t = py "AWL" ∨ t = [23398; 26415; 36890; 29992]%N))
     ∨ t ∈ default ∅ (xiaolai_tags !! word)
     ∨ (∃ ecd, ecdict_map !! word = Some ecd
               ∧ ((py "cet4" ∈ tags ecd ∧ t = py "CET4")
                  ∨ (py "cet6" ∈ tags ecd ∧ t = py "CET6")))) ∧
  (word ∈ awl_words →
   [py "AWL"; [23398; 26415; 36890; 29992]%N] `prefix_of` tags_out).
Proof.
  cbn zeta. unfold build_tags. split_and!.
  - apply NoDup_dedup_from.
  - intros t. rewrite dedup_from_empty_elem.
    assert (∀ tags0 : list pystr,
              t ∈ foldl (λ acc t, if decide (t ∈ acc) then acc else acc ++ [t])
                    tags0
                    (merge_sort str_le
                       (elements (default ∅ (xiaolai_tags !! word))))
              ↔ t ∈ tags0 ∨ t ∈ default ∅ (xiaolai_tags !! word)) as Hfold.
    { intros tags0.
      by rewrite elem_of_foldl_add_absent, merge_sort_Permutation,
        elem_of_elements. }
    destruct (ecdict_map !! word) as [ecd|].
    + rewrite !elem_of_app, Hfold.
      destruct (decide (word ∈ awl_words)) as [Ha|Ha];
        destruct (decide (py "cet4" ∈ tags ecd)) as [H4|H4];
        destruct (decide (py "cet6" ∈ tags ecd)) as [H6|H6];
        rewrite ?elem_of_cons, ?elem_of_nil;
        (split;
         [ intros [[?|?]|[?|?]]; eauto 10; naive_solver
         | intros [[? ?]|[?|(ecd' & [= <-] & [[? ?]|[? ?]])]];
           eauto 10; naive_solver ]).
    + rewrite Hfold.
      destruct (decide (word ∈ awl_words)) as [Ha|Ha];
        rewrite ?elem_of_cons, ?elem_of_nil; naive_solver.
  - intros Ha. rewrite decide_True by done.
    set (after := match ecdict_map !! word with Some _ => _ | None => _ end).
    assert ([py "AWL"; [23398; 26415; 36890; 29992]%N] `prefix_of` after)
      as [rest ->].
    { unfold after. destruct (ecdict_map !! word).
      - etrans; [apply foldl_add_absent_prefix|]. by apply prefix_app_r.
      - apply foldl_add_absent_prefix. }
    cbn. rewrite decide_False by apply not_elem_of_empty.
    rewrite decide_False.
    + by eexists.
    + rewrite elem_of_union, elem_of_singleton, elem_of_empty.
      intros [?|[]]. discriminate.
Qed.

(** ** What the loaders store *)

Section load_ecdict_content.
Context (py_float : pystr → result spec_float)
        (normalize_word : pystr → pystr) (WORD_RE : pystr → bool)
        (normalize_phonetic normalize_pos clean_ecdict_translation
           : pystr → pystr)
        (parse_ecdict_tags : pystr → gset pystr).

Abbreviation stepE := (ecdict_step py_float normalize_word WORD_RE
  normalize_phonetic normalize_pos clean_ecdict_translation parse_ecdict_tags).
Abbreviation loadE := (load_ecdict py_float normalize_word WORD_RE
  normalize_phonetic normalize_pos clean_ecdict_translation parse_ecdict_tags).
Abbreviation infoE := (row_info py_float normalize_phonetic normalize_pos
  clean_ecdict_translation parse_ecdict_tags).

Lemma load_ecdict_snoc rows r :
  loadE (rows ++ [r]) = (m ← loadE rows; stepE m r).
Proof.
  unfold load_ecdict. rewrite load_ecdict_from_app.
  destruct (load_ecdict_from _ _ _ _ _ _ _ ∅ rows) as [m|e]; [cbn|done].
  by destruct (stepE m r).
Qed.

Lemma row_info_fields r info :
  infoE r = Ok info →
  parse_coca_rank py_float (row_frq r) = Ok (coca_rank info)
  ∧ tags info = parse_ecdict_tags (cell (row_tag r)).
Proof.
  unfold row_info.
  destruct (parse_coca_rank py_float (row_frq r)) as [rank|]; [|done].
  cbn. by intros [= <-].
Qed.

(** Every row with a valid word leaves its word in the mapping. *)
Lemma load_ecdict_present rows m r :
  loadE rows = Ok m → r ∈ rows →
  WORD_RE (normalize_word (row_word r)) = true →
  is_Some (m !! normalize_word (row_word r)).
Proof.
  revert m. induction rows as [|r0 rows IH] using rev_ind; intros m Hload Hin Hre.
  - by apply elem_of_nil in Hin.
  - rewrite load_ecdict_snoc in Hload.
    destruct (loadE rows) as [m0|] eqn:Hl0; [cbn in Hload|done].
    destruct (ecdict_step_cases py_float normalize_word WORD_RE
                normalize_phonetic normalize_pos clean_ecdict_translation
                parse_ecdict_tags m0 r0)
      as [[Hre0 H]|[[_ (e & _ & H)]|[Hre0 (info' & Hinfo & H)]]];
      rewrite H in Hload; [|done|]; injection Hload as <-.
    + apply elem_of_app in Hin as [Hin| ->%list_elem_of_singleton];
        [by apply IH|congruence].
    + destruct (decide (normalize_word (row_word r0)
                        = normalize_word (row_word r))) as [Heq|Hne].
      * rewrite Heq, lookup_insert_eq. by eexists.
      * rewrite lookup_insert_ne by done.
        apply elem_of_app in Hin as [Hin| ->%list_elem_of_singleton];
          [by apply IH|done].
Qed.

(** The rows that reach the mapping under a word. *)
Lemma load_ecdict_invariant rows m :
  loadE rows = Ok m →
  ∀ w info, m !! w = Some info →
    WORD_RE w = true
    ∧ (∀ rank, coca_rank info = Some rank →
         0 < rank
         ∧ ∃ r, r ∈ rows ∧ normalize_word (row_word r) = w
                ∧ parse_coca_rank py_float (row_frq r) = Ok (Some rank))
    ∧ (∀ t, t ∈ tags info ↔
         ∃ r, r ∈ rows ∧ normalize_word (row_word r) = w
              ∧ t ∈ parse_ecdict_tags (cell (row_tag r))).
Proof.
  revert m. induction rows as [|r rows IH] using rev_ind; intros m Hload.
  - injection Hload as <-. intros w info Hw. by rewrite lookup_empty in Hw.
  - rewrite load_ecdict_snoc in Hload.
    destruct (loadE rows) as [m0|] eqn:Hl0; [cbn in Hload|done].
    specialize (IH m0 eq_refl).
    assert (∀ w info, m0 !! w = Some info →
              WORD_RE w = true
              ∧ (∀ rank, coca_rank info = Some rank →
                   0 < rank
                   ∧ ∃ r', r' ∈ rows ++ [r] ∧ normalize_word (row_word r') = w
                           ∧ parse_coca_rank py_float (row_frq r')
                             = Ok (Some rank))
              ∧ (∀ t, t ∈ tags info →
                   ∃ r', r' ∈ rows ++ [r] ∧ normalize_word (row_word r') = w
                         ∧ t ∈ parse_ecdict_tags (cell (row_tag r')))) as IH'.
    { intros w info Hw. destruct (IH w info Hw) as (Hre & Hrank & Htags).
      split_and!; [done|..].
      - intros rank Hr. destruct (Hrank rank Hr) as (Hpos & r' & Hin & ? & ?).
        split; [done|]. exists r'. rewrite elem_of_app. tauto.
      - intros t Ht. apply Htags in Ht as (r' & Hin & ? & ?).
        exists r'. rewrite elem_of_app. tauto. }
    destruct (ecdict_step_cases py_float normalize_word WORD_RE
                normalize_phonetic normalize_pos clean_ecdict_translation
                parse_ecdict_tags m0 r)
      as [[Hre H]|[[_ (e & _ & H)]|[Hre (info' & Hinfo & H)]]];
      rewrite H in Hload; [|done|]; injection Hload as <-.
    + intros w info Hw. destruct (IH' w info Hw) as (? & ? & Htags).
      split_and!; [done..|]. intros t. split; [apply Htags|].
      intros (r' & [Hin| ->%list_elem_of_singleton]%elem_of_app & Hw' & Ht).
      * apply (IH w info Hw). eauto.
      * congruence.
    + destruct (row_info_fields r info' Hinfo) as [Hrank' Htags'].
      intros w info.
      destruct (decide (normalize_word (row_word r) = w)) as [Heq|Hne].
      * rewrite Heq, lookup_insert_eq. intros [= <-].
        assert (r ∈ rows ++ [r]) as Hrin
          by (rewrite elem_of_app, list_elem_of_singleton; tauto).
        destruct (m0 !! w) as [old|] eqn:Hold.
        -- destruct (IH' w old Hold) as (_ & Hrank & Htags).
           destruct (IH w old Hold) as (_ & _ & Htags0).
           split_and!; [congruence|..].
           ++ cbn. intros rank.
              destruct (coca_rank old) as [ro|] eqn:Hro.
              ** intros [= <-]. by apply Hrank.
              ** destruct (coca_rank info') as [ri|] eqn:Hri; [|done].
                 intros [= <-].
                 split; [by eapply parse_coca_rank_positive|].
                 by exists r.
           ++ cbn. intros t. rewrite elem_of_union. split.
              ** intros [Ht|Ht]; [by apply Htags|].
                 exists r. rewrite <- Htags'. done.
              ** intros (r' & [Hin| ->%list_elem_of_singleton]%elem_of_app
                         & Hw' & Ht).
                 --- left. apply Htags0. eauto.
                 --- right. by rewrite Htags'.
        -- split_and!; [congruence|..].
           ++ intros rank Hr. split.
              ** eapply parse_coca_rank_positive. by rewrite Hrank', Hr.
              ** exists r. by rewrite Hrank', Hr.
           ++ intros t. split.
              ** intros Ht. exists r. by rewrite <- Htags'.
              ** intros (r' & [Hin| ->%list_elem_of_singleton]%elem_of_app
                         & Hw' & Ht).
                 --- exfalso.
                     destruct (load_ecdict_present rows m0 r' Hl0 Hin)
                       as [i Hi]; congruence.
                 --- by rewrite Htags'.
      * rewrite lookup_insert_ne by done. intros Hw.
        destruct (IH' w info Hw) as (? & ? & Htags).
        split_and!; [done..|]. intros t. split; [apply Htags|].
        intros (r' & [Hin| ->%list_elem_of_singleton]%elem_of_app & Hw' & Ht).
        -- apply (IH w info Hw). eauto.
        -- congruence.
Qed.

Lemma load_ecdict_key_origin rows m w :
  loadE rows = Ok m → is_Some (m !! w) →
  WORD_RE w = true ∧ ∃ r, r ∈ rows ∧ normalize_word (row_word r) = w.
Proof.
  revert m. induction rows as [|r0 rows IH] using rev_ind; intros m Hload Hw.
  - injection Hload as <-. rewrite lookup_empty in Hw. by destruct Hw.
  - rewrite load_ecdict_snoc in Hload.
    destruct (loadE rows) as [m0|] eqn:Hl0; [cbn in Hload|done].
    assert (is_Some (m0 !! w) →
            WORD_RE w = true
            ∧ ∃ r, r ∈ rows ++ [r0] ∧ normalize_word (row_word r) = w) as IH'.
    { intros H0. destruct (IH m0 eq_refl H0) as (? & r & ? & ?).
      split; [done|]. exists r. rewrite elem_of_app. tauto. }
    destruct (ecdict_step_cases py_float normalize_word WORD_RE
                normalize_phonetic normalize_pos clean_ecdict_translation
                parse_ecdict_tags m0 r0)
      as [[Hre0 H]|[[_ (e & _ & H)]|[Hre0 (info' & Hinfo & H)]]];
      rewrite H in Hload; [|done|]; injection Hload as <-.
    + by apply IH'.
    + destruct (decide (normalize_word (row_word r0) = w)) as [Heq|Hne].
      * split; [congruence|]. exists r0.
        rewrite elem_of_app, list_elem_of_singleton. tauto.
      * rewrite lookup_insert_ne in Hw by done. by apply IH'.
Qed.

End load_ecdict_content.

(** X9.  The frequency loader keeps exactly the valid words and only
    positive ranks: a word is a key of the loaded mapping exactly when it
    passes the word pattern and is the normalised word of some row, and a
    stored rank is strictly positive and is the rank read from a row of that
    word. *)
Theorem load_ecdict_keys_and_ranks
    (py_float : pystr → result spec_float)
    (normalize_word : pystr → pystr) (WORD_RE : pystr → bool)
    (normalize_phonetic normalize_pos clean_ecdict_translation : pystr → pystr)
    (parse_ecdict_tags : pystr → gset pystr) (rows : list EcdictRow) (m : gmap pystr ECDictWord) :
  load_ecdict py_float normalize_word WORD_RE normalize_phonetic normalize_pos
              clean_ecdict_translation parse_ecdict_tags rows = Ok m →
  (∀ w, is_Some (m !! w) ↔
        WORD_RE w = true ∧ ∃ r, r ∈ rows ∧ normalize_word (row_word r) = w) ∧
  (∀ w info rank, m !! w = Some info → coca_rank info = Some rank →
     0 < rank
     ∧ ∃ r, r ∈ rows ∧ normalize_word (row_word r) = w
            ∧ parse_coca_rank py_float (row_frq r) = Ok (Some rank)).
Proof.
  intros Hload. split.
  - intros w. split.
    + by eapply load_ecdict_key_origin.
    + intros (Hre & r & Hin & <-). by eapply load_ecdict_present.
  - intros w info rank Hw Hr.
    by destruct (load_ecdict_invariant _ _ _ _ _ _ _ _ _ Hload w info Hw)
      as (_ & Hrank & _); apply Hrank.
Qed.

Lemma load_ecdict_keys_and_ranks_witness :
  ∃ m, load_ecdict float_ascii strip (λ _, true) id id id (λ t, {[t]}) ex_rows
       = Ok m
       ∧ ∀ w info rank, m !! w = Some info → coca_rank info = Some rank →
           0 < rank.
Proof.
  destruct (load_ecdict float_ascii strip (λ _, true) id id id (λ t, {[t]})
              ex_rows) as [m|e] eqn:H.
  - exists m. split; [reflexivity|]. intros w info rank Hw Hr.
    exact (proj1 (proj2 (load_ecdict_keys_and_ranks float_ascii strip
                           (λ _, true) id id id (λ t, {[t]}) ex_rows m H)
                    w info rank Hw Hr)).
  - vm_compute in H. discriminate.
Defined.

(** X10.  The tags stored for a word are the union of the tag sets of all
    its rows: a tag is stored exactly when some row of the word carries
    it. *)
Theorem load_ecdict_tags_union
    (py_float : pystr → result spec_float)
    (normalize_word : pystr → pystr) (WORD_RE : pystr → bool)
    (normalize_phonetic normalize_pos clean_ecdict_translation : pystr → pystr)
    (parse_ecdict_tags : pystr → gset pystr) (rows : list EcdictRow) (m : gmap pystr ECDictWord)
    (w : pystr) (info : ECDictWord) :
  load_ecdict py_float normalize_word WORD_RE normalize_phonetic normalize_pos
              clean_ecdict_translation parse_ecdict_tags rows = Ok m →
  m !! w = Some info →
  ∀ t, t ∈ tags info ↔
       ∃ r, r ∈ rows ∧ normalize_word (row_word r) = w
            ∧ t ∈ parse_ecdict_tags (cell (row_tag r)).
Proof.
  intros Hload Hw.
  by destruct (load_ecdict_invariant _ _ _ _ _ _ _ _ _ Hload w info Hw)
    as (_ & _ & Htags).
Qed.

Lemma load_ecdict_tags_union_witness :
  ∃ m info,
    load_ecdict float_ascii strip (λ _, true) id id id (λ t, {[t]}) ex_rows
    = Ok m
    ∧ m !! py "abate" = Some info
    ∧ ∀ t, t ∈ tags info ↔
           ∃ r, r ∈ ex_rows ∧ strip (row_word r) = py "abate"
                ∧ t ∈ ({[cell (row_tag r)]} : gset pystr).
Proof.
  destruct (load_ecdict float_ascii strip (λ _, true) id id id (λ t, {[t]})
              ex_rows) as [m|e] eqn:H; [|vm_compute in H; discriminate].
  destruct (m !! py "abate") as [info|] eqn:Hw.
  - exists m, info. split; [reflexivity|]. split; [exact Hw|].
    exact (load_ecdict_tags_union float_ascii strip (λ _, true) id id id
             (λ t, {[t]}) ex_rows m (py "abate") info H Hw).
  - exfalso. vm_compute in H. injection H as <-. vm_compute in Hw.
    discriminate.
Defined.

Section load_kajweb_content.
Context {Obj : Type}
        (parse_kaj_entry : Obj → result (option (pystr * KajWord))).

Abbreviation loadK := (load_kajweb_toefl parse_kaj_entry).

Lemma load_kajweb_snoc objs o :
  loadK (objs ++ [o]) = (m ← loadK objs; kaj_step parse_kaj_entry m o).
Proof.
  unfold load_kajweb_toefl. rewrite load_kajweb_from_app.
  destruct (load_kajweb_from parse_kaj_entry ∅ objs) as [m|e]; [cbn|done].
  by destruct (kaj_step parse_kaj_entry m o).
Qed.

(** The loader returns exactly when the parser raises on no object. *)
Lemma load_kajweb_returns objs :
  (∃ m, loadK objs = Ok m) ↔ ∀ o, o ∈ objs → ∃ p, parse_kaj_entry o = Ok p.
Proof.
  induction objs as [|o objs IH] using rev_ind.
  - split; [|by exists ∅]. intros _ o Hin. by apply elem_of_nil in Hin.
  - rewrite load_kajweb_snoc. split.
    + intros [m Hm]. destruct (loadK objs) as [m0|] eqn:Hl0; [cbn in Hm|done].
      intros o1 [Hin| ->%list_elem_of_singleton]%elem_of_app.
      * apply IH; [by exists m0|done].
      * destruct (kaj_step_cases parse_kaj_entry m0 o)
          as [(e & _ & H)|[[Hp _]|(w & info & Hp & _)]];
          [congruence|by eexists..].
    + intros Hall.
      destruct (proj2 IH) as [m0 ->].
      { intros o1 Hin. apply Hall. rewrite elem_of_app. tauto. }
      cbn. destruct (Hall o) as [p Hp].
      { rewrite elem_of_app, list_elem_of_singleton. tauto. }
      destruct (kaj_step_cases parse_kaj_entry m0 o)
        as [(e & He & _)|[[_ H]|(w & info & _ & H)]];
        [congruence|by eexists..].
Qed.

Lemma merge_kaj_word_meaning old new :
  (kaj_meaning (merge_kaj_word old new) = kaj_meaning old
   ∧ (length (kaj_meaning new) ≤ length (kaj_meaning old))%nat)
  ∨ (kaj_meaning (merge_kaj_word old new) = kaj_meaning new
     ∧ (length (kaj_meaning old) < length (kaj_meaning new))%nat).
Proof.
  unfold merge_kaj_word. cbn.
  destruct (Nat.leb_spec (length (kaj_meaning new)) (length (kaj_meaning old)));
    [left|right]; done.
Qed.

Lemma merge_kaj_word_pos_nil old new :
  kaj_pos (merge_kaj_word old new) = [] ↔ kaj_pos old = [] ∧ kaj_pos new = [].
Proof.
  unfold merge_kaj_word, str_or. cbn.
  destruct (kaj_pos old), (kaj_pos new); cbn; naive_solver.
Qed.

(** What is stored under a word, in terms of the records read for it. *)
Lemma load_kajweb_invariant objs m w :
  loadK objs = Ok m →
  match m !! w with
  | Some X =>
      (∃ o info, o ∈ objs ∧ parse_kaj_entry o = Ok (Some (w, info))
                 ∧ kaj_meaning info = kaj_meaning X)
      ∧ (∀ o info, o ∈ objs → parse_kaj_entry o = Ok (Some (w, info)) →
           (length (kaj_meaning info) ≤ length (kaj_meaning X))%nat)
      ∧ (kaj_pos X = [] ↔
         ∀ o info, o ∈ objs → parse_kaj_entry o = Ok (Some (w, info)) →
                   kaj_pos info = [])
  | None => ∀ o info, o ∈ objs → parse_kaj_entry o ≠ Ok (Some (w, info))
  end.
Proof.
  revert m. induction objs as [|o objs IH] using rev_ind; intros m Hload.
  - injection Hload as <-. rewrite lookup_empty.
    intros o info Hin. by apply elem_of_nil in Hin.
  - rewrite load_kajweb_snoc in Hload.
    destruct (loadK objs) as [m0|] eqn:Hl0; [cbn in Hload|done].
    specialize (IH m0 eq_refl).
    destruct (kaj_step_cases parse_kaj_entry m0 o)
      as [(e & _ & H)|[[Hp H]|(w' & info' & Hp & H)]];
      rewrite H in Hload; [done| |]; injection Hload as <-.
    + destruct (m0 !! w) as [X|].
      * destruct IH as ((o0 & i0 & Hin0 & Hp0 & Hm0) & Hmax & Hpos).
        split_and!.
        -- exists o0, i0. rewrite elem_of_app. tauto.
        -- intros o1 i1 [Hin1| ->%list_elem_of_singleton]%elem_of_app Hp1;
             [by eapply Hmax | congruence].
        -- rewrite Hpos. split.
           ++ intros Hall o1 i1
                [Hin1| ->%list_elem_of_singleton]%elem_of_app Hp1;
                [by eapply Hall | congruence].
           ++ intros Hall o1 i1 Hin1. apply Hall.
              rewrite elem_of_app. tauto.
      * intros o1 i1 [Hin1| ->%list_elem_of_singleton]%elem_of_app;
          [by apply IH | congruence].
    + destruct (decide (w' = w)) as [->|Hne].
      * rewrite lookup_insert_eq. destruct (m0 !! w) as [old|] eqn:Hold.
        -- destruct IH as ((o0 & i0 & Hin0 & Hp0 & Hm0) & Hmax & Hpos).
           split_and!.
           ++ destruct (merge_kaj_word_meaning old info') as [[-> _]|[-> _]].
              ** exists o0, i0. rewrite elem_of_app. tauto.
              ** exists o, info'.
                 rewrite elem_of_app, list_elem_of_singleton. tauto.
           ++ intros o1 i1 [Hin1| ->%list_elem_of_singleton]%elem_of_app Hp1.
              ** specialize (Hmax o1 i1 Hin1 Hp1).
                 destruct (merge_kaj_word_meaning old info')
                   as [[-> ?]|[-> ?]]; lia.
              ** assert (i1 = info') as -> by congruence.
                 destruct (merge_kaj_word_meaning old info')
                   as [[-> ?]|[-> ?]]; lia.
           ++ rewrite merge_kaj_word_pos_nil, Hpos. split.
              ** intros [Hall Hnew] o1 i1
                   [Hin1| ->%list_elem_of_singleton]%elem_of_app Hp1.
                 --- by eapply Hall.
                 --- congruence.
              ** intros Hall. split.
                 --- intros o1 i1 Hin1. apply Hall.
                     rewrite elem_of_app. tauto.
                 --- apply (Hall o).
                     +++ rewrite elem_of_app, list_elem_of_singleton. tauto.
                     +++ done.
        -- split_and!.
           ++ exists o, info'.
              rewrite elem_of_app, list_elem_of_singleton. tauto.
           ++ intros o1 i1 [Hin1| ->%list_elem_of_singleton]%elem_of_app Hp1.
              ** by destruct (IH o1 i1 Hin1).
              ** assert (i1 = info') as -> by congruence. done.
           ++ split.
              ** intros Hnil o1 i1
                   [Hin1| ->%list_elem_of_singleton]%elem_of_app Hp1.
                 --- by destruct (IH o1 i1 Hin1).
                 --- congruence.
              ** intros Hall. apply (Hall o).
                 --- rewrite elem_of_app, list_elem_of_singleton. tauto.
                 --- done.
      * rewrite lookup_insert_ne by done.
        destruct (m0 !! w) as [X|].
        -- destruct IH as ((o0 & i0 & Hin0 & Hp0 & Hm0) & Hmax & Hpos).
           split_and!.
           ++ exists o0, i0. rewrite elem_of_app. tauto.
           ++ intros o1 i1 [Hin1| ->%list_elem_of_singleton]%elem_of_app Hp1;
                [by eapply Hmax | congruence].
           ++ rewrite Hpos. split.
              ** intros Hall o1 i1
                   [Hin1| ->%list_elem_of_singleton]%elem_of_app Hp1;
                   [by eapply Hall | congruence].
              ** intros Hall o1 i1 Hin1. apply Hall.
                 rewrite elem_of_app. tauto.
        -- intros o1 i1 [Hin1| ->%list_elem_of_singleton]%elem_of_app;
             [by apply IH | congruence].
Qed.

End load_kajweb_content.

(** X11.  When the headword loader returns, it has stored, for every word
    it read a record for, and for no other word, a meaning that is one of
    the meanings read for the word and at least as long as each of them; the
    stored part of speech is empty only if every record of the word has an
    empty one. *)
Theorem load_kajweb_toefl_longest_meaning {Obj : Type}
    (parse_kaj_entry : Obj → result (option (pystr * KajWord)))
    (objs : list Obj) (m : gmap pystr KajWord) (w : pystr) :
  load_kajweb_toefl parse_kaj_entry objs = Ok m →
  (is_Some (m !! w) ↔
   ∃ o info, o ∈ objs ∧ parse_kaj_entry o = Ok (Some (w, info))) ∧
  (∀ X, m !! w = Some X →
     (∃ o info, o ∈ objs ∧ parse_kaj_entry o = Ok (Some (w, info))
                ∧ kaj_meaning info = kaj_meaning X)
     ∧ (∀ o info, o ∈ objs → parse_kaj_entry o = Ok (Some (w, info)) →
          (length (kaj_meaning info) ≤ length (kaj_meaning X))%nat)
     ∧ (kaj_pos X = [] ↔
        ∀ o info, o ∈ objs → parse_kaj_entry o = Ok (Some (w, info)) →
                  kaj_pos info = [])).
Proof.
  intros Hload.
  pose proof (load_kajweb_invariant parse_kaj_entry objs m w Hload) as H.
  destruct (m !! w) as [X|].
  - split.
    + split; [|by eexists].
      intros _. destruct H as ((o & info & ? & ? & _) & _). eauto.
    + by intros X' [= <-].
  - split; [|done]. split; [by intros []|].
    intros (o & info & Hin & Hp). by destruct (H o info Hin).
Qed.

(** Of the two records of "abate" the longer meaning is stored. *)
Lemma load_kajweb_toefl_longest_meaning_witness :
  ∃ m X, load_kajweb_toefl (λ o, Ok (Some o)) ex_objs = Ok m
         ∧ m !! py "abate" = Some X
         ∧ ∀ o info, o ∈ ex_objs →
             Ok (Some o) = Ok (Some (py "abate", info)) →
             (length (kaj_meaning info) ≤ length (kaj_meaning X))%nat.
Proof.
  destruct (load_kajweb_toefl (λ o, Ok (Some o)) ex_objs) as [m|e] eqn:Hm;
    [|vm_compute in Hm; discriminate].
  destruct (m !! py "abate") as [X|] eqn:HX.
  - exists m, X. split; [reflexivity|]. split; [exact HX|].
    exact (proj1 (proj2 (proj2 (load_kajweb_toefl_longest_meaning
                                  (λ o, Ok (Some o)) ex_objs m (py "abate")
                                  Hm) X HX))).
  - exfalso. vm_compute in Hm. injection Hm as <-. vm_compute in HX.
    discriminate.
Defined.

(** ** The course of a run *)

Section main_facts.
Context {Obj : Type}
        (parse_kaj_entry : Obj → result (option (pystr * KajWord))).
Context (py_float : pystr → result spec_float)
        (normalize_word : pystr → pystr) (WORD_RE : pystr → bool)
        (normalize_phonetic normalize_pos clean_ecdict_translation
           : pystr → pystr)
        (parse_ecdict_tags : pystr → gset pystr).

Abbreviation run := (main parse_kaj_entry py_float normalize_word WORD_RE
  normalize_phonetic normalize_pos clean_ecdict_translation parse_ecdict_tags).
Abbreviation loadR := (load_ecdict py_float normalize_word WORD_RE
  normalize_phonetic normalize_pos clean_ecdict_translation parse_ecdict_tags).
Abbreviation loadH := (load_kajweb_toefl parse_kaj_entry).

(** A write in the trace means that the thresholds were valid and every
    source was loaded. *)
Lemma main_write_needs_sources args world trace r :
  run args world = (trace, r) →
  existsb is_write trace = true →
  0 < args_core_coca_max args ≤ args_full_coca_max args
  ∧ (args_download args = true → on_download world = Ok ())
  ∧ on_assert_sources world = Ok ()
  ∧ (∃ objs kaj_map rows ecdict_map xiaolai_tags awl_words,
       kaj_objects world = Ok objs ∧ loadH objs = Ok kaj_map
       ∧ ecdict_rows world = Ok rows ∧ loadR rows = Ok ecdict_map
       ∧ xiaolai_source world = Ok xiaolai_tags
       ∧ awl_source world = Ok awl_words).
Proof.
  intros Hrun Hw. unfold main in Hrun.
  destruct (Z.leb_spec (args_core_coca_max args) 0) as [Hc|Hc].
  { injection Hrun as <- <-. discriminate Hw. }
  destruct (Z.leb_spec (args_full_coca_max args) 0) as [Hf|Hf].
  { injection Hrun as <- <-. discriminate Hw. }
  cbn [orb] in Hrun.
  destruct (Z.ltb_spec (args_full_coca_max args) (args_core_coca_max args))
    as [Hcf|Hcf].
  { injection Hrun as <- <-. discriminate Hw. }
  split; [lia|].
  destruct (args_download args) eqn:Hd;
    [destruct (on_download world) as [[]|e0]|];
    destruct (on_assert_sources world) as [[]|e1];
    destruct (kaj_objects world) as [objs|e2];
    destruct (ecdict_rows world) as [rows|e3];
    destruct (xiaolai_source world) as [xiaolai_tags|e4];
    destruct (awl_source world) as [awl_words|e5];
    cbn -[assemble write_stats load_ecdict load_kajweb_toefl] in Hrun;
    try (injection Hrun as <- <-; discriminate Hw);
    try (destruct (loadH objs) as [kaj_map|e6] eqn:Hloadk;
         cbn -[assemble write_stats load_ecdict load_kajweb_toefl] in Hrun;
         try (injection Hrun as <- <-; discriminate Hw));
    try (destruct (loadR rows) as [ecdict_map|e7] eqn:Hload;
         cbn -[assemble write_stats load_ecdict load_kajweb_toefl] in Hrun;
         try (injection Hrun as <- <-; discriminate Hw));
    (split; [done|]); (split; [done|]);
    by exists objs, kaj_map, rows, ecdict_map, xiaolai_tags, awl_words.
Qed.

(** With every outside call answered and both loaders returning, nothing in
    between fails. *)
Lemma main_runs_through args world objs kaj_map rows ecdict_map xiaolai_tags
    awl_words :
  0 < args_core_coca_max args ≤ args_full_coca_max args →
  (args_download args = true → on_download world = Ok ()) →
  on_assert_sources world = Ok () →
  kaj_objects world = Ok objs → loadH objs = Ok kaj_map →
  ecdict_rows world = Ok rows → loadR rows = Ok ecdict_map →
  xiaolai_source world = Ok xiaolai_tags → awl_source world = Ok awl_words →
  on_write_core world = Ok () → on_write_full world = Ok () →
  on_write_stats world = Ok () →
  let a := assemble normalize_pos kaj_map ecdict_map xiaolai_tags awl_words
                    (args_core_coca_max args) (args_full_coca_max args) in
  ∃ ce fe stats,
    core_entries a = Ok ce ∧ full_entries a = Ok fe ∧
    write_stats (asm_layers a) ce fe xiaolai_tags awl_words = Ok stats ∧
    run args world
    = ((if args_download args then [DownloadSources] else [])
       ++ [AssertSourcesExist; Log Step2; LoadKajweb; LoadEcdict; LoadXiaolai;
           LoadAwl; Log Step3; Log Step4; Log Step5; Log Step6;
           WriteCoreJson ce; WriteFullJson fe; WriteStats stats;
           Log (DoneCounts (Z.of_nat (length ce)) (Z.of_nat (length fe)));
           Log DoneDir],
       Ok 0).
Proof.
  intros [Hc Hcf] Hd Has Hk Hlk Hr Hl Hx Ha Hw1 Hw2 Hw3. cbn zeta.
  set (a := assemble _ _ _ _ _ _ _).
  destruct (assemble_entries_total normalize_pos kaj_map ecdict_map
              xiaolai_tags awl_words (args_core_coca_max args)
              (args_full_coca_max args))
    as (ce & fe & Hce & Hfe).
  destruct (write_stats_total (asm_layers a) ce fe xiaolai_tags awl_words)
    as [stats Hst].
  exists ce, fe, stats.
  split; [exact Hce|]. split; [exact Hfe|]. split; [exact Hst|].
  subst a. unfold main.
  rewrite (proj2 (Z.leb_gt (args_core_coca_max args) 0)) by lia.
  rewrite (proj2 (Z.leb_gt (args_full_coca_max args) 0)) by lia.
  cbn [orb].
  rewrite (proj2 (Z.ltb_ge (args_full_coca_max args) (args_core_coca_max args)))
    by lia.
  rewrite Has, Hk, Hr, Hx, Ha, Hw1, Hw2, Hw3.
  destruct (args_download args); [rewrite Hd by done|];
    cbn -[assemble write_stats load_ecdict load_kajweb_toefl];
    rewrite Hlk; cbn -[assemble write_stats load_ecdict load_kajweb_toefl];
    rewrite Hl; cbn -[assemble write_stats load_ecdict load_kajweb_toefl];
    rewrite Hce, Hfe;
    cbn -[assemble write_stats load_ecdict load_kajweb_toefl];
    rewrite Hst; reflexivity.
Qed.

(** A record the parser raises on ends the run at the load of the headword
    source, before any other source is read. *)
Lemma main_stops_at_kajweb args world objs e :
  0 < args_core_coca_max args ≤ args_full_coca_max args →
  (args_download args = true → on_download world = Ok ()) →
  on_assert_sources world = Ok () →
  kaj_objects world = Ok objs → loadH objs = Raise e →
  run args world
  = ((if args_download args then [DownloadSources] else [])
     ++ [AssertSourcesExist; Log Step2; LoadKajweb], Raise e).
Proof.
  intros [Hc Hcf] Hd Has Hk Hlk. unfold main.
  rewrite (proj2 (Z.leb_gt (args_core_coca_max args) 0)) by lia.
  rewrite (proj2 (Z.leb_gt (args_full_coca_max args) 0)) by lia.
  cbn [orb].
  rewrite (proj2 (Z.ltb_ge (args_full_coca_max args) (args_core_coca_max args)))
    by lia.
  rewrite Has, Hk.
  destruct (args_download args); [rewrite Hd by done|];
    cbn -[assemble write_stats load_ecdict load_kajweb_toefl];
    rewrite Hlk; reflexivity.
Qed.

End main_facts.

(** X12.  Nothing is written before everything is loaded: if the trace of a
    run holds a write of the core list, of the full list or of the report,
    then the thresholds were valid, the download (if asked for) and the check
    of the sources succeeded, and the four sources were read and loaded
    without an exception. *)
Theorem main_writes_only_after_loading {Obj : Type}
    (parse_kaj_entry : Obj → result (option (pystr * KajWord)))
    (py_float : pystr → result spec_float)
    (normalize_word : pystr → pystr) (WORD_RE : pystr → bool)
    (normalize_phonetic normalize_pos clean_ecdict_translation : pystr → pystr)
    (parse_ecdict_tags : pystr → gset pystr)
    (args : Args) (world : World Obj) (trace : list event) (r : result Z) :
  main parse_kaj_entry py_float normalize_word WORD_RE normalize_phonetic
       normalize_pos clean_ecdict_translation parse_ecdict_tags args world
  = (trace, r) →
  existsb is_write trace = true →
  0 < args_core_coca_max args ≤ args_full_coca_max args
  ∧ (args_download args = true → on_download world = Ok ())
  ∧ on_assert_sources world = Ok ()
  ∧ (∃ objs kaj_map rows ecdict_map xiaolai_tags awl_words,
       kaj_objects world = Ok objs
       ∧ load_kajweb_toefl parse_kaj_entry objs = Ok kaj_map
       ∧ ecdict_rows world = Ok rows
       ∧ load_ecdict py_float normalize_word WORD_RE normalize_phonetic
                     normalize_pos clean_ecdict_translation parse_ecdict_tags
                     rows = Ok ecdict_map
       ∧ xiaolai_source world = Ok xiaolai_tags
       ∧ awl_source world = Ok awl_words).
Proof. apply main_write_needs_sources. Qed.

Lemma main_writes_only_after_loading_witness :
  0 < 5000 ≤ 15000
  ∧ (false = true → on_download ex_world = Ok ())
  ∧ on_assert_sources ex_world = Ok ()
  ∧ (∃ objs kaj_map rows ecdict_map xiaolai_tags awl_words,
       kaj_objects ex_world = Ok objs
       ∧ load_kajweb_toefl (λ _ : (), Ok None) objs = Ok kaj_map
       ∧ ecdict_rows ex_world = Ok rows
       ∧ load_ecdict float_ascii id (λ _, true) id id id (λ _, ∅) rows
         = Ok ecdict_map
       ∧ xiaolai_source ex_world = Ok xiaolai_tags
       ∧ awl_source ex_world = Ok awl_words).
Proof.
  eapply (main_writes_only_after_loading (λ _ : (), Ok None) float_ascii id
            (λ _, true) id id id (λ _, ∅) (mkArgs false 5000 15000 [])
            ex_world).
  - apply main_valid_thresholds_run.
  - reflexivity.
Defined.

(** X13.  Between loading and writing nothing can fail: with valid
    thresholds, the outside calls answered and both dictionaries loaded
    without an exception, both entry lists and the report are built, the run
    performs its calls in the fixed order (download if asked for, check, four
    loads, three writes) and returns 0. *)
Theorem main_runs_to_completion {Obj : Type}
    (parse_kaj_entry : Obj → result (option (pystr * KajWord)))
    (py_float : pystr → result spec_float)
    (normalize_word : pystr → pystr) (WORD_RE : pystr → bool)
    (normalize_phonetic normalize_pos clean_ecdict_translation : pystr → pystr)
    (parse_ecdict_tags : pystr → gset pystr)
    (args : Args) (world : World Obj) (objs : list Obj)
    (kaj_map : gmap pystr KajWord) (rows : list EcdictRow)
    (ecdict_map : gmap pystr ECDictWord)
    (xiaolai_tags : gmap pystr (gset pystr)) (awl_words : gset pystr) :
  0 < args_core_coca_max args ≤ args_full_coca_max args →
  (args_download args = true → on_download world = Ok ()) →
  on_assert_sources world = Ok () →
  kaj_objects world = Ok objs →
  load_kajweb_toefl parse_kaj_entry objs = Ok kaj_map →
  ecdict_rows world = Ok rows →
  load_ecdict py_float normalize_word WORD_RE normalize_phonetic normalize_pos
              clean_ecdict_translation parse_ecdict_tags rows
  = Ok ecdict_map →
  xiaolai_source world = Ok xiaolai_tags → awl_source world = Ok awl_words →
  on_write_core world = Ok () → on_write_full world = Ok () →
  on_write_stats world = Ok () →
  let a := assemble normalize_pos kaj_map ecdict_map xiaolai_tags awl_words
                    (args_core_coca_max args) (args_full_coca_max args) in
  ∃ ce fe stats,
    core_entries a = Ok ce ∧ full_entries a = Ok fe ∧
    write_stats (asm_layers a) ce fe xiaolai_tags awl_words = Ok stats ∧
    main parse_kaj_entry py_float normalize_word WORD_RE normalize_phonetic
         normalize_pos clean_ecdict_translation parse_ecdict_tags args world
    = ((if args_download args then [DownloadSources] else [])
       ++ [AssertSourcesExist; Log Step2; LoadKajweb; LoadEcdict; LoadXiaolai;
           LoadAwl; Log Step3; Log Step4; Log Step5; Log Step6;
           WriteCoreJson ce; WriteFullJson fe; WriteStats stats;
           Log (DoneCounts (Z.of_nat (length ce)) (Z.of_nat (length fe)));
           Log DoneDir],
       Ok 0).
Proof. apply main_runs_through. Qed.

(** A run over two headwords and three frequency rows: one of the words is
    ranked within coreMax and the other is academic, so both lists have
    entries. *)
Lemma main_runs_to_completion_witness :
  ∃ ce fe stats,
    ce ≠ [] ∧ fe ≠ [] ∧
    main (λ o, Ok (Some o)) float_ascii strip (λ _, true) id id id
         (λ t, {[t]}) (mkArgs true 5000 15000 []) ex_world_loaded
    = ([DownloadSources; AssertSourcesExist; Log Step2; LoadKajweb;
        LoadEcdict; LoadXiaolai; LoadAwl; Log Step3; Log Step4; Log Step5;
        Log Step6; WriteCoreJson ce; WriteFullJson fe; WriteStats stats;
        Log (DoneCounts (Z.of_nat (length ce)) (Z.of_nat (length fe)));
        Log DoneDir],
       Ok 0).
Proof.
  destruct (load_kajweb_toefl (λ o, Ok (Some o)) ex_objs)
    as [kaj_map|e] eqn:Hk; [|vm_compute in Hk; discriminate].
  destruct (load_ecdict float_ascii strip (λ _, true) id id id (λ t, {[t]})
              ex_rows) as [ecdict_map|e] eqn:Hl;
    [|vm_compute in Hl; discriminate].
  destruct (main_runs_to_completion (λ o, Ok (Some o)) float_ascii strip
              (λ _, true) id id id (λ t, {[t]}) (mkArgs true 5000 15000 [])
              ex_world_loaded ex_objs kaj_map ex_rows ecdict_map ∅ ex_awl)
    as (ce & fe & stats & Hce & Hfe & _ & H);
    [cbn; lia | reflexivity | reflexivity | reflexivity | exact Hk
    | reflexivity | exact Hl | reflexivity..|].
  exists ce, fe, stats.
  assert (∀ (l : list Entry) r, r = Ok l → l = [] →
            match r with Ok (_ :: _) => true | _ => false end = false)
    as Hempty by (by intros l r -> ->).
  split; [|split; [|exact H]].
  - intros Hnil. clear H Hfe.
    vm_compute in Hk. injection Hk as <-.
    vm_compute in Hl. injection Hl as <-.
    apply (Hempty _ _ Hce) in Hnil. vm_compute in Hnil. discriminate Hnil.
  - intros Hnil. clear H Hce.
    vm_compute in Hk. injection Hk as <-.
    vm_compute in Hl. injection Hl as <-.
    apply (Hempty _ _ Hfe) in Hnil. vm_compute in Hnil. discriminate Hnil.
Defined.

(** X29.  The headword loader returns exactly when [parse_kaj_entry] raises
    on none of the objects read.  When it raises on one, the loader raises
    the exception of the first such object, and a run with valid thresholds
    ends there: the frequency source, the subject tags and the academic list
    are not read and nothing is written. *)
Theorem load_kajweb_toefl_raise_ends_run {Obj : Type}
    (parse_kaj_entry : Obj → result (option (pystr * KajWord)))
    (py_float : pystr → result spec_float)
    (normalize_word : pystr → pystr) (WORD_RE : pystr → bool)
    (normalize_phonetic normalize_pos clean_ecdict_translation : pystr → pystr)
    (parse_ecdict_tags : pystr → gset pystr)
    (args : Args) (world : World Obj) (before after : list Obj) (o : Obj)
    (e : exn) :
  (∀ o', o' ∈ before → ∃ p, parse_kaj_entry o' = Ok p) →
  parse_kaj_entry o = Raise e →
  ((∃ m, load_kajweb_toefl parse_kaj_entry before = Ok m)
   ∧ load_kajweb_toefl parse_kaj_entry (before ++ o :: after) = Raise e)
  ∧ (0 < args_core_coca_max args ≤ args_full_coca_max args →
     (args_download args = true → on_download world = Ok ()) →
     on_assert_sources world = Ok () →
     kaj_objects world = Ok (before ++ o :: after) →
     main parse_kaj_entry py_float normalize_word WORD_RE normalize_phonetic
          normalize_pos clean_ecdict_translation parse_ecdict_tags args world
     = ((if args_download args then [DownloadSources] else [])
        ++ [AssertSourcesExist; Log Step2; LoadKajweb], Raise e)).
Proof.
  intros Hbefore Ho.
  destruct (proj2 (load_kajweb_returns parse_kaj_entry before) Hbefore)
    as [m Hm].
  assert (load_kajweb_toefl parse_kaj_entry (before ++ o :: after) = Raise e)
    as Hraise.
  { unfold load_kajweb_toefl in *. rewrite load_kajweb_from_app, Hm. cbn.
    unfold kaj_step. by rewrite Ho. }
  split; [split; [by exists m|done]|].
  intros Hthr Hd Has Hk.
  by apply (main_stops_at_kajweb parse_kaj_entry py_float normalize_word
              WORD_RE normalize_phonetic normalize_pos
              clean_ecdict_translation parse_ecdict_tags args world
              (before ++ o :: after) e).
Qed.

Lemma load_kajweb_toefl_raise_ends_run_witness :
  (∃ m, load_kajweb_toefl ex_parse [Some (py "abate", mkKajWord [20943]%N [])]
        = Ok m)
  ∧ load_kajweb_toefl ex_parse
      ([Some (py "abate", mkKajWord [20943]%N [])] ++ None :: [])
    = Raise AttributeError
  ∧ main ex_parse float_ascii strip (λ _, true) id id id (λ t, {[t]})
         (mkArgs false 5000 15000 []) ex_world_broken
    = ([] ++ [AssertSourcesExist; Log Step2; LoadKajweb],
       Raise AttributeError).
Proof.
  destruct (load_kajweb_toefl_raise_ends_run ex_parse float_ascii strip
              (λ _, true) id id id (λ t, {[t]}) (mkArgs false 5000 15000 [])
              ex_world_broken [Some (py "abate", mkKajWord [20943]%N [])] []
              None AttributeError) as [[H1 H2] H3].
  - intros o' ->%list_elem_of_singleton. by eexists.
  - reflexivity.
  - split; [exact H1|]. split; [exact H2|].
    apply H3; [cbn; lia | discriminate | reflexivity | reflexivity].
Defined.

(** * Text normalisation *)

(** What holds of [lstrip] and of [lstrip_chars] alike: a function that drops
    the leading code points of a class. *)
Section drop_leading.
Context (P : N → bool) (f : pystr → pystr).
Hypothesis f_nil : f [] = [].
Hypothesis f_cons : ∀ c t, f (c :: t) = if P c then f t else c :: t.

Lemma drop_leading_head c : head (f c) = None ∨ ∃ x, head (f c) = Some x ∧ P x = false.
Proof.
  induction c as [|a t IH]; [left; by rewrite f_nil|].
  rewrite f_cons. destruct (P a) eqn:Ha; [done|]. right. by exists a.
Qed.

Lemma drop_leading_last t : f t = [] ∨ last (f t) = last t.
Proof.
  induction t as [|a t IH]; [left; by rewrite f_nil|].
  rewrite f_cons. destruct (P a) eqn:Ha; [|by right].
  destruct IH as [IH|IH]; [by left|].
  destruct t as [|b t]; [by left|]. right. by rewrite IH.
Qed.

Lemma drop_leading_id t :
  (∀ x, head t = Some x → P x = false) → f t = t.
Proof.
  destruct t as [|a t]; [done|]. intros H. rewrite f_cons.
  by rewrite (H a eq_refl).
Qed.

Lemma drop_leading_elem x t : x ∈ f t → x ∈ t.
Proof.
  induction t as [|a t IH]; [by rewrite f_nil|].
  rewrite f_cons. destruct (P a); [|done]. intros H. right. by apply IH.
Qed.

(** Dropping at both ends. *)
Lemma drop_both_head t x :
  head (reverse (f (reverse (f t)))) = Some x → P x = false.
Proof.
  rewrite head_reverse.
  destruct (drop_leading_last (reverse (f t))) as [-> | ->]; [done|].
  rewrite last_reverse.
  destruct (drop_leading_head t) as [-> | (y & -> & Hy)]; [done|]. congruence.
Qed.

Lemma drop_both_last t x :
  last (reverse (f (reverse (f t)))) = Some x → P x = false.
Proof.
  rewrite last_reverse.
  destruct (drop_leading_head (reverse (f t))) as [-> | (y & -> & Hy)];
    [done|congruence].
Qed.

Lemma drop_both_id t :
  (∀ x, head t = Some x → P x = false) →
  (∀ x, last t = Some x → P x = false) →
  reverse (f (reverse (f t))) = t.
Proof.
  intros Hh Hl. rewrite (drop_leading_id t Hh).
  rewrite (drop_leading_id (reverse t)); [apply reverse_involutive|].
  by rewrite head_reverse.
Qed.

Lemma drop_both_elem x t : x ∈ reverse (f (reverse (f t))) → x ∈ t.
Proof.
  rewrite elem_of_reverse. intros H%drop_leading_elem.
  rewrite elem_of_reverse in H. by apply drop_leading_elem.
Qed.

End drop_leading.

Lemma no_space_at_spec o :
  no_space_at o = true ↔ ∀ x, o = Some x → is_space x = false.
Proof.
  destruct o as [c|]; cbn; [|naive_solver].
  rewrite negb_true_iff. naive_solver.
Qed.

Lemma strip_head t : no_space_at (head (strip t)) = true.
Proof.
  apply no_space_at_spec. intros x. by apply (drop_both_head is_space lstrip).
Qed.

Lemma strip_last t : no_space_at (last (strip t)) = true.
Proof.
  apply no_space_at_spec. intros x. by apply (drop_both_last is_space lstrip).
Qed.

Lemma strip_id t :
  no_space_at (head t) = true → no_space_at (last t) = true → strip t = t.
Proof.
  rewrite !no_space_at_spec. intros Hh Hl.
  by apply (drop_both_id is_space lstrip).
Qed.

Lemma single_spaced_squeeze b t : single_spaced b (squeeze b t) = true.
Proof.
  revert b. induction t as [|c t IH]; intros b; [done|]. cbn.
  destruct (is_space c) eqn:Hc.
  - destruct b; [apply IH|]. cbn. apply IH.
  - cbn. rewrite Hc. apply IH.
Qed.

Lemma squeeze_id b t : single_spaced b t = true → squeeze b t = t.
Proof.
  revert b. induction t as [|c t IH]; intros b; [done|]. cbn.
  destruct (is_space c) eqn:Hc.
  - rewrite !andb_true_iff, negb_true_iff, N.eqb_eq.
    intros [[-> ->] H]. by rewrite IH.
  - intros H. by rewrite IH.
Qed.

Lemma unbreak_id b t : single_spaced b t = true → unbreak <$> t = t.
Proof.
  revert b. induction t as [|c t IH]; intros b; [done|]. cbn.
  destruct (is_space c) eqn:Hc.
  - rewrite !andb_true_iff, N.eqb_eq. intros [[-> _] H]. by rewrite (IH _ H).
  - intros H. rewrite (IH _ H). f_equal. unfold unbreak.
    destruct (N.eqb_spec c 13) as [->|]; [done|].
    destruct (N.eqb_spec c 10) as [->|]; done.
Qed.

Lemma squeeze_last b t c :
  last t = Some c → is_space c = false → last (squeeze b t) = Some c.
Proof.
  revert b. induction t as [|a t IH]; intros b Hl Hc; [done|].
  destruct t as [|a' t].
  { cbn in Hl. injection Hl as ->. cbn. by rewrite Hc. }
  change (last (a :: a' :: t)) with (last (a' :: t)) in Hl.
  assert (∀ b' x, last (x :: squeeze b' (a' :: t)) = Some c) as Hcons.
  { intros b' x. specialize (IH b' Hl Hc).
    destruct (squeeze b' (a' :: t)); [done|]. exact IH. }
  remember (a' :: t) as u eqn:Hu. cbn [squeeze].
  destruct (is_space a); [destruct b|]; auto.
Qed.

Lemma tidy_spec t :
  tidy t = true ↔
  single_spaced false t = true ∧ no_space_at (head t) = true
  ∧ no_space_at (last t) = true.
Proof. unfold tidy. rewrite !andb_true_iff. tauto. Qed.

Lemma clean_text_tidy t : tidy (clean_text t) = true.
Proof.
  unfold clean_text. set (s := strip (unbreak <$> t)).
  pose proof (strip_head (unbreak <$> t)) as Hh.
  pose proof (strip_last (unbreak <$> t)) as Hl. fold s in Hh, Hl.
  apply tidy_spec. split_and!.
  - apply single_spaced_squeeze.
  - destruct s as [|c s]; [done|]. cbn in Hh. cbn [squeeze].
    apply negb_true_iff in Hh. rewrite Hh. cbn. by rewrite Hh.
  - destruct (last s) as [c|] eqn:Hc.
    + cbn in Hl. apply negb_true_iff in Hl.
      by rewrite (squeeze_last _ _ _ Hc Hl); cbn; rewrite Hl.
    + apply last_None in Hc. by rewrite Hc.
Qed.

Lemma clean_text_id t : tidy t = true → clean_text t = t.
Proof.
  intros (Hs & Hh & Hl)%tidy_spec. unfold clean_text.
  rewrite (unbreak_id _ _ Hs), (strip_id _ Hh Hl). by apply squeeze_id.
Qed.

(** X14. [clean_text] brings every text to its normal form, in which
    whitespace is the single space only, never doubled and never at either
    end; the texts it leaves alone are the ones in normal form, so cleaning
    twice is cleaning once. *)
Theorem clean_text_normal_form (text : pystr) :
  tidy (clean_text text) = true
  ∧ (clean_text text = text ↔ tidy text = true)
  ∧ clean_text (clean_text text) = clean_text text.
Proof.
  split_and!.
  - apply clean_text_tidy.
  - split; [intros <-; apply clean_text_tidy | apply clean_text_id].
  - apply clean_text_id, clean_text_tidy.
Qed.

Lemma startswith_slash t : startswith t (py "/") = true ↔ head t = Some 47%N.
Proof.
  destruct t as [|c t]; cbn; [done|].
  rewrite andb_true_r, N.eqb_eq. naive_solver.
Qed.

Lemma endswith_slash t : endswith t (py "/") = true ↔ last t = Some 47%N.
Proof.
  unfold endswith. change (reverse (py "/")) with (py "/").
  by rewrite startswith_slash, head_reverse.
Qed.

Lemma single_spaced_snoc b t c :
  is_space c = false → single_spaced b t = true →
  single_spaced b (t ++ [c]) = true.
Proof.
  intros Hc. revert b. induction t as [|a t IH]; intros b; cbn.
  - by rewrite Hc.
  - destruct (is_space a); [|apply IH].
    rewrite !andb_true_iff. intros [H1 H2]. split; [done|]. by apply IH.
Qed.

Lemma tidy_wrap a t c :
  is_space a = false → is_space c = false → tidy t = true →
  tidy (a :: t ++ [c]) = true.
Proof.
  intros Ha Hc (Hs & _)%tidy_spec. apply tidy_spec. split_and!.
  - cbn. rewrite Ha. by apply single_spaced_snoc.
  - cbn. by rewrite Ha.
  - change (a :: t ++ [c]) with ((a :: t) ++ [c]). rewrite last_snoc. cbn.
    by rewrite Hc.
Qed.

Lemma tidy_no_space t :
  Forall (λ c, is_space c = false) t → tidy t = true.
Proof.
  intros H. apply tidy_spec. split_and!.
  - generalize false. induction H as [|c t Hc _ IH]; intros b; [done|].
    cbn. by rewrite Hc.
  - destruct H as [|c t Hc _]; [done|]. cbn. by rewrite Hc.
  - apply no_space_at_spec. intros x Hx.
    rewrite Forall_forall in H. apply H. rewrite last_Some in Hx.
    destruct Hx as [l' ->]. apply elem_of_app. right. by left.
Qed.

Lemma normalize_phonetic_cases p :
  clean_text p = [] ∧ normalize_phonetic p = []
  ∨ clean_text p ≠ [] ∧ head (clean_text p) = Some 47%N
    ∧ last (clean_text p) = Some 47%N ∧ normalize_phonetic p = clean_text p
  ∨ clean_text p ≠ []
    ∧ normalize_phonetic p = 47%N :: clean_text p ++ [47%N].
Proof.
  unfold normalize_phonetic. destruct (clean_text p) as [|c q]; [by left|].
  right. cbn [truthy negb].
  destruct (startswith (c :: q) (py "/") && endswith (c :: q) (py "/"))
    eqn:Hs.
  - left. apply andb_true_iff in Hs. destruct Hs as [Hs He].
    apply startswith_slash in Hs. apply endswith_slash in He. done.
  - by right.
Qed.

Lemma normalize_phonetic_facts (phonetic : pystr) :
  let r := normalize_phonetic phonetic in
  (r = [] ↔ clean_text phonetic = [])
  ∧ (r = [] ∨ head r = Some 47%N ∧ last r = Some 47%N)
  ∧ tidy r = true
  ∧ normalize_phonetic r = r.
Proof.
  cbv zeta. pose proof (clean_text_tidy phonetic) as Hq.
  destruct (normalize_phonetic_cases phonetic)
    as [[Hp ->]|[(Hp & Hh & Hl & ->)|[Hp ->]]].
  - split_and!; [done|by left|done|done].
  - split_and!; [done|by right|done|].
    destruct (normalize_phonetic_cases (clean_text phonetic))
      as [[Hp' _]|[(_ & _ & _ & ->)|[_ Hr]]].
    + by rewrite (clean_text_id _ Hq) in Hp'.
    + by apply clean_text_id.
    + exfalso. revert Hr. unfold normalize_phonetic.
      rewrite (clean_text_id _ Hq).
      destruct (clean_text phonetic) as [|c q]; [done|]. cbn [truthy negb].
      rewrite (proj2 (startswith_slash _) Hh), (proj2 (endswith_slash _) Hl).
      cbn. intros [= _ Hr]. apply (f_equal length) in Hr.
      cbn in Hr. rewrite length_app in Hr. cbn in Hr. lia.
  - set (q := clean_text phonetic) in *.
    assert (tidy (47%N :: q ++ [47%N]) = true) as Ht by by apply tidy_wrap.
    assert (last (47%N :: q ++ [47%N]) = Some 47%N) as Hl
      by (change (47%N :: q ++ [47%N]) with ((47%N :: q) ++ [47%N]);
          apply last_snoc).
    split_and!; [done|by right|done|].
    destruct (normalize_phonetic_cases (47%N :: q ++ [47%N]))
      as [[Hp' _]|[(_ & _ & _ & ->)|[_ Hr]]].
    + by rewrite (clean_text_id _ Ht) in Hp'.
    + by apply clean_text_id.
    + exfalso. revert Hr. unfold normalize_phonetic.
      rewrite (clean_text_id _ Ht). cbn [truthy negb].
      rewrite (proj2 (startswith_slash _)) by done.
      rewrite (proj2 (endswith_slash _) Hl).
      cbn. intros [= Hr]. apply (f_equal length) in Hr.
      cbn in Hr. rewrite !length_app in Hr. cbn in Hr. lia.
Qed.

(** X15. [normalize_phonetic] gives the empty text exactly for a text that
    cleans to nothing; every other result is in normal form and stands
    between two slashes; a result is left as it is when normalised again. *)
Theorem normalize_phonetic_slashed (phonetic : pystr) :
  let r := normalize_phonetic phonetic in
  (r = [] ↔ clean_text phonetic = [])
  ∧ (r = [] ∨ head r = Some 47%N ∧ last r = Some 47%N)
  ∧ tidy r = true
  ∧ normalize_phonetic r = r.
Proof. apply normalize_phonetic_facts. Qed.

Lemma first_field_no_sep sep t :
  Forall (λ c, sep c = false) (first_field sep t).
Proof.
  induction t as [|c t IH]; cbn; [constructor|].
  destruct (sep c) eqn:Hc; by constructor.
Qed.

Lemma first_field_id sep t :
  Forall (λ c, sep c = false) t → first_field sep t = t.
Proof. induction 1 as [|c t Hc _ IH]; cbn; [done|]. by rewrite Hc, IH. Qed.

Lemma lstrip_chars_cons chars c t :
  lstrip_chars chars (c :: t)
  = if bool_decide (c ∈ chars) then lstrip_chars chars t else c :: t.
Proof. done. Qed.

Lemma is_pos_sep_space c : is_pos_sep c = false → is_space c = false.
Proof. unfold is_pos_sep. rewrite !orb_false_iff. tauto. Qed.

Lemma normalize_pos_facts (pos : pystr) :
  let r := normalize_pos pos in
  (r = []
   ∨ ∃ token, r = token ++ py "." ∧ token ≠ []
              ∧ Forall (λ c, is_pos_sep c = false) token
              ∧ head token ≠ Some 46%N ∧ last token ≠ Some 46%N)
  ∧ normalize_pos r = r.
Proof.
  cbv zeta.
  assert (normalize_pos pos = []
          ∨ ∃ token, normalize_pos pos = token ++ py "." ∧ token ≠ []
              ∧ Forall (λ c, is_pos_sep c = false) token
              ∧ head token ≠ Some 46%N ∧ last token ≠ Some 46%N) as Hshape.
  { unfold normalize_pos. destruct (clean_text pos) as [|c q]; [by left|].
    cbn [truthy negb]. set (field := first_field is_pos_sep (c :: q)).
    set (P := λ x : N, bool_decide (x ∈ py ".")).
    assert (∀ x, P x = false → x ≠ 46%N) as HP.
    { intros x Hx ->. by vm_compute in Hx. }
    destruct (strip_chars (py ".") field) as [|a token] eqn:Htok; [by left|].
    right. exists (a :: token). split_and!; [done|done| | |].
    - apply Forall_forall. intros x Hx. rewrite <- Htok in Hx.
      apply (drop_both_elem P (lstrip_chars (py "."))) in Hx;
        [|done|apply lstrip_chars_cons].
      pose proof (first_field_no_sep is_pos_sep (c :: q)) as Hf.
      rewrite Forall_forall in Hf. by apply Hf.
    - rewrite <- Htok. intros Hx.
      apply (drop_both_head P (lstrip_chars (py "."))) in Hx;
        [|done|apply lstrip_chars_cons]. by apply HP in Hx.
    - rewrite <- Htok. intros Hx.
      apply (drop_both_last P (lstrip_chars (py "."))) in Hx;
        [|done|apply lstrip_chars_cons]. by apply HP in Hx. }
  split; [done|].
  destruct Hshape as [->|(token & -> & Hne & Hsep & Hh & Hl)]; [done|].
  assert (Forall (λ c, is_pos_sep c = false) (token ++ py ".")) as Hall.
  { apply Forall_app. split; [done|]. by repeat constructor. }
  unfold normalize_pos. rewrite clean_text_id.
  2:{ apply tidy_no_space. eapply Forall_impl; [exact Hall|].
      intros c. apply is_pos_sep_space. }
  destruct token as [|a token]; [done|]. cbn [truthy negb app].
  change (a :: token ++ py ".") with ((a :: token) ++ py ".").
  rewrite (first_field_id _ _ Hall).
  assert (strip_chars (py ".") ((a :: token) ++ py ".") = a :: token) as ->.
  { unfold strip_chars.
    assert (∀ x, x ≠ 46%N → bool_decide (x ∈ py ".") = false) as HP.
    { intros x Hx. apply bool_decide_eq_false. intros Hin.
      apply list_elem_of_singleton in Hin. done. }
    cbn [app lstrip_chars]. rewrite (HP a) by (intros ->; by apply Hh).
    change (a :: token ++ py ".") with ((a :: token) ++ [46%N]).
    rewrite reverse_app. change (reverse [46%N]) with [46%N].
    change ([46%N] ++ reverse (a :: token))
      with (46%N :: reverse (a :: token)).
    rewrite lstrip_chars_cons, bool_decide_eq_true_2 by (by left).
    destruct (reverse (a :: token)) as [|z rt] eqn:Hrev.
    { apply (f_equal length) in Hrev. by rewrite length_reverse in Hrev. }
    assert (z ≠ 46%N) as Hz.
    { intros ->. apply Hl. by rewrite <- head_reverse, Hrev. }
    rewrite lstrip_chars_cons, (HP z Hz), <- Hrev.
    apply reverse_involutive. }
  done.
Qed.

(** X16. [normalize_pos] gives the empty text or one token and a full stop:
    the token is not empty, holds no whitespace and no separator, and has no
    full stop at either end; a result is left as it is when normalised
    again. *)
Theorem normalize_pos_token (pos : pystr) :
  let r := normalize_pos pos in
  (r = []
   ∨ ∃ token, r = token ++ py "." ∧ token ≠ []
              ∧ Forall (λ c, is_pos_sep c = false) token
              ∧ head token ≠ Some 46%N ∧ last token ≠ Some 46%N)
  ∧ normalize_pos r = r.
Proof. apply normalize_pos_facts. Qed.

(** * Words and subject labels *)

Lemma forallb_word_tail_no_feed r :
  forallb is_word_tail r = true → last r ≠ Some 10%N.
Proof.
  intros H Hl. apply last_Some in Hl as [l' ->].
  rewrite forallb_app in H. apply andb_true_iff in H as [_ H]. done.
Qed.

Lemma forallb_true_Forall (f : N → bool) l :
  forallb f l = true → Forall (λ c, f c = true) l.
Proof.
  induction l as [|c l IH]; cbn; [constructor|].
  rewrite andb_true_iff. intros [H1 H2]. constructor; [done|by apply IH].
Qed.

(** What a match of [WORD_RE] tells about a text that does not end in a line
    feed. *)
Lemma WORD_RE_shape w :
  WORD_RE w = true → last w ≠ Some 10%N →
  (2 ≤ length w ≤ 31)%nat
  ∧ (∃ c, head w = Some c ∧ is_lower_az c = true)
  ∧ Forall (λ c, is_word_tail c = true) w.
Proof.
  destruct w as [|c rest]; [done|]. cbn [WORD_RE].
  rewrite andb_true_iff, orb_true_iff. intros [Hc [H|H]] Hl.
  - rewrite !andb_true_iff, Nat.leb_le, Nat.leb_le in H.
    destruct H as [[H1 H2] H3]. split_and!; cbn [length]; [lia..| |].
    + by exists c.
    + constructor.
      * unfold is_word_tail. by rewrite Hc.
      * by apply forallb_true_Forall.
  - exfalso. destruct (reverse rest) as [|nl r] eqn:Hrev; [done|].
    apply andb_true_iff in H as [->%N.eqb_eq _].
    apply Hl. destruct rest as [|a rest]; [done|].
    change (last (c :: a :: rest)) with (last (a :: rest)).
    by rewrite <- head_reverse, Hrev.
Qed.

Lemma ascii_lower_feed t :
  last (ascii_lower <$> t) = Some 10%N → last t = Some 10%N.
Proof.
  rewrite fmap_last. destruct (last t) as [c|]; [|done]. cbn.
  intros [= H]. f_equal. revert H. unfold ascii_lower.
  destruct (_ && _) eqn:Hc; [|done].
  apply andb_true_iff in Hc as [?%N.leb_le ?%N.leb_le]. lia.
Qed.

Lemma normalize_word_shape (py_lower : pystr → pystr) (word : pystr) :
  (∀ t, last (py_lower t) = Some 10%N → last t = Some 10%N) →
  WORD_RE (normalize_word py_lower word) = true →
  (2 ≤ length (normalize_word py_lower word) ≤ 31)%nat
  ∧ (∃ c, head (normalize_word py_lower word) = Some c
          ∧ is_lower_az c = true)
  ∧ Forall (λ c, is_word_tail c = true) (normalize_word py_lower word).
Proof.
  intros Hlower Hre. apply WORD_RE_shape; [done|].
  unfold normalize_word. intros Hl%Hlower.
  pose proof (strip_last word) as Hs. by rewrite Hl in Hs.
Qed.

(** X17. A word that passes [WORD_RE] after [normalize_word] has 2 to 31
    code points, begins with a lowercase letter and holds lowercase letters,
    apostrophes and hyphens only, as long as [lower] puts no line feed at
    the end of a text that has none: the [strip] of [normalize_word] leaves
    no line feed for the [$] of the pattern to skip. *)
Theorem normalize_word_accepted (py_lower : pystr → pystr) (word : pystr) :
  (∀ t, last (py_lower t) = Some 10%N → last t = Some 10%N) →
  WORD_RE (normalize_word py_lower word) = true →
  (2 ≤ length (normalize_word py_lower word) ≤ 31)%nat
  ∧ (∃ c, head (normalize_word py_lower word) = Some c
          ∧ is_lower_az c = true)
  ∧ Forall (λ c, is_word_tail c = true) (normalize_word py_lower word).
Proof. apply normalize_word_shape. Qed.

Lemma normalize_word_accepted_witness :
  (2 ≤ length (normalize_word (fmap ascii_lower) (py " Abate ")) ≤ 31)%nat
  ∧ (∃ c, head (normalize_word (fmap ascii_lower) (py " Abate ")) = Some c
          ∧ is_lower_az c = true)
  ∧ Forall (λ c, is_word_tail c = true)
           (normalize_word (fmap ascii_lower) (py " Abate ")).
Proof.
  apply (normalize_word_accepted (fmap ascii_lower) (py " Abate "));
    [exact ascii_lower_feed | reflexivity].
Defined.

Lemma startswith_app t k1 k2 :
  startswith t (k1 ++ k2) = true → startswith t k1 = true.
Proof.
  revert t. induction k1 as [|p k1 IH]; intros t; [done|].
  destruct t as [|c t]; [done|]. cbn. rewrite !andb_true_iff.
  intros [H1 H2]. split; [done|]. by apply IH.
Qed.

Lemma contains_app key k1 k2 :
  contains key (k1 ++ k2) = true → contains key k1 = true.
Proof.
  induction key as [|c key IH]; cbn [contains]; rewrite !orb_true_iff.
  - intros [H|H]; [|done]. left. by eapply startswith_app.
  - intros [H|H]; [left; by eapply startswith_app | right; by apply IH].
Qed.

Lemma infer_subject_from_path_facts
    (py_lower : pystr → pystr) (parent_name stem : pystr) :
  let subject := infer_subject_from_path py_lower parent_name stem in
  (py "geography", [22320; 29702]%N) ∈ SUBJECT_KEYWORDS
  ∧ subject ≠ [22320; 29702]%N
  ∧ (contains (py_lower (parent_name ++ py " " ++ stem)) (py "geography")
     = true →
     subject = [22825; 25991]%N ∨ subject = [22320; 36136]%N).
Proof.
  cbv zeta. split; [unfold SUBJECT_KEYWORDS; set_solver|].
  unfold infer_subject_from_path.
  set (key := py_lower (parent_name ++ py " " ++ stem)).
  pose proof (contains_app key (py "geo") (py "graphy")) as Hgeo.
  change (py "geo" ++ py "graphy") with (py "geography") in Hgeo.
  unfold SUBJECT_KEYWORDS. cbn [List.find fst].
  destruct (contains key (py "astronomy")); [split; [done|by left]|].
  destruct (contains key (py "geo")); [split; [done|by right]|].
  destruct (contains key (py "geography")); [by specialize (Hgeo eq_refl)|].
  split; [|done].
  repeat match goal with
         | |- context [contains key ?k] => destruct (contains key k); [done|]
         end.
  done.
Qed.

(** X18. [infer_subject_from_path] never gives the label of the keyword
    [geography], whatever the path: a text that holds [geography] holds
    [geo], which stands earlier in [SUBJECT_KEYWORDS], so such a path gets
    the label of [astronomy] or the label of [geo]. *)
Theorem infer_subject_geography_shadowed
    (py_lower : pystr → pystr) (parent_name stem : pystr) :
  let subject := infer_subject_from_path py_lower parent_name stem in
  (py "geography", [22320; 29702]%N) ∈ SUBJECT_KEYWORDS
  ∧ subject ≠ [22320; 29702]%N
  ∧ (contains (py_lower (parent_name ++ py " " ++ stem)) (py "geography")
     = true →
     subject = [22825; 25991]%N ∨ subject = [22320; 36136]%N).
Proof. apply infer_subject_from_path_facts. Qed.

(** * Ranks written in decimal *)

Lemma digitpart_tail_digits ds :
  Forall (λ d, 0 ≤ d < 10) ds →
  digitpart_tail ((λ d, Z.to_N (48 + d)) <$> ds) = (ds, []).
Proof.
  induction 1 as [|d ds Hd _ IH]; [done|].
  cbn [fmap list_fmap digitpart_tail]. rewrite (digit_of_char d Hd).
  fold (fmap (M:=list) (λ d, Z.to_N (48 + d)) ds). by rewrite IH.
Qed.

Lemma digit_char_range d c :
  0 ≤ d < 10 → c = Z.to_N (48 + d) → (48 ≤ c ≤ 57)%N.
Proof. lia. Qed.

Ltac class_lia :=
  repeat match goal with
         | H : _ = true |- _ =>
             progress rewrite ?orb_true_iff, ?andb_true_iff, ?N.leb_le,
               ?N.eqb_eq in H
         end;
  rewrite ?orb_false_iff, ?andb_false_iff, ?orb_true_iff, ?andb_true_iff,
    ?N.leb_gt, ?N.leb_le, ?N.eqb_neq, ?N.eqb_eq;
  lia.

Lemma is_space_digit c : (48 ≤ c ≤ 57)%N → is_space c = false.
Proof. intros Hc. unfold is_space. class_lia. Qed.

(** A binary64 holds every positive integer below [2 ^ 53] as it is. *)
Lemma binary64_of_small_int n :
  0 < n < 2 ^ 53 →
  py_int_of_float (binary64_of_ratio false n 1) = Ok n.
Proof.
  intros Hn. unfold binary64_of_ratio.
  pose proof (Z.log2_spec n ltac:(lia)) as [Hlo Hhi].
  pose proof (Z.log2_nonneg n) as Hnn.
  assert (Z.log2 n < 53) as HL by (apply Z.log2_lt_pow2; lia).
  assert (log2_ratio n 1 = Z.log2 n) as ->.
  { unfold log2_ratio. change (Z.log2 1) with 0. rewrite Z.sub_0_r.
    rewrite (proj2 (Z.leb_le 0 _) Hnn).
    by rewrite (proj2 (Z.leb_le _ _)) by lia. }
  rewrite Z.max_l by lia. set (k := Z.log2 n - 52).
  assert (scaled_round n 1 k = n * 2 ^ (- k)) as ->.
  { unfold scaled_round, round_half_even.
    destruct (Z.leb_spec 0 k) as [Hk|Hk].
    - assert (k = 0) as -> by lia. change (1 * 2 ^ 0) with 1.
      change (2 ^ (- 0)) with 1. rewrite Z.mod_1_r, Z.div_1_r.
      change (2 * 0 ?= 1) with Lt. cbv iota. lia.
    - rewrite Z.mod_1_r, Z.div_1_r. done. }
  assert (2 ^ 52 ≤ n * 2 ^ (- k) < 2 ^ 53) as Hm.
  { assert (2 ^ Z.log2 n * 2 ^ (- k) = 2 ^ 52) as E1.
    { rewrite <- Z.pow_add_r by lia. f_equal. lia. }
    assert (2 ^ Z.succ (Z.log2 n) * 2 ^ (- k) = 2 ^ 53) as E2.
    { rewrite <- Z.pow_add_r by lia. f_equal. lia. }
    assert (0 < 2 ^ (- k)) by (apply Z.pow_pos_nonneg; lia). nia. }
  rewrite (proj2 (Z.eqb_neq _ _)) by lia.
  destruct (n * 2 ^ (- k)) as [|m|m] eqn:Em; [lia| |lia].
  rewrite (proj2 (Z.leb_le k 971)) by lia. cbn [py_int_of_float].
  f_equal. rewrite <- Em. destruct (Z.leb_spec 0 k) as [Hk|Hk].
  - assert (k = 0) as -> by lia. cbn. lia.
  - apply Z.div_mul. assert (0 < 2 ^ (- k)) by (apply Z.pow_pos_nonneg; lia).
    lia.
Qed.

Lemma strip_digits_like t :
  Forall (λ c, is_space c = false) t → strip t = t.
Proof.
  intros H. assert (tidy t = true) as (_ & Hh & Hl)%tidy_spec
    by by apply tidy_no_space.
  by apply strip_id.
Qed.

Lemma strip_digits t :
  Forall (λ c, (48 ≤ c ≤ 57)%N) t → strip t = t.
Proof.
  intros H. apply strip_digits_like. eapply Forall_impl; [exact H|].
  intros c. apply is_space_digit.
Qed.

(** [float] on the decimal digits of a number. *)
Lemma float_ascii_digits ds :
  ds ≠ [] → Forall (λ d, 0 ≤ d < 10) ds →
  float_ascii ((λ d, Z.to_N (48 + d)) <$> ds)
  = Ok (binary64_of_decimal false (int_of_digits ds) 0).
Proof.
  intros Hne Hall.
  assert (Forall (λ c, (48 ≤ c ≤ 57)%N) ((λ d, Z.to_N (48 + d)) <$> ds))
    as Hchars.
  { apply Forall_fmap. eapply Forall_impl; [exact Hall|]. cbn. lia. }
  unfold float_ascii. rewrite (strip_digits _ Hchars).
  destruct ds as [|d ds]; [done|].
  apply Forall_cons in Hall as [Hd Hall].
  cbn [fmap list_fmap]. fold (fmap (M:=list) (λ d, Z.to_N (48 + d)) ds).
  set (c := Z.to_N (48 + d)). set (rest := (λ d, Z.to_N (48 + d)) <$> ds).
  assert ((48 ≤ c ≤ 57)%N) as Hc by (unfold c; lia).
  cbn [read_sign].
  rewrite (proj2 (N.eqb_neq c 45)), (proj2 (N.eqb_neq c 43)) by lia.
  cbn [fmap list_fmap].
  assert (ascii_lower c = c) as ->.
  { unfold ascii_lower. by rewrite (proj2 (N.leb_gt 65 c)) by lia. }
  rewrite !bool_decide_eq_false_2 by (intros [= Hx]; lia).
  cbn [orb digitpart]. unfold c at 1. rewrite (digit_of_char d Hd).
  unfold rest. rewrite (digitpart_tail_digits ds Hall).
  cbn [read_exponent length Z.of_nat]. by rewrite app_nil_r.
Qed.

(** X19. A rank written out in decimal is read back as it is: for every
    [n] from 1 to [2 ^ 53 - 1], [parse_coca_rank] on [str(n)] gives [n]; the
    bound is the size of the binary64 the text passes through, and
    [2 ^ 53 + 1] already comes back as [2 ^ 53]. *)
Theorem parse_coca_rank_reads_decimal (n : Z) :
  0 < n < 2 ^ 53 →
  parse_coca_rank float_ascii (Some (py_str n)) = Ok (Some n)
  ∧ parse_coca_rank float_ascii (Some (py_str (2 ^ 53 + 1)))
    = Ok (Some (2 ^ 53)).
Proof.
  intros Hn. split; [|by vm_compute].
  destruct (py_str_spec n ltac:(lia)) as (ds & Hstr & Hall & Hval & _ & Hlen).
  assert (ds ≠ []) as Hne by (intros ->; cbn in Hlen; lia).
  assert (Forall (λ c, (48 ≤ c ≤ 57)%N) (py_str n)) as Hchars.
  { rewrite Hstr. apply Forall_fmap. eapply Forall_impl; [exact Hall|].
    cbn. lia. }
  unfold parse_coca_rank. rewrite (strip_digits _ Hchars).
  assert (truthy (py_str n) = true) as ->.
  { rewrite Hstr. by destruct ds. }
  cbn [negb]. rewrite Hstr, (float_ascii_digits ds Hne Hall), Hval.
  unfold binary64_of_decimal.
  rewrite (proj2 (Z.eqb_neq n 0)) by lia.
  change (0 <=? 0) with true. cbv iota. change (10 ^ 0) with 1.
  rewrite Z.mul_1_r. cbn [mbind result_bind].
  rewrite (binary64_of_small_int n Hn).
  by rewrite (proj2 (Z.ltb_lt 0 n)) by lia.
Qed.

Lemma parse_coca_rank_reads_decimal_witness :
  parse_coca_rank float_ascii (Some (py_str 4200)) = Ok (Some 4200)
  ∧ parse_coca_rank float_ascii (Some (py_str (2 ^ 53 + 1)))
    = Ok (Some (2 ^ 53)).
Proof. apply (parse_coca_rank_reads_decimal 4200). lia. Defined.


(** * The texts of the frequency dictionary *)

Lemma first_truthy_snoc l x :
  first_truthy (l ++ [x])
  = if truthy (first_truthy l) then first_truthy l else x.
Proof.
  unfold first_truthy. rewrite filter_app.
  destruct (filter (λ t, truthy t = true) l) as [|a fl] eqn:Hfl.
  - cbn [app head from_option truthy]. rewrite filter_cons, filter_nil.
    destruct (decide (truthy x = true)) as [Hx|Hx]; [done|].
    by destruct x.
  - cbn [app head from_option id].
    assert (a ∈ filter (λ t, truthy t = true) l) as Ha
      by (rewrite Hfl; by left).
    apply list_elem_of_filter in Ha as [-> _]. done.
Qed.

Lemma first_truthy_elem l : first_truthy l = [] ∨ first_truthy l ∈ l.
Proof.
  unfold first_truthy.
  destruct (filter (λ t, truthy t = true) l) as [|a fl] eqn:Hfl; [by left|].
  right. cbn.
  assert (a ∈ filter (λ t, truthy t = true) l) as Ha
    by (rewrite Hfl; by left).
  by apply list_elem_of_filter in Ha as [_ ?].
Qed.

Lemma filter_none {A} (P : A → Prop) `{!∀ x, Decision (P x)} (l : list A) :
  (∀ x, x ∈ l → ¬ P x) → filter P l = [].
Proof.
  intros Hall. destruct (filter P l) as [|a fl] eqn:Hfl; [done|].
  assert (a ∈ filter P l) as Ha by (rewrite Hfl; by left).
  apply list_elem_of_filter in Ha as [HP Hin]. by destruct (Hall a Hin).
Qed.

Section load_ecdict_texts.
Context (py_float : pystr → result spec_float)
        (normalize_word : pystr → pystr) (WORD_RE : pystr → bool)
        (normalize_phonetic normalize_pos clean_ecdict_translation
           : pystr → pystr)
        (parse_ecdict_tags : pystr → gset pystr).

Abbreviation loadT := (load_ecdict py_float normalize_word WORD_RE
  normalize_phonetic normalize_pos clean_ecdict_translation parse_ecdict_tags).
Abbreviation infoT := (row_info py_float normalize_phonetic normalize_pos
  clean_ecdict_translation parse_ecdict_tags).

(** The rows of a word, in reading order. *)
Abbreviation rows_of w rows :=
  (filter (λ r, normalize_word (row_word r) = w) rows).

Lemma row_info_texts r info :
  infoT r = Ok info →
  phonetic info = normalize_phonetic (cell (row_phonetic r))
  ∧ pos info = normalize_pos (cell (row_pos r))
  ∧ meaning info = clean_ecdict_translation (cell (row_translation r)).
Proof.
  unfold row_info.
  destruct (parse_coca_rank py_float (row_frq r)) as [rank|]; [|done].
  cbn. by intros [= <-].
Qed.

Lemma merge_first_truthy (old new F : pystr) l :
  old = first_truthy l →
  (if negb (truthy old) && truthy new then new else old)
  = first_truthy (l ++ [new]).
Proof.
  intros ->. rewrite first_truthy_snoc.
  destruct (truthy (first_truthy l)) eqn:Ho; [done|]. cbn.
  destruct (truthy new) eqn:Hn; [done|].
  destruct (first_truthy l); [|done]. by destruct new.
Qed.

Lemma load_ecdict_first_texts rows m w info :
  loadT rows = Ok m → m !! w = Some info →
  phonetic info
  = first_truthy ((λ r, normalize_phonetic (cell (row_phonetic r)))
                    <$> rows_of w rows)
  ∧ pos info
    = first_truthy ((λ r, normalize_pos (cell (row_pos r)))
                      <$> rows_of w rows)
  ∧ meaning info
    = first_truthy ((λ r, clean_ecdict_translation (cell (row_translation r)))
                      <$> rows_of w rows).
Proof.
  revert m info.
  induction rows as [|r rows IH] using rev_ind; intros m info Hload Hw.
  - injection Hload as <-. by rewrite lookup_empty in Hw.
  - rewrite load_ecdict_snoc in Hload.
    destruct (loadT rows) as [m0|] eqn:Hl0; [cbn in Hload|done].
    rewrite filter_app, !fmap_app.
    destruct (ecdict_step_cases py_float normalize_word WORD_RE
                normalize_phonetic normalize_pos clean_ecdict_translation
                parse_ecdict_tags m0 r)
      as [[Hre H]|[[_ (e & _ & H)]|[Hre (info' & Hinfo & H)]]];
      rewrite H in Hload; [|done|]; injection Hload as <-.
    + destruct (load_ecdict_key_origin _ _ _ _ _ _ _ _ _ _ Hl0
                  (mk_is_Some _ _ Hw)) as [Hre' _].
      rewrite filter_cons_False by (intros Heq; congruence).
      rewrite filter_nil, !app_nil_r. by apply (IH m0).
    + destruct (decide (normalize_word (row_word r) = w)) as [Heq|Hne].
      * rewrite filter_cons_True, filter_nil by done.
        rewrite Heq, lookup_insert_eq in Hw. injection Hw as <-.
        destruct (row_info_texts r info' Hinfo) as (Hph & Hpos & Hmean).
        cbn [fmap list_fmap]. rewrite <- Hph, <- Hpos, <- Hmean.
        destruct (m0 !! w) as [old|] eqn:Hold.
        -- destruct (IH m0 old eq_refl Hold) as (IH1 & IH2 & IH3).
           cbn [merge_ecdict_word phonetic pos meaning].
           split_and!; by apply merge_first_truthy.
        -- rewrite (filter_none _ rows).
           { cbn [fmap list_fmap app].
             assert (∀ x, first_truthy [x] = x) as E
               by (intros x; apply (first_truthy_snoc [] x)).
             by rewrite !E. }
           intros r' Hin Hr'.
           destruct (load_ecdict_present _ _ _ _ _ _ _ rows m0 r' Hl0 Hin)
             as [x Hx]; [congruence|]. congruence.
      * rewrite lookup_insert_ne in Hw by done.
        rewrite filter_cons_False, filter_nil, !app_nil_r by done.
        by apply (IH m0).
Qed.

End load_ecdict_texts.

(** X20. In the mapping [load_ecdict] returns, the phonetic, the part of
    speech and the meaning of a word are each the first non-empty value
    among the rows of that word, in reading order, and empty when no row of
    the word has one: a later row fills a text that is still empty and
    changes no text that is set. *)
Theorem load_ecdict_first_text_wins
    (py_float : pystr → result spec_float)
    (normalize_word : pystr → pystr) (WORD_RE : pystr → bool)
    (normalize_phonetic normalize_pos clean_ecdict_translation
       : pystr → pystr)
    (parse_ecdict_tags : pystr → gset pystr)
    (rows : list EcdictRow) (m : gmap pystr ECDictWord)
    (w : pystr) (info : ECDictWord) :
  load_ecdict py_float normalize_word WORD_RE normalize_phonetic normalize_pos
              clean_ecdict_translation parse_ecdict_tags rows = Ok m →
  m !! w = Some info →
  let mine := filter (λ r, normalize_word (row_word r) = w) rows in
  phonetic info
  = first_truthy ((λ r, normalize_phonetic (cell (row_phonetic r))) <$> mine)
  ∧ pos info
    = first_truthy ((λ r, normalize_pos (cell (row_pos r))) <$> mine)
  ∧ meaning info
    = first_truthy
        ((λ r, clean_ecdict_translation (cell (row_translation r))) <$> mine).
Proof. intros Hload Hw. by eapply load_ecdict_first_texts. Qed.

Lemma load_ecdict_first_text_wins_witness :
  ∃ m info,
    load_ecdict float_ascii (normalize_word (fmap ascii_lower)) WORD_RE
                normalize_phonetic normalize_pos clean_text (λ t, {[t]})
                ex_text_rows = Ok m
    ∧ m !! py "abate" = Some info
    ∧ let mine := filter (λ r, normalize_word (fmap ascii_lower) (row_word r)
                               = py "abate") ex_text_rows in
      phonetic info
      = first_truthy
          ((λ r, normalize_phonetic (cell (row_phonetic r))) <$> mine)
      ∧ pos info
        = first_truthy ((λ r, normalize_pos (cell (row_pos r))) <$> mine)
      ∧ meaning info
        = first_truthy
            ((λ r, clean_text (cell (row_translation r))) <$> mine).
Proof.
  destruct (load_ecdict float_ascii (normalize_word (fmap ascii_lower))
              WORD_RE normalize_phonetic normalize_pos clean_text
              (λ t, {[t]}) ex_text_rows) as [m|e] eqn:H;
    [|vm_compute in H; discriminate].
  destruct (load_ecdict_present _ _ _ _ _ _ _ _ m
              (mkEcdictRow (py "abate") (Some (py "e'beit")) None
                 (Some (py "vt.& vi.")) (Some (py "zk/gk TOEFL"))
                 (Some (py "4200")))
              H ltac:(right; left) eq_refl) as [info Hw].
  exists m, info. split; [reflexivity|]. split; [exact Hw|].
  exact (load_ecdict_first_text_wins _ _ _ _ _ _ _ _ m _ info H Hw).
Defined.

(** The texts [load_ecdict] stores, when the two normalisers are the
    program's own. *)
Lemma load_ecdict_normalised_texts
    (py_float : pystr → result spec_float)
    (norm_word : pystr → pystr) (word_ok : pystr → bool)
    (clean_ecdict_translation : pystr → pystr)
    (parse_ecdict_tags : pystr → gset pystr)
    (rows : list EcdictRow) (m : gmap pystr ECDictWord)
    (w : pystr) (info : ECDictWord) :
  load_ecdict py_float norm_word word_ok
              normalize_phonetic normalize_pos
              clean_ecdict_translation parse_ecdict_tags rows
  = Ok m →
  m !! w = Some info →
  (phonetic info = []
   ∨ head (phonetic info) = Some 47%N ∧ last (phonetic info) = Some 47%N)
  ∧ normalize_phonetic (phonetic info) = phonetic info
  ∧ (pos info = [] ∨ last (pos info) = Some 46%N)
  ∧ normalize_pos (pos info) = pos info.
Proof.
  intros Hload Hw.
  destruct (load_ecdict_first_texts _ _ _ _ _ _ _ _ _ _ _ Hload Hw)
    as (Hph & Hpos & _).
  assert (phonetic info = []
          ∨ ∃ x, phonetic info = normalize_phonetic x) as Hph'.
  { rewrite Hph. destruct (first_truthy_elem
      ((λ r0, normalize_phonetic (cell (row_phonetic r0)))
         <$> filter (λ r0, norm_word (row_word r0) = w) rows))
      as [E|E]; [by left|right].
    apply list_elem_of_fmap in E as (r0 & E & _). by eexists. }
  assert (pos info = [] ∨ ∃ x, pos info = normalize_pos x)
    as Hpos'.
  { rewrite Hpos. destruct (first_truthy_elem
      ((λ r0, normalize_pos (cell (row_pos r0)))
         <$> filter (λ r0, norm_word (row_word r0) = w) rows))
      as [E|E]; [by left|right].
    apply list_elem_of_fmap in E as (r0 & E & _). by eexists. }
  clear Hph Hpos. split_and!.
  - destruct Hph' as [->|[x ->]]; [by left|].
    by destruct (normalize_phonetic_facts x) as (_ & ? & _).
  - destruct Hph' as [->|[x ->]]; [done|].
    by destruct (normalize_phonetic_facts x) as (_ & _ & _ & ?).
  - destruct Hpos' as [->|[x ->]]; [by left|].
    destruct (normalize_pos_facts x) as ([E|(token & E & _)] & _);
      [by left|right].
    rewrite E. apply last_snoc.
  - destruct Hpos' as [->|[x ->]]; [done|].
    by destruct (normalize_pos_facts x) as (_ & ?).
Qed.

(** X21. With the program's own [normalize_word], [WORD_RE],
    [normalize_phonetic] and [normalize_pos], every entry of the mapping
    [load_ecdict] returns has a key of 2 to 31 lowercase letters, apostrophes
    and hyphens that begins with a letter, a phonetic that is empty or stands
    between two slashes, and a part of speech that is empty or ends in a full
    stop; both texts are left as they are when normalised again. *)
Theorem load_ecdict_normalised_entries
    (py_float : pystr → result spec_float) (py_lower : pystr → pystr)
    (clean_ecdict_translation : pystr → pystr)
    (parse_ecdict_tags : pystr → gset pystr)
    (rows : list EcdictRow) (m : gmap pystr ECDictWord)
    (w : pystr) (info : ECDictWord) :
  (∀ t, last (py_lower t) = Some 10%N → last t = Some 10%N) →
  load_ecdict py_float (normalize_word py_lower) WORD_RE normalize_phonetic
              normalize_pos clean_ecdict_translation parse_ecdict_tags rows
  = Ok m →
  m !! w = Some info →
  ((2 ≤ length w ≤ 31)%nat
   ∧ (∃ c, head w = Some c ∧ is_lower_az c = true)
   ∧ Forall (λ c, is_word_tail c = true) w)
  ∧ (phonetic info = []
     ∨ head (phonetic info) = Some 47%N ∧ last (phonetic info) = Some 47%N)
  ∧ normalize_phonetic (phonetic info) = phonetic info
  ∧ (pos info = [] ∨ last (pos info) = Some 46%N)
  ∧ normalize_pos (pos info) = pos info.
Proof.
  intros Hlower Hload Hw. split.
  - destruct (load_ecdict_key_origin _ _ _ _ _ _ _ _ _ _ Hload
                (mk_is_Some _ _ Hw)) as (Hre & r & _ & <-).
    by apply normalize_word_shape.
  - by eapply load_ecdict_normalised_texts.
Qed.

Lemma load_ecdict_normalised_entries_witness :
  ∃ m info,
    load_ecdict float_ascii (normalize_word (fmap ascii_lower)) WORD_RE
                normalize_phonetic normalize_pos clean_text (λ t, {[t]})
                ex_text_rows = Ok m
    ∧ m !! py "abate" = Some info
    ∧ ((2 ≤ length (py "abate") ≤ 31)%nat
       ∧ (∃ c, head (py "abate") = Some c ∧ is_lower_az c = true)
       ∧ Forall (λ c, is_word_tail c = true) (py "abate"))
    ∧ (phonetic info = []
       ∨ head (phonetic info) = Some 47%N
         ∧ last (phonetic info) = Some 47%N)
    ∧ normalize_phonetic (phonetic info) = phonetic info
    ∧ (pos info = [] ∨ last (pos info) = Some 46%N)
    ∧ normalize_pos (pos info) = pos info.
Proof.
  destruct (load_ecdict float_ascii (normalize_word (fmap ascii_lower))
              WORD_RE normalize_phonetic normalize_pos clean_text
              (λ t, {[t]}) ex_text_rows) as [m|e] eqn:H;
    [|vm_compute in H; discriminate].
  destruct (load_ecdict_present _ _ _ _ _ _ _ _ m
              (mkEcdictRow (py "abate") (Some (py "e'beit")) None
                 (Some (py "vt.& vi.")) (Some (py "zk/gk TOEFL"))
                 (Some (py "4200")))
              H ltac:(right; left) eq_refl) as [info Hw].
  exists m, info. split; [reflexivity|]. split; [exact Hw|].
  exact (load_ecdict_normalised_entries float_ascii (fmap ascii_lower)
           clean_text (λ t, {[t]}) ex_text_rows m (py "abate") info
           ascii_lower_feed H Hw).
Defined.

(** * The academic word list *)

Lemma is_token_tail_no_space c : is_token_tail c = true → is_space c = false.
Proof. unfold is_token_tail, is_letter, is_space. intros H. class_lia. Qed.

Lemma ascii_lower_cases c :
  (65 ≤ c ≤ 90)%N ∧ ascii_lower c = (c + 32)%N
  ∨ ((c < 65)%N ∨ (90 < c)%N) ∧ ascii_lower c = c.
Proof.
  unfold ascii_lower.
  destruct (N.leb_spec 65 c), (N.leb_spec c 90); cbn [andb]; lia.
Qed.

Lemma is_token_tail_lower c :
  is_token_tail c = true → is_word_tail (ascii_lower c) = true.
Proof.
  unfold is_token_tail, is_letter, is_word_tail, is_lower_az. intros H.
  destruct (ascii_lower_cases c) as [[? ->]|[? ->]]; class_lia.
Qed.

Lemma is_letter_lower c :
  is_letter c = true → is_lower_az (ascii_lower c) = true.
Proof.
  unfold is_letter, is_lower_az. intros H.
  destruct (ascii_lower_cases c) as [[? ->]|[? ->]]; class_lia.
Qed.

Lemma is_word_tail_token c :
  is_word_tail c = true → is_token_tail c = true ∧ ascii_lower c = c.
Proof.
  unfold is_token_tail, is_letter, is_word_tail, is_lower_az. intros H.
  destruct (ascii_lower_cases c) as [[? E]|[? E]]; rewrite E;
    (split; [class_lia|]); class_lia.
Qed.

Lemma Forall_forallb (f : N → bool) l :
  Forall (λ c, f c = true) l → forallb f l = true.
Proof. induction 1 as [|c l Hc _ IH]; cbn; [done|]. by rewrite Hc, IH. Qed.

Lemma WORD_RE_intro w :
  (2 ≤ length w ≤ 31)%nat →
  (∃ c, head w = Some c ∧ is_lower_az c = true) →
  Forall (λ c, is_word_tail c = true) w →
  WORD_RE w = true.
Proof.
  intros Hlen (c & Hc & Haz) Hall. destruct w as [|c' rest]; [done|].
  injection Hc as ->. apply Forall_cons in Hall as [_ Hall].
  cbn [WORD_RE length] in *. rewrite Haz. cbn [andb].
  rewrite (Forall_forallb _ _ Hall), andb_true_r.
  rewrite (proj2 (Nat.leb_le 1 _)), (proj2 (Nat.leb_le _ 30)) by lia. done.
Qed.

Lemma findall_tokens_ok cur line :
  (cur = []
   ∨ (length cur ≤ 31)%nat ∧ Forall (λ c, is_token_tail c = true) cur
     ∧ ∃ c, last cur = Some c ∧ is_letter c = true) →
  Forall token_ok (findall_tokens cur line).
Proof.
  revert cur. induction line as [|c line IH]; intros cur Hcur.
  - cbn [findall_tokens].
    destruct (Nat.leb_spec 2 (length cur)) as [Hlen|_]; [|constructor].
    destruct Hcur as [->|(Hle & Hall & x & Hx & Hletter)]; [cbn in Hlen; lia|].
    constructor; [|constructor]. split; [|split].
    + by rewrite length_reverse.
    + exists x. by rewrite head_reverse.
    + by apply Forall_reverse.
  - assert (Forall token_ok
              (if is_letter c then findall_tokens [c] line
               else findall_tokens [] line)) as Hfresh.
    { destruct (is_letter c) eqn:Hc; apply IH; [right|by left].
      split_and!; [cbn; lia| |by exists c].
      constructor; [|constructor]. unfold is_token_tail. by rewrite Hc. }
    cbn [findall_tokens]. destruct cur as [|a cur]; [done|].
    destruct Hcur as [|(Hle & Hall & x & Hx & Hletter)]; [done|].
    destruct (is_token_tail c && (length (a :: cur) <? 31)%nat) eqn:Hext.
    + apply andb_true_iff in Hext as [Hc Hlt%Nat.ltb_lt]. apply IH. right.
      split_and!; [cbn [length] in *; lia|by constructor|].
      exists x. by rewrite <- Hx.
    + apply Forall_app. split; [|done].
      destruct (Nat.leb_spec 2 (length (a :: cur))) as [Hlen|_];
        [|constructor].
      constructor; [|constructor]. split; [|split].
      * by rewrite length_reverse.
      * exists x. by rewrite head_reverse.
      * by apply Forall_reverse.
Qed.

(** A text that is one token is found whole. *)
Lemma findall_tokens_whole cur line :
  cur ≠ [] → Forall (λ c, is_token_tail c = true) line →
  (2 ≤ length cur + length line ≤ 31)%nat →
  findall_tokens cur line = [reverse cur ++ line].
Proof.
  revert cur. induction line as [|c line IH]; intros cur Hne Hall Hlen.
  - cbn [findall_tokens]. rewrite app_nil_r.
    by rewrite (proj2 (Nat.leb_le 2 _)) by (cbn in Hlen; lia).
  - apply Forall_cons in Hall as [Hc Hall]. cbn [findall_tokens].
    destruct cur as [|a cur]; [done|]. rewrite Hc.
    rewrite (proj2 (Nat.ltb_lt _ 31)) by (cbn [length] in *; lia).
    cbn [andb]. rewrite IH; [|done|done|cbn [length] in *; lia].
    by rewrite reverse_cons, <- app_assoc.
Qed.

Section load_awl_words_facts.
Context (py_lower : pystr → pystr).
Hypothesis py_lower_ascii :
  ∀ t, Forall (λ c, is_token_tail c = true) t → py_lower t = ascii_lower <$> t.

Lemma normalize_word_token t :
  token_ok t →
  normalize_word py_lower t = ascii_lower <$> t
  ∧ WORD_RE (ascii_lower <$> t) = true.
Proof.
  intros (Hlen & (c & Hc & Hletter) & Hall). split.
  - unfold normalize_word. rewrite strip_digits_like; [by apply py_lower_ascii|].
    eapply Forall_impl; [exact Hall|]. apply is_token_tail_no_space.
  - apply WORD_RE_intro.
    + by rewrite length_fmap.
    + exists (ascii_lower c). destruct t as [|c' t]; [done|].
      injection Hc as ->. split; [done|]. by apply is_letter_lower.
    + apply Forall_fmap. eapply Forall_impl; [exact Hall|].
      apply is_token_tail_lower.
Qed.

Lemma awl_line_words_tokens line :
  awl_line_words py_lower line
  = if negb (truthy (strip line)) || startswith (strip line) (py "#")
    then []
    else (λ t : pystr, ascii_lower <$> t) <$> findall_tokens [] (strip line).
Proof.
  unfold awl_line_words.
  destruct (negb (truthy (strip line)) || startswith (strip line) (py "#"));
    [done|].
  pose proof (findall_tokens_ok [] (strip line) ltac:(by left)) as Hok.
  induction Hok as [|t l Ht _ IH]; [done|].
  destruct (normalize_word_token t Ht) as [Hn Hre].
  cbn [fmap list_fmap]. rewrite Hn, filter_cons_True by done.
  f_equal. exact IH.
Qed.

Lemma awl_line_words_word w :
  WORD_RE w = true → last w ≠ Some 10%N → awl_line_words py_lower w = [w].
Proof.
  intros Hre Hl.
  destruct (WORD_RE_shape w Hre Hl) as (Hlen & (c & Hc & Haz) & Hall).
  assert (Forall (λ c, is_token_tail c = true) w) as Htok.
  { eapply Forall_impl; [exact Hall|]. intros x Hx.
    by apply is_word_tail_token. }
  assert (ascii_lower <$> w = w) as Hlow.
  { clear -Hall. induction Hall as [|x w Hx _ IH]; [done|].
    cbn [fmap list_fmap]. f_equal; [by apply is_word_tail_token|exact IH]. }
  assert (strip w = w) as Hstrip.
  { apply strip_digits_like. eapply Forall_impl; [exact Htok|].
    apply is_token_tail_no_space. }
  rewrite awl_line_words_tokens, Hstrip.
  destruct w as [|c' w]; [done|]. injection Hc as ->.
  apply Forall_cons in Htok as [Hc Htok]. change (py "#") with [35%N].
  cbn [truthy negb orb startswith].
  assert ((c =? 35)%N = false) as ->.
  { apply N.eqb_neq. intros ->. done. }
  cbn [andb findall_tokens].
  assert (is_letter c = true) as ->.
  { unfold is_letter. unfold is_lower_az in Haz. rewrite Haz.
    apply orb_true_r. }
  rewrite findall_tokens_whole; [|done|done|cbn [length] in *; lia].
  change (reverse [c] ++ w) with (c :: w).
  change ((λ t : pystr, ascii_lower <$> t) <$> [c :: w])
    with [ascii_lower <$> c :: w].
  by rewrite Hlow.
Qed.

End load_awl_words_facts.

Lemma splitlines_from_line cur w rest :
  Forall (λ c, is_linebreak c = false) w →
  splitlines_from cur (w ++ 10%N :: rest)
  = (reverse cur ++ w) :: splitlines_from [] rest.
Proof.
  revert cur. induction w as [|c w IH]; intros cur Hw.
  - cbn [app splitlines_from]. change (is_linebreak 10) with true.
    cbv iota. rewrite app_nil_r. f_equal. by destruct rest.
  - apply Forall_cons in Hw as [Hc Hw]. cbn [app splitlines_from].
    rewrite Hc, (IH _ Hw), reverse_cons, <- app_assoc. done.
Qed.

Lemma join_lines words :
  words ≠ [] →
  join [10%N] words ++ [10%N] = words ≫= (λ w, w ++ [10%N]).
Proof.
  induction words as [|w words IH]; [done|]. intros _.
  destruct words as [|w' words]; [by rewrite bind_cons, app_nil_r|].
  rewrite bind_cons, <- IH by done. cbn [join]. by rewrite <- !app_assoc.
Qed.

Lemma splitlines_lines words :
  Forall (Forall (λ c, is_linebreak c = false)) words →
  splitlines (words ≫= (λ w, w ++ [10%N])) = words.
Proof.
  unfold splitlines. induction 1 as [|w words Hw _ IH]; [done|].
  rewrite bind_cons, <- app_assoc. cbn [app].
  by rewrite (splitlines_from_line [] w _ Hw), IH.
Qed.

Lemma is_word_tail_no_break c : is_word_tail c = true → is_linebreak c = false.
Proof. unfold is_word_tail, is_lower_az, is_linebreak. intros H. class_lia. Qed.

(** X22. When [lower] acts on ASCII letters, apostrophes and hyphens as the
    ASCII lowering, the [WORD_RE] test of [load_awl_words] rejects nothing:
    the words loaded are the lowered tokens of the lines that are neither
    blank nor comments, and each of them has 2 to 31 code points and passes
    [WORD_RE]. *)
Theorem load_awl_words_keeps_every_token
    (py_lower : pystr → pystr) (text : pystr) :
  (∀ t, Forall (λ c, is_token_tail c = true) t →
        py_lower t = ascii_lower <$> t) →
  ∃ words,
    load_awl_words py_lower (Some text) = Ok words
    ∧ (∀ w, w ∈ words ↔
         ∃ line token,
           line ∈ splitlines text ∧ strip line ≠ []
           ∧ startswith (strip line) (py "#") = false
           ∧ token ∈ findall_tokens [] (strip line)
           ∧ w = ascii_lower <$> token)
    ∧ (∀ w, w ∈ words → WORD_RE w = true ∧ (2 ≤ length w ≤ 31)%nat).
Proof.
  intros Hlower. eexists. split; [reflexivity|].
  assert (∀ w, w ∈ (list_to_set (splitlines text ≫= awl_line_words py_lower)
                     : gset pystr) ↔
            ∃ line token,
              line ∈ splitlines text ∧ strip line ≠ []
              ∧ startswith (strip line) (py "#") = false
              ∧ token ∈ findall_tokens [] (strip line)
              ∧ w = ascii_lower <$> token) as Hiff.
  { intros w. rewrite elem_of_list_to_set, list_elem_of_bind. split.
    - intros (line & Hw & Hline).
      rewrite (awl_line_words_tokens py_lower Hlower) in Hw.
      destruct (strip line) as [|c l] eqn:Hs; [by apply elem_of_nil in Hw|].
      cbn [truthy negb orb] in Hw.
      destruct (startswith (c :: l) (py "#")) eqn:Hhash;
        [by apply elem_of_nil in Hw|].
      apply list_elem_of_fmap in Hw as (token & -> & Htok).
      exists line, token. by rewrite Hs.
    - intros (line & token & Hline & Hs & Hhash & Htok & ->).
      exists line. split; [|done].
      rewrite (awl_line_words_tokens py_lower Hlower), Hhash.
      destruct (strip line); [done|]. cbn [truthy negb orb].
      apply list_elem_of_fmap. by exists token. }
  split; [exact Hiff|].
  intros w (line & token & _ & _ & _ & Htok & ->)%Hiff.
  pose proof (findall_tokens_ok [] (strip line) ltac:(by left)) as Hok.
  rewrite Forall_forall in Hok. specialize (Hok token Htok).
  destruct (normalize_word_token py_lower Hlower token Hok) as [_ Hre].
  split; [done|]. rewrite length_fmap. by destruct Hok.
Qed.

Lemma load_awl_words_keeps_every_token_witness :
  ∃ words,
    load_awl_words (fmap ascii_lower)
                   (Some (py "# list" ++ [10%N] ++ py "Analyse x-ray")) = Ok words
    ∧ (∀ w, w ∈ words ↔
         ∃ line token,
           line ∈ splitlines (py "# list" ++ [10%N] ++ py "Analyse x-ray")
           ∧ strip line ≠ []
           ∧ startswith (strip line) (py "#") = false
           ∧ token ∈ findall_tokens [] (strip line)
           ∧ w = ascii_lower <$> token)
    ∧ (∀ w, w ∈ words → WORD_RE w = true ∧ (2 ≤ length w ≤ 31)%nat).
Proof.
  apply (load_awl_words_keeps_every_token (fmap ascii_lower)).
  intros t _. reflexivity.
Defined.

(** X23. A file that holds accepted words, one on each line, is read back by
    [load_awl_words] as the set of these words; such is the file that
    [download_sources] writes.  The words are texts that pass [WORD_RE] and
    end in no line feed. *)
Theorem load_awl_words_reads_back
    (py_lower : pystr → pystr) (words : list pystr) :
  (∀ t, Forall (λ c, is_token_tail c = true) t →
        py_lower t = ascii_lower <$> t) →
  Forall (λ w, WORD_RE w = true ∧ last w ≠ Some 10%N) words →
  load_awl_words py_lower (Some (join [10%N] words ++ [10%N]))
  = Ok (list_to_set words).
Proof.
  intros Hlower Hwords. unfold load_awl_words. f_equal.
  destruct (decide (words = [])) as [->|Hne]; [done|].
  rewrite (join_lines words Hne), splitlines_lines.
  - f_equal. clear Hne.
    induction Hwords as [|w words [Hre Hl] _ IH]; [done|].
    rewrite bind_cons, (awl_line_words_word py_lower Hlower w Hre Hl).
    cbn [app]. f_equal. exact IH.
  - eapply Forall_impl; [exact Hwords|]. intros w [Hre Hl].
    destruct (WORD_RE_shape w Hre Hl) as (_ & _ & Hall).
    eapply Forall_impl; [exact Hall|]. apply is_word_tail_no_break.
Qed.

Lemma load_awl_words_reads_back_witness :
  load_awl_words (fmap ascii_lower)
                 (Some (join [10%N] [py "analyse"; py "x-ray"] ++ [10%N]))
  = Ok (list_to_set [py "analyse"; py "x-ray"]).
Proof.
  apply (load_awl_words_reads_back (fmap ascii_lower)).
  - intros t _. reflexivity.
  - repeat constructor; discriminate.
Defined.

(** X24. The entries [make_entries] builds over a mapping that [load_ecdict]
    returned carry normalised texts: the phonetic of an entry is empty or
    stands between two slashes, its part of speech is empty or ends in a
    full stop, whether it comes from the frequency dictionary or from the
    headword dictionary, and both are left as they are when normalised
    again. *)
Theorem make_entries_normalised_texts
    (py_float : pystr → result spec_float) (py_lower : pystr → pystr)
    (clean_ecdict_translation : pystr → pystr)
    (parse_ecdict_tags : pystr → gset pystr)
    (rows : list EcdictRow) (ecdict_map : gmap pystr ECDictWord)
    (tier_by_word : gmap pystr pystr) (kaj_map : gmap pystr KajWord)
    (awl_words : gset pystr) (xiaolai_tags : gmap pystr (gset pystr))
    (words : list pystr) (entries : list Entry) (e : Entry) :
  load_ecdict py_float (normalize_word py_lower) WORD_RE normalize_phonetic
              normalize_pos clean_ecdict_translation parse_ecdict_tags rows
  = Ok ecdict_map →
  make_entries normalize_pos tier_by_word kaj_map ecdict_map awl_words
               xiaolai_tags words = Ok entries →
  e ∈ entries →
  (entry_phonetic e = []
   ∨ head (entry_phonetic e) = Some 47%N
     ∧ last (entry_phonetic e) = Some 47%N)
  ∧ normalize_phonetic (entry_phonetic e) = entry_phonetic e
  ∧ (entry_pos e = [] ∨ last (entry_pos e) = Some 46%N)
  ∧ normalize_pos (entry_pos e) = entry_pos e.
Proof.
  intros Hload Hbuild [i Hi]%list_elem_of_lookup.
  destruct (make_entries_from_fields _ _ _ _ _ _ _ _ _ _ _ _ Hbuild Hi)
    as (_ & -> & _ & -> & _).
  pose proof (λ info, load_ecdict_normalised_texts _ _ _ _ _ _ _
                        (entry_word e) info Hload) as Hecd.
  clear Hload.
  unfold choose_pos.
  destruct (ecdict_map !! entry_word e) as [info|] eqn:Hinfo.
  - destruct (Hecd info eq_refl) as (H1 & H2 & H3 & H4).
    cbn [from_option]. split; [done|]. split; [done|].
    destruct (truthy (pos info)); [done|].
    destruct (kaj_map !! entry_word e) as [kaj|]; [|by split; [left|]].
    destruct (truthy (kaj_pos kaj)); [|by split; [left|]].
    destruct (normalize_pos_facts (kaj_pos kaj))
      as ([E|(token & E & _)] & Hidem); (split; [|done]);
      [by left|right]. rewrite E. apply last_snoc.
  - cbn [from_option]. split; [by left|]. split; [done|].
    destruct (kaj_map !! entry_word e) as [kaj|]; [|by split; [left|]].
    destruct (truthy (kaj_pos kaj)); [|by split; [left|]].
    destruct (normalize_pos_facts (kaj_pos kaj))
      as ([E|(token & E & _)] & Hidem); (split; [|done]);
      [by left|right]. rewrite E. apply last_snoc.
Qed.

Lemma make_entries_normalised_texts_witness :
  ∃ m entries e,
    load_ecdict float_ascii (normalize_word (fmap ascii_lower)) WORD_RE
                normalize_phonetic normalize_pos clean_text (λ t, {[t]})
                ex_text_rows = Ok m
    ∧ make_entries normalize_pos {[py "abate" := py "core"]} ex_kaj m ∅ ∅
                   [py "abate"] = Ok entries
    ∧ e ∈ entries
    ∧ (entry_phonetic e = []
       ∨ head (entry_phonetic e) = Some 47%N
         ∧ last (entry_phonetic e) = Some 47%N)
    ∧ normalize_phonetic (entry_phonetic e) = entry_phonetic e
    ∧ (entry_pos e = [] ∨ last (entry_pos e) = Some 46%N)
    ∧ normalize_pos (entry_pos e) = entry_pos e.
Proof.
  destruct (load_ecdict float_ascii (normalize_word (fmap ascii_lower))
              WORD_RE normalize_phonetic normalize_pos clean_text
              (λ t, {[t]}) ex_text_rows) as [m|err] eqn:H;
    [|vm_compute in H; discriminate].
  destruct (make_entries normalize_pos {[py "abate" := py "core"]} ex_kaj m
              ∅ ∅ [py "abate"]) as [[|e entries]|err] eqn:HE;
    [vm_compute in HE; discriminate| |vm_compute in HE; discriminate].
  exists m, (e :: entries), e.
  split; [reflexivity|]. split; [exact HE|]. split; [left|].
  exact (make_entries_normalised_texts float_ascii (fmap ascii_lower)
           clean_text (λ t, {[t]}) ex_text_rows m
           {[py "abate" := py "core"]} ex_kaj ∅ ∅ [py "abate"]
           (e :: entries) e H HE ltac:(left)).
Defined.

(** * Translations *)

(** The square brackets of a text, in order. *)
Abbreviation brackets t := (filter (λ c, is_bracket c = true) t).

Lemma no_pair_brackets b (t : pystr) : no_pair b (brackets t) = no_pair b t.
Proof.
  revert b. induction t as [|c t IH]; intros b; [done|].
  rewrite filter_cons. cbn [no_pair].
  destruct (decide (is_bracket c = true)) as [Hc|Hc].
  - cbn [no_pair]. destruct (c =? 93)%N; by rewrite IH.
  - unfold is_bracket in Hc. apply not_true_is_false in Hc.
    apply orb_false_iff in Hc as [-> ->]. by rewrite orb_false_r.
Qed.

Lemma no_pair_no_close b t : (∀ c, c ∈ t → c ≠ 93%N) → no_pair b t = true.
Proof.
  revert b. induction t as [|c t IH]; intros b H; [done|]. cbn [no_pair].
  rewrite (proj2 (N.eqb_neq c 93)) by (apply H; by left).
  apply IH. intros x Hx. apply H. by right.
Qed.

Lemma no_pair_open_no_close t c : no_pair true t = true → c ∈ t → c ≠ 93%N.
Proof.
  induction t as [|a t IH]; intros H Hc; [by apply elem_of_nil in Hc|].
  cbn [no_pair] in H. destruct (N.eqb_spec a 93); [done|].
  apply elem_of_cons in Hc as [->|Hc]; [done|]. by apply IH.
Qed.

Lemma no_pair_app b l1 l2 : no_pair b (l1 ++ l2) = true → no_pair b l1 = true.
Proof.
  revert b. induction l1 as [|c l1 IH]; intros b; [done|]. cbn [app no_pair].
  destruct (c =? 93)%N; [|apply IH].
  rewrite !andb_true_iff. intros [? ?]. split; [done|]. by apply IH.
Qed.

Lemma drop_bracketed_no_pair t :
  no_pair false (drop_bracketed None t) = true
  ∧ ∀ h, (∀ c, c ∈ h → c ≠ 93%N) →
         no_pair false (drop_bracketed (Some h) t) = true.
Proof.
  induction t as [|c t [IH1 IH2]].
  - split; [done|]. intros h Hh. cbn. apply no_pair_no_close.
    intros c Hc. apply Hh. by apply elem_of_reverse.
  - split.
    + cbn [drop_bracketed]. destruct (N.eqb_spec c 91) as [->|Hc].
      * apply IH2. by intros c ->%list_elem_of_singleton.
      * cbn [no_pair]. destruct (c =? 93)%N; [done|].
        by rewrite (proj2 (N.eqb_neq c 91)).
    + intros h Hh. cbn [drop_bracketed].
      destruct (N.eqb_spec c 93) as [->|Hc]; [done|].
      apply IH2. intros x [->|Hx]%elem_of_cons; [done|by apply Hh].
Qed.

Lemma drop_bracketed_held h t :
  (∀ c, c ∈ t → c ≠ 93%N) → drop_bracketed (Some h) t = reverse h ++ t.
Proof.
  revert h. induction t as [|c t IH]; intros h H; cbn [drop_bracketed].
  - by rewrite app_nil_r.
  - rewrite (proj2 (N.eqb_neq c 93)) by (apply H; by left).
    rewrite IH by (intros x Hx; apply H; by right).
    by rewrite reverse_cons, <- app_assoc.
Qed.

Lemma drop_bracketed_id t :
  no_pair false t = true → drop_bracketed None t = t.
Proof.
  induction t as [|c t IH]; [done|]. cbn [no_pair drop_bracketed].
  destruct (N.eqb_spec c 91) as [->|Hc].
  - cbn. intros H. rewrite drop_bracketed_held; [done|].
    intros c. by apply no_pair_open_no_close.
  - rewrite orb_false_l. destruct (c =? 93)%N; cbn; intros H; by rewrite IH.
Qed.

Lemma is_space_not_bracket c : is_space c = true → is_bracket c = false.
Proof. unfold is_space, is_bracket. intros H. class_lia. Qed.

Lemma brackets_unbreak (t : pystr) : brackets (unbreak <$> t) = brackets t.
Proof.
  induction t as [|c t IH]; [done|]. cbn [fmap list_fmap].
  fold (fmap (M:=list) unbreak t).
  assert (is_bracket (unbreak c) = is_bracket c
          ∧ (is_bracket c = true → unbreak c = c)) as [E1 E2].
  { unfold unbreak. destruct (N.eqb_spec c 13) as [->|]; [done|].
    destruct (N.eqb_spec c 10) as [->|]; done. }
  rewrite !filter_cons, IH, E1.
  destruct (decide (is_bracket c = true)) as [Hb|]; [by rewrite E2|done].
Qed.

Lemma brackets_lstrip (t : pystr) : brackets (lstrip t) = brackets t.
Proof.
  induction t as [|c t IH]; [done|]. cbn [lstrip].
  destruct (is_space c) eqn:Hc; [|done].
  rewrite IH, filter_cons_False; [done|].
  by rewrite (is_space_not_bracket c Hc).
Qed.

Lemma brackets_strip (t : pystr) : brackets (strip t) = brackets t.
Proof.
  unfold strip.
  by rewrite filter_reverse, brackets_lstrip, filter_reverse,
    reverse_involutive, brackets_lstrip.
Qed.

Lemma brackets_squeeze b (t : pystr) : brackets (squeeze b t) = brackets t.
Proof.
  revert b. induction t as [|c t IH]; intros b; [done|]. cbn [squeeze].
  destruct (is_space c) eqn:Hc.
  - rewrite (filter_cons_False _ c) by by rewrite (is_space_not_bracket c Hc).
    destruct b; [apply IH|]. rewrite filter_cons_False by done. apply IH.
  - by rewrite !filter_cons, IH.
Qed.

Lemma brackets_clean_text (t : pystr) : brackets (clean_text t) = brackets t.
Proof.
  unfold clean_text.
  by rewrite brackets_squeeze, brackets_strip, brackets_unbreak.
Qed.

Lemma is_sense_sep_not_bracket c : is_sense_sep c = true → is_bracket c = false.
Proof. unfold is_sense_sep, is_bracket. intros H. class_lia. Qed.

Lemma brackets_split_at cur t :
  brackets (concat (split_at is_sense_sep cur t)) = brackets (reverse cur ++ t).
Proof.
  revert cur. induction t as [|c t IH]; intros cur; cbn [split_at].
  - by rewrite concat_cons.
  - destruct (is_sense_sep c) eqn:Hc.
    + rewrite concat_cons, !filter_app, IH. cbn [reverse app].
      rewrite (filter_cons_False _ c); [done|].
      by rewrite (is_sense_sep_not_bracket c Hc).
    + rewrite IH, reverse_cons, <- app_assoc. done.
Qed.

Lemma concat_filter_truthy (l : list pystr) :
  concat (filter (λ p, truthy p = true) l) = concat l.
Proof.
  induction l as [|p l IH]; [done|]. rewrite filter_cons.
  destruct (decide (truthy p = true)) as [Hp|Hp]; cbn [concat].
  - by rewrite IH.
  - rewrite IH. by destruct p.
Qed.

Lemma brackets_concat_clean (l : list pystr) :
  brackets (concat (clean_text <$> l)) = brackets (concat l).
Proof.
  induction l as [|p l IH]; [done|]. cbn [fmap list_fmap concat].
  fold (fmap (M:=list) clean_text l).
  by rewrite !filter_app, brackets_clean_text, IH.
Qed.

Lemma brackets_join (parts : list pystr) :
  brackets (join [65307%N] parts) = brackets (concat parts).
Proof.
  induction parts as [|p parts IH]; [done|].
  destruct parts as [|q parts]; [cbn; by rewrite app_nil_r|].
  change (join [65307%N] (p :: q :: parts))
    with (p ++ [65307%N] ++ join [65307%N] (q :: parts)).
  rewrite concat_cons, !filter_app, IH. done.
Qed.

Lemma elem_of_clean_text x t : x ∈ clean_text t → x = 32%N ∨ x ∈ t.
Proof.
  unfold clean_text.
  assert (∀ b s, x ∈ squeeze b s → x = 32%N ∨ x ∈ s) as Hsq.
  { intros b s. revert b. induction s as [|c s IH]; intros b; [by right|].
    cbn [squeeze]. destruct (is_space c); [destruct b|].
    - intros [?|?]%IH; [by left|right; by right].
    - intros [->|[?|?]%IH]%elem_of_cons; [by left|by left|right; by right].
    - intros [->|[?|?]%IH]%elem_of_cons;
        [right; by left|by left|right; by right]. }
  intros [?|H]%Hsq; [by left|].
  apply (drop_both_elem is_space lstrip) in H; [|done|done].
  apply list_elem_of_fmap in H as (y & -> & Hy). unfold unbreak.
  destruct (_ || _); [by left|by right].
Qed.

Lemma split_at_fields sep cur t :
  Forall (λ c, sep c = false) cur →
  Forall (Forall (λ c, sep c = false)) (split_at sep cur t).
Proof.
  revert cur. induction t as [|c t IH]; intros cur Hcur; cbn [split_at].
  - constructor; [by apply Forall_reverse|constructor].
  - destruct (sep c) eqn:Hc.
    + constructor; [by apply Forall_reverse|]. by apply IH.
    + apply IH. by constructor.
Qed.

Lemma split_at_field sep cur p rest :
  Forall (λ c, sep c = false) p →
  split_at sep cur (p ++ rest) = split_at sep (reverse p ++ cur) rest.
Proof.
  intros Hp. revert cur.
  induction Hp as [|c p Hc _ IH]; intros cur; [done|].
  cbn [app split_at]. rewrite Hc, IH, reverse_cons, <- app_assoc. done.
Qed.

Lemma split_at_join (parts : list pystr) :
  parts ≠ [] → Forall (Forall (λ c, is_sense_sep c = false)) parts →
  split_at is_sense_sep [] (join [65307%N] parts) = parts.
Proof.
  induction parts as [|p parts IH]; [done|]. intros _ Hall.
  apply Forall_cons in Hall as [Hp Hall].
  destruct parts as [|q parts].
  - cbn [join]. rewrite <- (app_nil_r p) at 1.
    rewrite (split_at_field _ _ _ _ Hp), app_nil_r. cbn [split_at].
    by rewrite reverse_involutive.
  - change (join [65307%N] (p :: q :: parts))
      with (p ++ 65307%N :: join [65307%N] (q :: parts)).
    rewrite (split_at_field _ _ _ _ Hp), app_nil_r. cbn [split_at].
    change (is_sense_sep 65307) with true. cbv iota.
    by rewrite reverse_involutive, IH.
Qed.

Lemma single_spaced_app b p c r :
  single_spaced b p = true → is_space c = false →
  single_spaced false r = true → single_spaced b (p ++ c :: r) = true.
Proof.
  intros Hp Hc Hr. revert b Hp.
  induction p as [|a p IH]; intros b Hp; cbn [app single_spaced].
  - by rewrite Hc.
  - cbn [single_spaced] in Hp. destruct (is_space a); [|by apply IH].
    apply andb_true_iff in Hp as [Hp1 Hp2]. rewrite Hp1. by apply IH.
Qed.

Lemma tidy_join (parts : list pystr) :
  Forall (λ p, p ≠ [] ∧ tidy p = true) parts →
  tidy (join [65307%N] parts) = true
  ∧ (parts ≠ [] → join [65307%N] parts ≠ []).
Proof.
  induction 1 as [|p parts [Hne Hp] _ [IH1 IH2]]; [done|].
  destruct parts as [|q parts]; [done|].
  change (join [65307%N] (p :: q :: parts))
    with (p ++ 65307%N :: join [65307%N] (q :: parts)).
  specialize (IH2 ltac:(done)).
  set (r := join [65307%N] (q :: parts)) in *.
  split; [|by destruct p].
  apply tidy_spec in Hp as (Hp1 & Hp2 & _).
  apply tidy_spec in IH1 as (Hr1 & _ & Hr3).
  apply tidy_spec. split_and!.
  - by apply single_spaced_app.
  - by destruct p.
  - rewrite last_app. destruct r as [|x r]; [done|].
    change (last (65307%N :: x :: r)) with (last (x :: r)).
    destruct (last (x :: r)) eqn:E; [done|by apply last_None in E].
Qed.

(** A sense: a text in normal form that is not empty and holds no
    separator of senses. *)
Abbreviation sense p :=
  (p ≠ [] ∧ tidy p = true ∧ Forall (λ c, is_sense_sep c = false) p).

Lemma clean_ecdict_translation_parts text :
  ∃ parts, clean_ecdict_translation text = join [65307%N] parts
           ∧ (length parts ≤ 3)%nat
           ∧ Forall (λ p, sense p) parts
           ∧ no_pair false (join [65307%N] parts) = true.
Proof.
  unfold clean_ecdict_translation.
  set (text2 := clean_text (drop_bracketed None (clean_text text))).
  set (parts := filter (λ p, truthy p = true)
                  (clean_text <$> split_at is_sense_sep [] text2)).
  assert (Forall (λ p, sense p) parts) as Hparts.
  { apply Forall_forall. intros p [Hp Hin]%list_elem_of_filter.
    apply list_elem_of_fmap in Hin as (q & -> & Hq).
    split; [by destruct (clean_text q)|]. split; [apply clean_text_tidy|].
    pose proof (split_at_fields is_sense_sep [] text2 ltac:(constructor))
      as Hf.
    rewrite Forall_forall in Hf. specialize (Hf q Hq).
    rewrite Forall_forall in Hf. apply Forall_forall.
    intros x [->|Hx]%elem_of_clean_text; [done|by apply Hf]. }
  assert (no_pair false (brackets (concat parts)) = true) as Hpair.
  { unfold parts.
    rewrite concat_filter_truthy, brackets_concat_clean, brackets_split_at.
    change (reverse [] ++ text2) with text2. unfold text2.
    rewrite brackets_clean_text, no_pair_brackets.
    apply drop_bracketed_no_pair. }
  destruct (truthy text2); cbn [negb];
    [|exists []; split_and!; [done|cbn; lia|constructor|done]].
  destruct parts as [|p parts'] eqn:Hp; cbn [negb];
    [exists []; split_and!; [done|cbn; lia|constructor|done]|].
  exists (take 3 (p :: parts')). split_and!.
  - done.
  - rewrite length_take. lia.
  - by apply Forall_take.
  - rewrite <- no_pair_brackets, brackets_join.
    rewrite <- (take_drop 3 (p :: parts')), concat_app, filter_app in Hpair.
    by apply no_pair_app in Hpair.
Qed.

Lemma clean_ecdict_translation_facts (text : pystr) :
  let r := clean_ecdict_translation text in
  (∃ parts, r = join [65307%N] parts ∧ (length parts ≤ 3)%nat
            ∧ Forall (λ p, p ≠ [] ∧ tidy p = true
                           ∧ Forall (λ c, is_sense_sep c = false) p) parts)
  ∧ tidy r = true
  ∧ no_pair false r = true
  ∧ clean_ecdict_translation r = r.
Proof.
  cbv zeta.
  destruct (clean_ecdict_translation_parts text)
    as (parts & -> & Hlen & Hparts & Hpair).
  assert (Forall (λ p, p ≠ [] ∧ tidy p = true) parts) as Htidy.
  { eapply Forall_impl; [exact Hparts|]. cbn. tauto. }
  destruct (tidy_join parts Htidy) as [Hr Hne].
  split; [by exists parts|]. split; [done|]. split; [done|].
  destruct parts as [|p parts']; [done|]. specialize (Hne ltac:(done)).
  set (P := p :: parts') in *. unfold clean_ecdict_translation.
  rewrite (clean_text_id _ Hr), (drop_bracketed_id _ Hpair),
    (clean_text_id _ Hr).
  destruct (join [65307%N] P) as [|c r] eqn:Hj; [done|]. cbn [truthy negb].
  rewrite <- Hj, split_at_join; [|done|].
  2:{ eapply Forall_impl; [exact Hparts|]. cbn. tauto. }
  assert (clean_text <$> P = P) as ->.
  { clear -Htidy. induction Htidy as [|q l [_ Hq] _ IH]; [done|].
    cbn [fmap list_fmap]. f_equal; [by apply clean_text_id|exact IH]. }
  assert (filter (λ p, truthy p = true) P = P) as ->.
  { clear -Htidy. induction Htidy as [|q l [Hq _] _ IH]; [done|].
    rewrite filter_cons_True by by destruct q. f_equal. exact IH. }
  unfold P at 1. cbn [negb]. by rewrite take_ge.
Qed.

(** X25. [clean_ecdict_translation] returns at most three senses joined by
    the full-width semicolon: each sense is not empty, is in the normal form
    of [clean_text] and holds no semicolon of either width.  In the result no
    [[] is followed by a []], so no bracketed note is left, and cleaning a
    result again changes nothing. *)
Theorem clean_ecdict_translation_senses (text : pystr) :
  let r := clean_ecdict_translation text in
  (∃ parts, r = join [65307%N] parts ∧ (length parts ≤ 3)%nat
            ∧ Forall (λ p, p ≠ [] ∧ tidy p = true
                           ∧ Forall (λ c, is_sense_sep c = false) p) parts)
  ∧ tidy r = true
  ∧ no_pair false r = true
  ∧ clean_ecdict_translation r = r.
Proof. apply clean_ecdict_translation_facts. Qed.

(** * Tags *)

Lemma split_runs_fields sep b cur t f :
  Forall (λ c, sep c = false) cur → f ∈ split_runs sep b cur t →
  Forall (λ c, sep c = false) f
  ∧ ∃ l1 l2, reverse cur ++ t = l1 ++ f ++ l2.
Proof.
  revert b cur. induction t as [|c t IH]; intros b cur Hcur Hf.
  - apply list_elem_of_singleton in Hf as ->.
    split; [by apply Forall_reverse|]. exists [], []. by rewrite app_nil_r.
  - cbn [split_runs] in Hf. destruct (sep c) eqn:Hc.
    + assert (f ∈ split_runs sep true [] t →
              Forall (λ c, sep c = false) f
              ∧ ∃ l1 l2, reverse cur ++ c :: t = l1 ++ f ++ l2) as Hrest.
      { intros H. destruct (IH true [] ltac:(constructor) H)
          as (Hall & l1 & l2 & E).
        split; [done|]. exists (reverse cur ++ c :: l1), l2.
        change (reverse [] ++ t) with t in E. rewrite E.
        by rewrite <- app_assoc. }
      destruct b; [by apply Hrest|].
      apply elem_of_cons in Hf as [->|Hf]; [|by apply Hrest].
      split; [by apply Forall_reverse|]. by exists [], (c :: t).
    + destruct (IH false (c :: cur) ltac:(by constructor) Hf)
        as (Hall & l1 & l2 & E).
      split; [done|]. exists l1, l2.
      by rewrite <- E, reverse_cons, <- app_assoc.
Qed.

Lemma parse_ecdict_tags_fields
    (py_lower : pystr → pystr) (tag_text tag : pystr) :
  tag ∈ parse_ecdict_tags py_lower tag_text →
  tag ≠ []
  ∧ Forall (λ c, is_tag_sep c = false ∧ is_space c = false) tag
  ∧ ∃ l1 l2, py_lower (clean_text tag_text) = l1 ++ tag ++ l2.
Proof.
  unfold parse_ecdict_tags.
  destruct (truthy (py_lower (clean_text tag_text))); cbn [negb];
    [|by intros ?%elem_of_empty].
  rewrite elem_of_list_to_set, list_elem_of_filter. intros [Hne Hin].
  destruct (split_runs_fields _ _ _ _ _ ltac:(constructor) Hin)
    as (Hall & l1 & l2 & E).
  split; [by destruct tag|]. split; [|by exists l1, l2].
  eapply Forall_impl; [exact Hall|]. intros c Hc. split; [done|].
  unfold is_tag_sep in Hc. rewrite !orb_false_iff in Hc. tauto.
Qed.

(** X26. Every tag [parse_ecdict_tags] gives is a piece of the cleaned and
    lowered text of the cell, is not empty and holds no whitespace and none
    of the separators [, ; / |]. *)
Theorem parse_ecdict_tags_tokens
    (py_lower : pystr → pystr) (tag_text tag : pystr) :
  tag ∈ parse_ecdict_tags py_lower tag_text →
  tag ≠ []
  ∧ Forall (λ c, is_tag_sep c = false ∧ is_space c = false) tag
  ∧ ∃ l1 l2, py_lower (clean_text tag_text) = l1 ++ tag ++ l2.
Proof. apply parse_ecdict_tags_fields. Qed.

Lemma parse_ecdict_tags_tokens_witness :
  py "toefl" ≠ []
  ∧ Forall (λ c, is_tag_sep c = false ∧ is_space c = false) (py "toefl")
  ∧ ∃ l1 l2, ascii_lower <$> clean_text (py "zk/gk TOEFL,gre")
             = l1 ++ py "toefl" ++ l2.
Proof.
  apply (parse_ecdict_tags_tokens (fmap ascii_lower) (py "zk/gk TOEFL,gre")).
  vm_compute. reflexivity.
Defined.

(** X27. With the program's own [clean_ecdict_translation] and
    [parse_ecdict_tags], every entry of the mapping [load_ecdict] returns has
    a meaning of at most three senses joined by the full-width semicolon,
    which cleaning again leaves as it is, and tags that are not empty and
    hold no whitespace and no separator. *)
Theorem load_ecdict_meaning_and_tags
    (py_float : pystr → result spec_float)
    (norm_word : pystr → pystr) (word_ok : pystr → bool)
    (norm_phonetic norm_pos py_lower : pystr → pystr)
    (rows : list EcdictRow) (m : gmap pystr ECDictWord)
    (w : pystr) (info : ECDictWord) :
  load_ecdict py_float norm_word word_ok norm_phonetic norm_pos
              clean_ecdict_translation (parse_ecdict_tags py_lower) rows
  = Ok m →
  m !! w = Some info →
  (∃ parts, meaning info = join [65307%N] parts ∧ (length parts ≤ 3)%nat
            ∧ Forall (λ p, p ≠ [] ∧ tidy p = true
                           ∧ Forall (λ c, is_sense_sep c = false) p) parts)
  ∧ clean_ecdict_translation (meaning info) = meaning info
  ∧ (∀ tag, tag ∈ tags info →
       tag ≠ []
       ∧ Forall (λ c, is_tag_sep c = false ∧ is_space c = false) tag).
Proof.
  intros Hload Hw.
  destruct (load_ecdict_first_texts _ _ _ _ _ _ _ _ _ _ _ Hload Hw)
    as (_ & _ & Hmean).
  destruct (load_ecdict_invariant _ _ _ _ _ _ _ _ _ Hload w info Hw)
    as (_ & _ & Htags).
  assert (meaning info = []
          ∨ ∃ x, meaning info = clean_ecdict_translation x) as Hmean'.
  { rewrite Hmean. destruct (first_truthy_elem
      ((λ r0, clean_ecdict_translation (cell (row_translation r0)))
         <$> filter (λ r0, norm_word (row_word r0) = w) rows))
      as [E|E]; [by left|right].
    apply list_elem_of_fmap in E as (r0 & E & _). by eexists. }
  clear Hmean. split_and!.
  - destruct Hmean' as [->|[x ->]].
    + exists []. split_and!; [done|cbn; lia|constructor].
    + by destruct (clean_ecdict_translation_facts x) as (? & _).
  - destruct Hmean' as [->|[x ->]]; [done|].
    by destruct (clean_ecdict_translation_facts x) as (_ & _ & _ & ?).
  - intros tag (r & _ & _ & Htag)%Htags.
    destruct (parse_ecdict_tags_fields _ _ _ Htag) as (? & ? & _). done.
Qed.

Lemma load_ecdict_meaning_and_tags_witness :
  ∃ m info,
    load_ecdict float_ascii (normalize_word (fmap ascii_lower)) WORD_RE
                normalize_phonetic normalize_pos clean_ecdict_translation
                (parse_ecdict_tags (fmap ascii_lower)) ex_text_rows = Ok m
    ∧ m !! py "abate" = Some info
    ∧ (∃ parts, meaning info = join [65307%N] parts ∧ (length parts ≤ 3)%nat
                ∧ Forall (λ p, p ≠ [] ∧ tidy p = true
                               ∧ Forall (λ c, is_sense_sep c = false) p)
                         parts)
    ∧ clean_ecdict_translation (meaning info) = meaning info
    ∧ (∀ tag, tag ∈ tags info →
         tag ≠ []
         ∧ Forall (λ c, is_tag_sep c = false ∧ is_space c = false) tag).
Proof.
  destruct (load_ecdict float_ascii (normalize_word (fmap ascii_lower))
              WORD_RE normalize_phonetic normalize_pos
              clean_ecdict_translation (parse_ecdict_tags (fmap ascii_lower))
              ex_text_rows) as [m|e] eqn:H;
    [|vm_compute in H; discriminate].
  destruct (load_ecdict_present _ _ _ _ _ _ _ _ m
              (mkEcdictRow (py "abate") (Some (py "e'beit")) None
                 (Some (py "vt.& vi.")) (Some (py "zk/gk TOEFL"))
                 (Some (py "4200")))
              H ltac:(right; left) eq_refl) as [info Hw].
  exists m, info. split; [reflexivity|]. split; [exact Hw|].
  exact (load_ecdict_meaning_and_tags float_ascii
           (normalize_word (fmap ascii_lower)) WORD_RE normalize_phonetic
           normalize_pos (fmap ascii_lower) ex_text_rows m (py "abate") info
           H Hw).
Defined.

(** * The subject tags *)

Section load_xiaolai_facts.
Context (py_lower : pystr → pystr) (START_WORD_RE : pystr → option pystr).

(** What holds of every entry of the mapping while it is built. *)
Abbreviation xiaolai_ok paths m :=
  (∀ w subjects, m !! w = Some subjects →
     WORD_RE w = true
     ∧ subjects ≠ ∅
     ∧ ∀ s, s ∈ subjects →
         ∃ p, p ∈ paths
              ∧ s = infer_subject_from_path py_lower (xp_parent_name p)
                                            (xp_stem p)).

Lemma add_subject_ok (paths : list XiaolaiPath) m p w :
  p ∈ paths → WORD_RE w = true → xiaolai_ok paths m →
  xiaolai_ok paths
    (add_subject (infer_subject_from_path py_lower (xp_parent_name p)
                    (xp_stem p)) m w).
Proof.
  intros Hp Hw Hm w' subjects. unfold add_subject.
  destruct (decide (w = w')) as [<-|Hne].
  - rewrite lookup_insert_eq. intros [= <-]. split; [done|].
    split; [set_solver|]. intros s [Hs|Hs]%elem_of_union.
    + destruct (m !! w) as [old|] eqn:Hold; [|set_solver].
      destruct (Hm w old Hold) as (_ & _ & H). by apply H.
    + apply elem_of_singleton in Hs as ->. by exists p.
  - rewrite lookup_insert_ne by done. apply Hm.
Qed.

Lemma xiaolai_line_word_ok line w :
  xiaolai_line_word py_lower START_WORD_RE line = Some w → WORD_RE w = true.
Proof.
  unfold xiaolai_line_word. destruct (_ || _); [done|].
  destruct (START_WORD_RE (strip line)) as [g|]; [|done].
  destruct (WORD_RE (normalize_word py_lower g)) eqn:Hre; [|done].
  by intros [= <-].
Qed.

Lemma xiaolai_file_step_ok (paths : list XiaolaiPath) m p :
  p ∈ paths → xiaolai_ok paths m →
  xiaolai_ok paths (xiaolai_file_step py_lower START_WORD_RE m p).
Proof.
  intros Hp. unfold xiaolai_file_step.
  destruct (xp_text p) as [content|]; [|done].
  generalize (splitlines content). intros lines. revert m.
  induction lines as [|line lines IH]; intros m Hm; [done|].
  cbn [foldl]. apply IH.
  destruct (xiaolai_line_word py_lower START_WORD_RE line) as [w|] eqn:Hw;
    [|done].
  apply add_subject_ok; [done| |done]. by eapply xiaolai_line_word_ok.
Qed.

Lemma foldl_xiaolai_ok (paths files : list XiaolaiPath) m :
  files ⊆ paths → xiaolai_ok paths m →
  xiaolai_ok paths (foldl (xiaolai_file_step py_lower START_WORD_RE) m files).
Proof.
  revert m. induction files as [|p files IH]; intros m Hsub Hm; [done|].
  cbn [foldl]. apply IH; [set_solver|].
  apply xiaolai_file_step_ok; [set_solver|done].
Qed.

End load_xiaolai_facts.

(** X28. Every entry of the mapping [load_xiaolai_subject_tags] returns has
    a key that passes [WORD_RE] and a set of subjects that is not empty; each
    subject is the one [infer_subject_from_path] gives for a file of the
    directory with one of the five suffixes that is not the readme, and so
    it is never the label of the keyword [geography]. *)
Theorem load_xiaolai_subject_tags_entries
    (py_lower : pystr → pystr) (START_WORD_RE : pystr → option pystr)
    (dir : option (list XiaolaiPath)) (w : pystr) (subjects : gset pystr) :
  load_xiaolai_subject_tags py_lower START_WORD_RE dir !! w = Some subjects →
  WORD_RE w = true
  ∧ subjects ≠ ∅
  ∧ ∀ s, s ∈ subjects →
      s ≠ [22320; 29702]%N
      ∧ ∃ paths p,
          dir = Some paths ∧ p ∈ paths ∧ xp_is_file p = true
          ∧ py_lower (xp_suffix p) ∈ xiaolai_suffixes
          ∧ py_lower (xp_name p) ≠ py "readme.md"
          ∧ s = infer_subject_from_path py_lower (xp_parent_name p)
                                        (xp_stem p).
Proof.
  unfold load_xiaolai_subject_tags. destruct dir as [paths|]; [|done].
  set (useful :=
         filter (λ p, py_lower (xp_name p) ≠ py "readme.md")
           (filter (λ p, xp_is_file p = true
                         ∧ py_lower (xp_suffix p) ∈ xiaolai_suffixes) paths)).
  intros Hw.
  assert (foldl (xiaolai_file_step py_lower START_WORD_RE) ∅ useful !! w
          = Some subjects) as Hw' by (by destruct useful).
  clear Hw.
  destruct (foldl_xiaolai_ok py_lower START_WORD_RE useful useful ∅
              ltac:(done) ltac:(done) w subjects Hw') as (Hre & Hne & Hs).
  split; [done|]. split; [done|]. intros s (p & Hp & ->)%Hs.
  split.
  - by destruct (infer_subject_from_path_facts py_lower (xp_parent_name p)
                   (xp_stem p)) as (_ & ? & _).
  - exists paths, p. unfold useful in Hp.
    apply list_elem_of_filter in Hp as [Hname Hp].
    apply list_elem_of_filter in Hp as [[Hfile Hsuffix] Hp]. done.
Qed.

Lemma load_xiaolai_subject_tags_entries_witness :
  WORD_RE (py "abate") = true
  ∧ ({[ [29983; 29289]%N ]} : gset pystr) ≠ ∅
  ∧ ∀ s, s ∈ ({[ [29983; 29289]%N ]} : gset pystr) →
      s ≠ [22320; 29702]%N
      ∧ ∃ paths p,
          Some [mkXiaolaiPath true (py "Biology") (py "unit1.TXT")
                  (py "unit1") (py ".TXT")
                  (Some (py "# words" ++ [10%N] ++ py "Abate - to lessen"))]
          = Some paths
          ∧ p ∈ paths ∧ xp_is_file p = true
          ∧ ascii_lower <$> xp_suffix p ∈ xiaolai_suffixes
          ∧ ascii_lower <$> xp_name p ≠ py "readme.md"
          ∧ s = infer_subject_from_path (fmap ascii_lower) (xp_parent_name p)
                                        (xp_stem p).
Proof.
  apply (load_xiaolai_subject_tags_entries (fmap ascii_lower)
           (λ line, Some (first_field is_space line))
           (Some [mkXiaolaiPath true (py "Biology") (py "unit1.TXT")
                    (py "unit1") (py ".TXT")
                    (Some (py "# words" ++ [10%N]
                           ++ py "Abate - to lessen"))])
           (py "abate")).
  vm_compute. reflexivity.
Defined.
